(** * imgproc: the convolution engine and its pixel primitives

    A shallow embedding of [imgproc.convolution] and of the helpers of
    base.js it calls ([imgproc.Pixel], [imgproc.getPixelLocation],
    [imgproc.getPixel]), followed by the properties of the engine.

    The repository holds two revisions of [imgproc.convolution]:
    - [part_000]: promotes bare-number kernel cells to Pixels, takes the
      default size from a kernel array's length, logs inside a try/catch;
    - [convolution_js] (src/convolution.js): no promotion, the default size
      is always [imgproc.defaults.kernel_size], and the stored channels go
      through [Math.round].
    Both are embedded by one definition indexed by the revision; every step
    on which they differ is a definition of its own taking the revision.

    Numbers.  A JavaScript number is an IEEE 754 binary64 value, and [num]
    is that type: the finite values as integers or odd multiples of a
    negative power of two, and NaN, +Infinity, -Infinity.  Sums, products
    and quotients round to nearest, ties to even, with the subnormal range
    and the overflow to an infinity ([round64], [round_ratio]).  [Fin z] is
    a number when [z] is representable, as every integer up to 2^53 in
    magnitude is; the results of the operations always are.  The two zeros
    are not told apart: the accumulators of the engine start at +0 and never
    become -0, so a zero divisor is +0, and a stored zero is the byte 0
    whatever its sign.  A channel that holds a value that is not a number
    ([undefined], an object) is represented by [NaN]: that is what it
    contributes to every product of the accumulation loop. *)

From Stdlib Require Import ZArith List String Lia Bool.
From stdpp Require Import base option list.
Import ListNotations.
Local Open Scope Z_scope.

(** ** Numbers *)

(** An integer; [m * 2^e] for an odd [m] and [e < 0], the form in which
    every other finite number is written in one way only; and the three
    values that are not finite. *)
Inductive num : Type :=
| Fin (z : Z)
| Frac (m e : Z)
| NaN
| PosInf
| NegInf.

(** A finite number as the pair [(m, e)] that stands for [m * 2^e]. *)
Definition dyadic (x : num) : option (Z * Z) :=
  match x with
  | Fin z => Some (z, 0)
  | Frac m e => Some (m, e)
  | _ => None
  end.

(** [m * 2^e] brought to lowest terms, at most [fuel] halvings. *)
Fixpoint reduce (fuel : nat) (m e : Z) : Z * Z :=
  match fuel with
  | O => (m, e)
  | S fuel' => if Z.even m then reduce fuel' (m / 2) (e + 1) else (m, e)
  end.

(** The number [m * 2^e]. *)
Definition of_dyadic (m e : Z) : num :=
  if 0 <=? e then Fin (m * 2 ^ e)
  else
    let (m', e') := reduce (Z.to_nat (- e)) m e in
    if e' =? 0 then Fin m' else Frac m' e'.

(** [n / d] rounded to the nearest integer, ties to even, for [d > 0]. *)
Definition nearest_even (n d : Z) : Z :=
  let k := n / d in
  let r := n mod d in
  if (d <? 2 * r) || ((2 * r =? d) && Z.odd k) then k + 1 else k.

(** [k * 2^e] is beyond the largest binary64 number. *)
Definition overflows (k e : Z) : bool := (0 <=? e) && (2 ^ 1024 <=? k * 2 ^ e).

(** The number of sign [s] and magnitude [k * 2^e], or the infinity of that
    sign. *)
Definition signed (s : Z) (k e : Z) : num :=
  if overflows k e then (if 0 <? s then PosInf else NegInf)
  else of_dyadic (s * k) e.

(** The binary64 value nearest to [m * 2^e], ties to even: 53 significant
    bits are kept, none below 2^-1074, and what rounds to 2^1024 or more is
    an infinity. *)
Definition round64 (m e : Z) : num :=
  let a := Z.abs m in
  let e' := Z.max (Z.log2 a + e - 52) (-1074) in
  if e' <=? e then signed (Z.sgn m) a e
  else signed (Z.sgn m) (nearest_even a (2 ^ (e' - e))) e'.

(** [x + y] *)
Definition num_add (x y : num) : num :=
  match dyadic x, dyadic y with
  | Some (m1, e1), Some (m2, e2) =>
      let e := Z.min e1 e2 in
      round64 (m1 * 2 ^ (e1 - e) + m2 * 2 ^ (e2 - e)) e
  | _, _ =>
      match x, y with
      | NaN, _ | _, NaN => NaN
      | PosInf, NegInf | NegInf, PosInf => NaN
      | PosInf, _ | _, PosInf => PosInf
      | _, _ => NegInf
      end
  end.

Definition num_neg (x : num) : num :=
  match x with
  | Fin p => Fin (- p)
  | Frac m e => Frac (- m) e
  | NaN => NaN
  | PosInf => NegInf
  | NegInf => PosInf
  end.

(** [x * y] *)
Definition num_mul (x y : num) : num :=
  match dyadic x, dyadic y with
  | Some (m1, e1), Some (m2, e2) => round64 (m1 * m2) (e1 + e2)
  | Some (m, _), None =>
      match y with
      | NaN => NaN
      | _ => if m =? 0 then NaN else if 0 <? m then y else num_neg y
      end
  | None, Some (m, _) =>
      match x with
      | NaN => NaN
      | _ => if m =? 0 then NaN else if 0 <? m then x else num_neg x
      end
  | None, None =>
      match x, y with
      | NaN, _ | _, NaN => NaN
      | PosInf, PosInf | NegInf, NegInf => PosInf
      | _, _ => NegInf
      end
  end.

(** The binary64 value nearest to [(p / q) * 2^d] for integers [p] and [q]
    other than zero, ties to even: the exponent [e] is the one that leaves
    a significand of 53 bits, and never less than that of the subnormal
    numbers. *)
Definition round_ratio (p q d : Z) : num :=
  let a := Z.abs p in
  let b := Z.abs q in
  let e0 := Z.log2 a - Z.log2 b - 53 in
  let numer := fun e => if e <=? 0 then a * 2 ^ (- e) else a in
  let denom := fun e => if e <=? 0 then b else b * 2 ^ e in
  let e := if 2 ^ 53 * denom e0 <=? numer e0 then e0 + 1 else e0 in
  let e := Z.max e (-1074 - d) in
  signed (Z.sgn p * Z.sgn q) (nearest_even (numer e) (denom e)) (e + d).

(** [x / y] *)
Definition num_div (x y : num) : num :=
  match dyadic x, dyadic y with
  | Some (m1, e1), Some (m2, e2) =>
      if m2 =? 0
      then (if m1 =? 0 then NaN else if 0 <? m1 then PosInf else NegInf)
      else if m1 =? 0 then Fin 0
      else round_ratio m1 m2 (e1 - e2)
  | Some _, None => match y with NaN => NaN | _ => Fin 0 end
  | None, Some (m, _) =>
      match x with
      | NaN => NaN
      | _ => if 0 <=? m then x else num_neg x
      end
  | None, None => NaN
  end.

(** [Math.floor] *)
Definition Math_floor (x : num) : num :=
  match x with
  | Frac m e => Fin (m / 2 ^ (- e))
  | _ => x
  end.

(** [Math.round]: the nearest integer, a tie going up. *)
Definition Math_round (x : num) : num :=
  match x with
  | Frac m e => Fin ((2 * m + 2 ^ (- e)) / 2 ^ (1 - e))
  | _ => x
  end.

(** The conversion a [Uint8ClampedArray] applies to a stored number: clamped
    to 0..255 and rounded to the nearest integer, ties to even. *)
Definition ToUint8Clamp (x : num) : Z :=
  match x with
  | Fin z => Z.max 0 (Z.min 255 z)
  | Frac m e => Z.max 0 (Z.min 255 (nearest_even m (2 ^ (- e))))
  | NaN => 0
  | PosInf => 255
  | NegInf => 0
  end.

(** ** base.js *)

Record Pixel : Type := mkPixel { r : num; g : num; b : num; a : num }.

(** [new imgproc.Pixel(...)], by the number of arguments. *)
Definition new_Pixel (arguments : list num) : Pixel :=
  match arguments with
  | [] => mkPixel (Fin 0) (Fin 0) (Fin 0) (Fin 255)
  | [n] => mkPixel n n n (Fin 255)
  | [n; alpha] => mkPixel n n n alpha
  | [red; green; blue] => mkPixel red green blue (Fin 255)
  | red :: green :: blue :: alpha :: _ => mkPixel red green blue alpha
  end.

Record ImageData : Type :=
  mkImageData { width : Z; height : Z; data : list Z }.

Definition getPixelLocation (imgData : ImageData) (x y : Z) : Z :=
  (y * width imgData + x) * 4.

(** [d[i]] on a typed array: the byte, or [undefined] out of range. *)
Definition typed_get (d : list Z) (i : Z) : num :=
  if i <? 0 then NaN
  else match d !! Z.to_nat i with
       | Some v => Fin v
       | None => NaN
       end.

(** [d[i] = v] on a [Uint8ClampedArray]: ignored out of range. *)
Definition typed_set (d : list Z) (i : Z) (v : num) : list Z :=
  if i <? 0 then d else <[Z.to_nat i := ToUint8Clamp v]> d.

Definition getPixel (imgData : ImageData) (x y : Z) : Pixel :=
  let pl := getPixelLocation imgData x y in
  new_Pixel [ typed_get (data imgData) pl;
              typed_get (data imgData) (pl + 1);
              typed_get (data imgData) (pl + 2);
              typed_get (data imgData) (pl + 3) ].

(** ** The engine's data *)

(** A kernel cell: a bare number or a Pixel of per-channel weights. *)
Inductive cell : Type :=
| CNum (n : num)
| CPix (p : Pixel).

Definition grid : Type := list (list cell).

Record Area : Type := mkArea {
  left : Z;
  top : Z;
  right : Z;
  bottom : Z;
  center : Z * Z;
  pixels : list (list Pixel)
}.

(** [kernel_source]: the caller's array (its contents live in the store,
    field [kernel_array], because the engine writes into it) or a function
    of the area, taken to return a fresh grid that depends on the area
    only. *)
Inductive kernel_source : Type :=
| KArray
| KFunction (f : Area -> grid).

(** [source], by what [source.constructor] is: one of the two accepted
    constructors, another function (of which the message reads the name),
    or nothing that has a [name]: [null] and [undefined] have no property
    to read, and an object without a constructor, as [Object.create(null)]
    makes, has [undefined] there. *)
Inductive image_source : Type :=
| SrcCanvas
| SrcImageData (d : ImageData)
| SrcOther (constructor_name : string)
| SrcNoConstructor.

Inductive revision : Type := part_000 | convolution_js.

(** ** State and exceptions *)

Inductive exn : Type :=
| ThrowString (msg : string)
| ReferenceError
| IndexSizeError
| TypeError.

(** What [console.log(i, j, apixel, kpixel)] prints. *)
Definition log_entry : Type := (Z * Z * option Pixel * option cell)%type.

(** Everything outside the call that the engine reads or writes. *)
Record store : Type := mkStore {
  CONV_IMG_DATA : option ImageData;      (* wnd.CONV_IMG_DATA *)
  kernel_size : Z;                       (* imgproc.defaults.kernel_size *)
  kernel_array : grid;                   (* the caller's kernel array *)
  console : list log_entry
}.

Inductive outcome (A : Type) : Type :=
| Return (v : A)
| Throw (e : exn).
Arguments Return {A} v.
Arguments Throw {A} e.

(** A computation: it ends with a value or an exception, and the writes it
    made to the store stay in both cases. *)
Definition M (A : Type) : Type := store -> outcome A * store.

Definition ret {A} (v : A) : M A := fun s => (Return v, s).
Definition throw {A} (e : exn) : M A := fun s => (Throw e, s).
Definition bind {A B} (c : M A) (k : A -> M B) : M B :=
  fun s => match c s with
           | (Return v, s') => k v s'
           | (Throw e, s') => (Throw e, s')
           end.
Definition get_store : M store := fun s => (Return s, s).
Definition put_store (s' : store) : M unit := fun _ => (Return tt, s').

Notation "'let!' x ':=' c 'in' k" := (bind c (fun x => k))
  (at level 10, x name, c at level 100, k at level 200).
Notation "'do!' c 'in' k" := (bind c (fun _ => k))
  (at level 10, c at level 100, k at level 200).

(** [for (var i = start; <n more iterations>; i++) acc = body(i, acc)] *)
Fixpoint for_ {A} (n : nat) (start : Z) (body : Z -> A -> M A) (acc : A) : M A :=
  match n with
  | O => ret acc
  | S n' => let! acc' := body start acc in for_ n' (start + 1) body acc'
  end.

(** The module's top level: [imgproc.defaults.kernel_size = 5]. *)
Definition load_module (s : store) : store :=
  mkStore (CONV_IMG_DATA s) 5 (kernel_array s) (console s).

(** ** imgproc.convolution *)

(** [lo, lo+1, ..., hi] *)
Definition zrange (lo hi : Z) : list Z :=
  map (fun k => lo + Z.of_nat k) (seq 0 (Z.to_nat (hi - lo + 1))).

(** The area around [(x, y)]: its box, clipped at the image edges, and the
    pixels of the clipped box. *)
Definition mk_area (imgData : ImageData) (half_size x y : Z) : Area :=
  let left := x - half_size in
  let top := y - half_size in
  let right := x + half_size in
  let bottom := y + half_size in
  let left := if left <? 0 then 0 else left in
  let top := if top <? 0 then 0 else top in
  let right := if right >=? width imgData then width imgData - 1 else right in
  let bottom := if bottom >=? height imgData then height imgData - 1 else bottom in
  mkArea left top right bottom (x, y)
    (map (fun ay => map (fun ax => getPixel imgData ax ay) (zrange left right))
         (zrange top bottom)).

(** [size || (kernel_source.constructor === Array ? kernel_source.length
                                                 : imgproc.defaults.kernel_size)]
    in part_000, [size || imgproc.defaults.kernel_size] in convolution.js;
    [None] is an omitted argument. *)
Definition truthy (n : Z) : bool := negb (n =? 0).

Definition default_size (rev : revision) (s : store)
    (kernel_source : kernel_source) : Z :=
  match rev, kernel_source with
  | part_000, KArray => Z.of_nat (length (kernel_array s))
  | _, _ => kernel_size s
  end.

Definition choose_size (rev : revision) (s : store)
    (kernel_source : kernel_source) (size : option Z) : Z :=
  match size with
  | Some n => if truthy n then n else default_size rev s kernel_source
  | None => default_size rev s kernel_source
  end.

(** [new imgproc.Pixel(kernel[i][j])]; a cell that is already an object
    ends up in all three colour channels. *)
Definition promote_cell (c : cell) : cell :=
  match c with
  | CNum n => CPix (new_Pixel [n])
  | CPix _ => CPix (new_Pixel [NaN])
  end.

(** [kernel[0][0].constructor === Number] *)
Definition first_cell_is_Number (kernel : grid) : outcome bool :=
  match kernel with
  | [] => Throw TypeError
  | row :: _ =>
      match row with
      | [] => Throw TypeError
      | CNum _ :: _ => Return true
      | CPix _ :: _ => Return false
      end
  end.

(** "figure out the kernel if it needs figuring" *)
Definition resolve_kernel (rev : revision) (kernel_source : kernel_source)
    (area : Area) : M grid :=
  let! kernel := match kernel_source with
                 | KFunction f => ret (f area)
                 | KArray => let! s := get_store in ret (kernel_array s)
                 end in
  match rev with
  | convolution_js => ret kernel
  | part_000 =>
      match first_cell_is_Number kernel with
      | Throw e => throw e
      | Return false => ret kernel
      | Return true =>
          let kernel' := map (map promote_cell) kernel in
          match kernel_source with
          | KFunction _ => ret kernel'
          | KArray =>
              let! s := get_store in
              do! put_store (mkStore (CONV_IMG_DATA s) (kernel_size s) kernel' (console s)) in
              ret kernel'
          end
      end
  end.

(** [kpixel.r], [kpixel.g], [kpixel.b]: a bare number has no such
    property. *)
Definition weight (ch : Pixel -> num) (kpixel : cell) : num :=
  match kpixel with
  | CNum _ => NaN
  | CPix p => ch p
  end.

(** [grid[j][i]] as an expression: a missing row is a TypeError, a missing
    cell is [undefined]. *)
Definition index2 {A} (rows : list (list A)) (j i : Z) : outcome (option A) :=
  match rows !! Z.to_nat j with
  | None => Throw TypeError
  | Some row => Return (row !! Z.to_nat i)
  end.

Definition console_log (e : log_entry) : M unit :=
  fun s => (Return tt,
            mkStore (CONV_IMG_DATA s) (kernel_size s) (kernel_array s)
                    (console s ++ [e])).

(** The six updates inside the try block. *)
Definition add_weighted (sums : Pixel * Pixel) (apixel : Pixel) (kpixel : cell)
  : Pixel * Pixel :=
  let '(area_sum, kernel_sum) := sums in
  (mkPixel (num_add (r area_sum) (num_mul (r apixel) (weight r kpixel)))
           (num_add (g area_sum) (num_mul (g apixel) (weight g kpixel)))
           (num_add (b area_sum) (num_mul (b apixel) (weight b kpixel)))
           (a area_sum),
   mkPixel (num_add (r kernel_sum) (weight r kpixel))
           (num_add (g kernel_sum) (weight g kpixel))
           (num_add (b kernel_sum) (weight b kpixel))
           (a kernel_sum)).

(** The body of the inner accumulation loop: reading a property of an
    [undefined] pixel or cell is a TypeError, which part_000 logs and
    throws again. *)
Definition accumulate_cell (rev : revision) (area : Area) (kernel : grid)
    (j i : Z) (sums : Pixel * Pixel) : M (Pixel * Pixel) :=
  match index2 (pixels area) j i, index2 kernel j i with
  | Throw e, _ | Return _, Throw e => throw e
  | Return (Some apixel), Return (Some kpixel) =>
      ret (add_weighted sums apixel kpixel)
  | Return apixel, Return kpixel =>
      match rev with
      | part_000 => do! console_log (i, j, apixel, kpixel) in throw TypeError
      | convolution_js => throw TypeError
      end
  end.

Definition accumulate (rev : revision) (area : Area) (kernel : grid)
  : M (Pixel * Pixel) :=
  for_ (length (pixels area)) 0
    (fun j sums =>
       for_ (length (nth 0%nat (pixels area) [])) 0
         (fun i sums => accumulate_cell rev area kernel j i sums) sums)
    (new_Pixel [], new_Pixel []).

(** What is assigned to [resultData.data[pixloc + k]], k = 0, 1, 2. *)
Definition stored_channel (rev : revision) (v : num) : num :=
  match rev with
  | part_000 => v
  | convolution_js => Math_round v
  end.

(** One turn of the pixel loop. *)
Definition convolve_pixel (rev : revision) (imgData : ImageData)
    (kernel_source : kernel_source) (half_size : Z) (x y : Z)
    (resultData_data : list Z) : M (list Z) :=
  let area := mk_area imgData half_size x y in
  let! kernel := resolve_kernel rev kernel_source area in
  let! sums := accumulate rev area kernel in
  let '(area_sum, kernel_sum) := sums in
  let area_avg := new_Pixel [ Math_floor (num_div (r area_sum) (r kernel_sum));
                              Math_floor (num_div (g area_sum) (g kernel_sum));
                              Math_floor (num_div (b area_sum) (b kernel_sum)) ] in
  let pixloc := getPixelLocation imgData x y in
  let d := typed_set resultData_data pixloc (stored_channel rev (r area_avg)) in
  let d := typed_set d (pixloc + 1) (stored_channel rev (g area_avg)) in
  let d := typed_set d (pixloc + 2) (stored_channel rev (b area_avg)) in
  let d := typed_set d (pixloc + 3) (Fin 255) in
  ret d.

(** [new ImageData(w, h)]: zero-filled; a zero dimension is refused. *)
Definition new_ImageData (w h : Z) : M ImageData :=
  if (w <=? 0) || (h <=? 0) then throw IndexSizeError
  else ret (mkImageData w h (repeat 0 (Z.to_nat (w * h * 4)))).

Definition invalid_source_message (constructor_name : string) : string :=
  ("Convolution Error: image source must be either a CanvasRenderingContext2D or an ImageData; received "
     ++ constructor_name)%string.

Definition convolution (rev : revision) (source : image_source)
    (kernel_source : kernel_source) (size : option Z) : M ImageData :=
  let! imgData := match source with
             | SrcCanvas => throw ReferenceError   (* [ctx.getImageData()]: no [ctx] in scope *)
             | SrcImageData d => ret d
             | SrcOther name => throw (ThrowString (invalid_source_message name))
             | SrcNoConstructor => throw TypeError   (* [source.constructor.name] *)
             end in
  let! s := get_store in
  do! put_store (mkStore (Some imgData) (kernel_size s) (kernel_array s) (console s)) in
  let! resultData := new_ImageData (width imgData) (height imgData) in
  let! s := get_store in
  let size := choose_size rev s kernel_source size in
  let half_size := size / 2 in
  let! d := for_ (Z.to_nat (height imgData)) 0
         (fun y d =>
            for_ (Z.to_nat (width imgData)) 0
              (fun x d => convolve_pixel rev imgData kernel_source half_size x y d) d)
         (data resultData) in
  ret (mkImageData (width resultData) (height resultData) d).

(** ** Pure counterparts used in the statements

    None of these is part of the engine: they name what its loops compute,
    and the lemmas below prove that they do. *)

(** A loop whose body cannot fail and leaves the store alone. *)
Fixpoint fold_for {A} (n : nat) (start : Z) (f : Z -> A -> A) (acc : A) : A :=
  match n with
  | O => acc
  | S n' => fold_for n' (start + 1) f (f start acc)
  end.

Fixpoint all_for (n : nat) (start : Z) (p : Z -> bool) : bool :=
  match n with
  | O => true
  | S n' => p start && all_for n' (start + 1) p
  end.

Definition lookup2 {A} (rows : list (list A)) (j i : Z) : option A :=
  match rows !! Z.to_nat j with
  | None => None
  | Some row => row !! Z.to_nat i
  end.

(** The number of columns the accumulation loop walks: [area.pixels[0].length]. *)
Definition columns (pixels : list (list Pixel)) : nat :=
  length (nth 0%nat pixels []).

(** Every position the accumulation loop visits holds a pixel and a cell. *)
Definition covers (pixels : list (list Pixel)) (kernel : grid) : bool :=
  all_for (length pixels) 0
    (fun j => all_for (columns pixels) 0
       (fun i => match lookup2 pixels j i, lookup2 kernel j i with
                 | Some _, Some _ => true
                 | _, _ => false
                 end)).

(** The two accumulators after the loop, when it runs to its end. *)
Definition sums_of (pixels : list (list Pixel)) (kernel : grid) : Pixel * Pixel :=
  fold_for (length pixels) 0
    (fun j => fold_for (columns pixels) 0
       (fun i sums => match lookup2 pixels j i, lookup2 kernel j i with
                      | Some apixel, Some kpixel => add_weighted sums apixel kpixel
                      | _, _ => sums
                      end))
    (new_Pixel [], new_Pixel []).

(** The kernel after the promotion step of the revision. *)
Definition normalize (rev : revision) (kernel : grid) : grid :=
  match rev with
  | convolution_js => kernel
  | part_000 =>
      match first_cell_is_Number kernel with
      | Return true => map (map promote_cell) kernel
      | _ => kernel
      end
  end.

(** Whether the test on [kernel[0][0]] can be evaluated. *)
Definition first_cell_ok (rev : revision) (kernel : grid) : bool :=
  match rev with
  | convolution_js => true
  | part_000 =>
      match first_cell_is_Number kernel with
      | Return _ => true
      | Throw _ => false
      end
  end.

(** The grid [kernel_source] denotes at an area, before promotion, when the
    caller's array holds [K]. *)
Definition raw_kernel (kernel_source : kernel_source) (K : grid) (area : Area) : grid :=
  match kernel_source with
  | KArray => K
  | KFunction f => f area
  end.

(** The caller's array after one turn of the pixel loop. *)
Definition kernel_after (rev : revision) (kernel_source : kernel_source) (K : grid) : grid :=
  match kernel_source with
  | KArray => normalize rev K
  | KFunction _ => K
  end.

(** The turn of the pixel loop at [(x, y)] runs to its end. *)
Definition pixel_ok (rev : revision) (imgData : ImageData)
    (kernel_source : kernel_source) (K : grid) (half_size x y : Z) : bool :=
  let area := mk_area imgData half_size x y in
  let raw := raw_kernel kernel_source K area in
  first_cell_ok rev raw && covers (pixels area) (normalize rev raw).

(** The kernel the turn at [(x, y)] accumulates with, and the two
    accumulators at the end of its accumulation loop. *)
Definition kernel_at (rev : revision) (imgData : ImageData)
    (kernel_source : kernel_source) (K : grid) (half_size x y : Z) : grid :=
  normalize rev (raw_kernel kernel_source K (mk_area imgData half_size x y)).

Definition sums_at (rev : revision) (imgData : ImageData)
    (kernel_source : kernel_source) (K : grid) (half_size x y : Z) : Pixel * Pixel :=
  sums_of (pixels (mk_area imgData half_size x y))
          (kernel_at rev imgData kernel_source K half_size x y).

(** The numbers assigned to the four bytes of the output pixel at [(x, y)]. *)
Definition out_pixel (rev : revision) (imgData : ImageData)
    (kernel_source : kernel_source) (K : grid) (half_size x y : Z) : Pixel :=
  let '(area_sum, kernel_sum) := sums_at rev imgData kernel_source K half_size x y in
  mkPixel (stored_channel rev (Math_floor (num_div (r area_sum) (r kernel_sum))))
          (stored_channel rev (Math_floor (num_div (g area_sum) (g kernel_sum))))
          (stored_channel rev (Math_floor (num_div (b area_sum) (b kernel_sum))))
          (Fin 255).

(** Every turn of the pixel loop runs to its end. *)
Definition kernel_fits (rev : revision) (imgData : ImageData)
    (kernel_source : kernel_source) (K : grid) (half_size : Z) : bool :=
  all_for (Z.to_nat (height imgData)) 0
    (fun y => all_for (Z.to_nat (width imgData)) 0
       (fun x => pixel_ok rev imgData kernel_source K half_size x y)).

(** The colour channels, with the place of each in a pixel's four bytes. *)
Inductive channel : Type := Red | Green | Blue.

Definition chan (c : channel) : Pixel -> num :=
  match c with Red => r | Green => g | Blue => b end.

Definition offset (c : channel) : Z :=
  match c with Red => 0 | Green => 1 | Blue => 2 end.

Definition write_pixel (d : list Z) (pixloc : Z) (p : Pixel) : list Z :=
  typed_set (typed_set (typed_set (typed_set d pixloc (r p)) (pixloc + 1) (g p))
                       (pixloc + 2) (b p)) (pixloc + 3) (a p).

Definition set_kernel_array (s : store) (K : grid) : store :=
  mkStore (CONV_IMG_DATA s) (kernel_size s) K (console s).

(** [s'] differs from [s] in the console at most, which has only grown. *)
Definition logged (s s' : store) : Prop :=
  CONV_IMG_DATA s' = CONV_IMG_DATA s /\ kernel_size s' = kernel_size s /\
  kernel_array s' = kernel_array s /\ exists l, console s' = console s ++ l.

(** A valid ImageData: positive dimensions, four bytes per pixel. *)
Definition valid_ImageData (d : ImageData) : Prop :=
  0 < width d /\ 0 < height d /\
  length (data d) = Z.to_nat (width d * height d * 4) /\
  Forall (fun v => 0 <= v <= 255) (data d).

(** The four bytes at [pixloc] are what storing [p] there leaves. *)
Definition pixel_at (d : list Z) (pixloc : Z) (p : Pixel) : Prop :=
  typed_get d pixloc = Fin (ToUint8Clamp (r p)) /\
  typed_get d (pixloc + 1) = Fin (ToUint8Clamp (g p)) /\
  typed_get d (pixloc + 2) = Fin (ToUint8Clamp (b p)) /\
  typed_get d (pixloc + 3) = Fin (ToUint8Clamp (a p)).

(** The store a call on [imgData] leaves when it started in [s]: the
    image in [wnd.CONV_IMG_DATA], the caller's array after the promotion. *)
Definition store_after (rev : revision) (imgData : ImageData)
    (kernel_source : kernel_source) (s : store) : store :=
  mkStore (Some imgData) (kernel_size s)
          (kernel_after rev kernel_source (kernel_array s)) (console s).

Definition in_image (imgData : ImageData) (x y : Z) : Prop :=
  0 <= x < width imgData /\ 0 <= y < height imgData.

(** The pixel loop, seen at the moment [n] pixels (in row-major order) are
    done: the buffer [d] holds them, and the caller's array is the promoted
    one as soon as one turn has run.  The loop started with the image in
    [c0], the default size [ksz], the caller's array [K0], the console
    [con]. *)
Definition done_before (rev : revision) (imgData : ImageData) (ks : kernel_source)
    (K0 : grid) (h : Z) (n : Z) (d : list Z) : Prop :=
  forall x y, 0 <= x < width imgData -> 0 <= y -> y * width imgData + x < n ->
    pixel_ok rev imgData ks K0 h x y = true /\
    pixel_at d (getPixelLocation imgData x y) (out_pixel rev imgData ks K0 h x y).

Definition loop_inv (rev : revision) (imgData : ImageData) (ks : kernel_source)
    (c0 : option ImageData) (ksz : Z) (K0 : grid) (con : list log_entry)
    (h : Z) (n : Z) (d : list Z) (s : store) : Prop :=
  length d = Z.to_nat (width imgData * height imgData * 4) /\
  (s = mkStore c0 ksz K0 con /\ n = 0 \/
   s = mkStore c0 ksz (kernel_after rev ks K0) con) /\
  done_before rev imgData ks K0 h n d.

Definition loop_exc (rev : revision) (imgData : ImageData) (ks : kernel_source)
    (c0 : option ImageData) (ksz : Z) (K0 : grid) (con : list log_entry)
    (h : Z) (e : exn) (s' : store) : Prop :=
  e = TypeError /\
  logged (mkStore c0 ksz (kernel_after rev ks K0) con) s' /\
  exists x y, in_image imgData x y /\ pixel_ok rev imgData ks K0 h x y = false.

(** ** The sums in the words of the design

    [area_sum.c] is the sum, over the positions of the neighbourhood, of the
    pixel's channel times the cell's weight for that channel; [kernel_sum.c]
    is the sum of those weights.  The positions are taken in the order of
    the loop, each pixel paired with the kernel cell at the same place. *)
Fixpoint zfrom (n : nat) (start : Z) : list Z :=
  match n with
  | O => []
  | S n' => start :: zfrom n' (start + 1)
  end.

Definition visited (pixels : list (list Pixel)) (kernel : grid) : list (Pixel * cell) :=
  flat_map (fun j =>
    flat_map (fun i => match lookup2 pixels j i, lookup2 kernel j i with
                       | Some apixel, Some kpixel => [(apixel, kpixel)]
                       | _, _ => []
                       end)
             (zfrom (columns pixels) 0))
    (zfrom (length pixels) 0).

Definition num_sum (l : list num) : num := fold_left num_add l (Fin 0).

Definition weighted_sum (c : channel) (cells : list (Pixel * cell)) : num :=
  num_sum (map (fun pk => num_mul (chan c (fst pk)) (weight (chan c) (snd pk))) cells).

Definition weight_sum (c : channel) (cells : list (Pixel * cell)) : num :=
  num_sum (map (fun pk => weight (chan c) (snd pk)) cells).

(** The pixels and weights of the turn at [(x, y)]. *)
Definition neighbourhood (rev : revision) (imgData : ImageData)
    (kernel_source : kernel_source) (K : grid) (half_size x y : Z)
  : list (Pixel * cell) :=
  visited (pixels (mk_area imgData half_size x y))
          (kernel_at rev imgData kernel_source K half_size x y).

(** The floor of a channel's normalized weighted sum. *)
Definition floored_average (c : channel) (cells : list (Pixel * cell)) : num :=
  Math_floor (num_div (weighted_sum c cells) (weight_sum c cells)).

(** ** The mean over the in-bounds window *)

(** The pixels of the image at Chebyshev distance at most [h] from
    [(x, y)], row by row: the part of the (2h+1) x (2h+1) window that lies
    inside the image. *)
Definition window (imgData : ImageData) (h x y : Z) : list Pixel :=
  flat_map (fun ay =>
    flat_map (fun ax =>
      if (Z.abs (ax - x) <=? h) && (Z.abs (ay - y) <=? h)
      then [getPixel imgData ax ay] else [])
      (zfrom (Z.to_nat (width imgData)) 0))
    (zfrom (Z.to_nat (height imgData)) 0).

Definition byte_value (n : num) : Z :=
  match n with Fin z => z | _ => 0 end.

Definition zsum (l : list Z) : Z := fold_right Z.add 0 l.

(** The floored arithmetic mean of a channel over a list of pixels. *)
Definition channel_mean (c : channel) (ps : list Pixel) : Z :=
  zsum (map (fun p => byte_value (chan c p)) ps) / Z.of_nat (length ps).

(** Every weight applied for channel [c] is the integer [w]. *)
Definition uniform_weight (c : channel) (w : Z) (cells : list (Pixel * cell)) : bool :=
  forallb (fun pk => match weight (chan c) (snd pk) with
                     | Fin z => z =? w
                     | _ => false
                     end) cells.

(** ** The sums in Z

    What the two accumulators hold when nothing rounds: for a channel, the
    integer value of a visited pixel and of the weight applied to it, the
    weighted sum, the sum of the weights, and the sum of their magnitudes,
    by which the statements bound the accumulation. *)

Definition channel_value (c : channel) (pk : Pixel * cell) : Z :=
  byte_value (chan c (fst pk)).

Definition weight_value (c : channel) (pk : Pixel * cell) : Z :=
  byte_value (weight (chan c) (snd pk)).

Definition exact_weighted_sum (c : channel) (cells : list (Pixel * cell)) : Z :=
  zsum (map (fun pk => channel_value c pk * weight_value c pk) cells).

Definition exact_weight_sum (c : channel) (cells : list (Pixel * cell)) : Z :=
  zsum (map (weight_value c) cells).

Definition weight_mass (c : channel) (cells : list (Pixel * cell)) : Z :=
  zsum (map (fun pk => Z.abs (weight_value c pk)) cells).

(** [x > 0] *)
Definition positive (x : num) : bool :=
  match x with
  | Fin z => 0 <? z
  | Frac m _ => 0 <? m
  | PosInf => true
  | _ => false
  end.

(** Every weight applied for channel [c] is an integer. *)
Definition finite_weight (c : channel) (cells : list (Pixel * cell)) : bool :=
  forallb (fun pk => match weight (chan c) (snd pk) with
                     | Fin _ => true
                     | _ => false
                     end) cells.

(** A 2x2 image of tens, and a kernel whose weights cancel in Z but not
    in the order the engine adds them: 2^53 - 1, 2, -(2^53 - 1), -2. *)
Definition flat_image : ImageData :=
  mkImageData 2 2 [10; 10; 10; 255;  10; 10; 10; 255;
                   10; 10; 10; 255;  10; 10; 10; 255].

Definition cancelling_kernel : grid :=
  [[CNum (Fin (2 ^ 53 - 1)); CNum (Fin 2)];
   [CNum (Fin (- (2 ^ 53 - 1))); CNum (Fin (-2))]].

(** The scenario's kernel with the binary64 number nearest to 1/9 in every
    cell, and with a weight near 2^53 / 3 in every cell. *)
Definition ninth : num := Frac 2001599834386887 (-54).

Definition ninth_kernel : grid := repeat (repeat (CNum ninth) 3) 3.


Definition heavy_weight : Z := 3002399751580331.

Definition heavy_kernel : grid := repeat (repeat (CNum (Fin heavy_weight)) 3) 3.

(** ** Bare-number kernels and their explicit counterparts *)

(** The cell [n] written out as the Pixel weight (n, n, n, 255). *)
Definition explicit_cell (c : cell) : cell :=
  match c with
  | CNum n => CPix (mkPixel n n n (Fin 255))
  | CPix p => CPix p
  end.

Definition explicit (kernel : grid) : grid := map (map explicit_cell) kernel.

Definition is_bare (c : cell) : bool :=
  match c with CNum _ => true | CPix _ => false end.

Definition all_bare (kernel : grid) : bool := forallb (forallb is_bare) kernel.

Definition explicit_source (ks : kernel_source) : kernel_source :=
  match ks with
  | KArray => KArray
  | KFunction f => KFunction (fun area => explicit (f area))
  end.

(** ** Sample inputs

    The 3x3 image of the concrete scenario (red channels 10..90 in
    row-major order), a 3x3 kernel of bare ones, and a store in which the
    caller's array is that kernel. *)
Definition sample_image : ImageData :=
  mkImageData 3 3
    [10; 0; 0; 255;  20; 0; 0; 255;  30; 0; 0; 255;
     40; 0; 0; 255;  50; 0; 0; 255;  60; 0; 0; 255;
     70; 0; 0; 255;  80; 0; 0; 255;  90; 0; 0; 255].

Definition ones_kernel : grid := repeat (repeat (CNum (Fin 1)) 3) 3.

Definition sample_store : store := mkStore None 5 ones_kernel [].

(** The red channel of every pixel, in row-major order. *)
Definition red_channels (imgData : ImageData) : list num :=
  map (fun n => typed_get (data imgData) (4 * n))
      (zrange 0 (width imgData * height imgData - 1)).

(** A 2x1 image, bright then dark, with a kernel row of weights 2 and -1;
    and a 1x1 image with a kernel whose only weight is zero. *)
Definition edge_image : ImageData :=
  mkImageData 2 1 [255; 255; 255; 255;  0; 0; 0; 255].

Definition edge_kernel : grid := [[CNum (Fin 2); CNum (Fin (-1))]].

Definition dot_image : ImageData := mkImageData 1 1 [7; 7; 7; 255].

Definition zero_kernel : grid := [[CNum (Fin 0)]].

(** ** base.js: the statistics helpers *)

(** [nums.reduce(function(sum, n){ return sum+n; })]: without an initial
    value, the fold starts from the first element, and an empty array is a
    TypeError. *)
Definition reduce_sum (nums : list num) : outcome num :=
  match nums with
  | [] => Throw TypeError
  | n0 :: rest => Return (fold_left num_add rest n0)
  end.

(** [imgproc.average], also [imgproc.mean]: the sum as [reduce] rounds it
    step by step, divided by the length. *)
Definition average (nums : list num) : outcome num :=
  match reduce_sum nums with
  | Throw e => Throw e
  | Return total => Return (num_div total (Fin (Z.of_nat (length nums))))
  end.

(** ** Shapes of kernels *)

(** A grid of [R] rows of [C] cells each. *)
Definition rectangular (R C : nat) (kernel : grid) : Prop :=
  length kernel = R /\ Forall (fun row => length row = C) kernel.

(** The number of indices among 0..n-1 at distance at most [h] from [c]. *)
Definition span (n h c : Z) : Z := Z.min (n - 1) (c + h) - Z.max 0 (c - h) + 1.

(** The sample image with other alphas and another pixel at (2,2). *)
Definition sample_image_far : ImageData :=
  mkImageData 3 3
    [10; 0; 0; 0;  20; 0; 0; 9;  30; 0; 0; 255;
     40; 0; 0; 7;  50; 0; 0; 1;  60; 0; 0; 255;
     70; 0; 0; 255;  80; 0; 0; 255;  200; 100; 50; 255].

(** ** Scaled kernels *)

(** Every weight of the kernel multiplied by the integer [k]. *)
Definition scale_cell (k : Z) (c : cell) : cell :=
  match c with
  | CNum n => CNum (num_mul (Fin k) n)
  | CPix p => CPix (mkPixel (num_mul (Fin k) (r p)) (num_mul (Fin k) (g p))
                            (num_mul (Fin k) (b p)) (a p))
  end.

Definition scale (k : Z) (kernel : grid) : grid := map (map (scale_cell k)) kernel.

Definition scale_source (k : Z) (ks : kernel_source) : kernel_source :=
  match ks with
  | KArray => KArray
  | KFunction f => KFunction (fun area => scale k (f area))
  end.

(** The console [con'] after a call that found it as [con]: nothing is
    printed, or, in part_000 only, one line. *)
Definition logs_at_most_one (rev : revision) (con con' : list log_entry) : Prop :=
  con' = con \/ (rev = part_000 /\ exists e, con' = con ++ [e]).

(** Every weight applied for channel [c] is a non-negative integer. *)
Definition nonneg_weight (c : channel) (cells : list (Pixel * cell)) : bool :=
  forallb (fun pk => match weight (chan c) (snd pk) with
                     | Fin w => 0 <=? w
                     | _ => false
                     end) cells.

(** ** Arithmetic below 2^53

    Sums, products and floored quotients of integers below 2^53 in
    magnitude are what they are in Z. *)

Lemma reduce_spec : forall fuel m e m' e',
  reduce fuel m e = (m', e') ->
  e <= e' <= e + Z.of_nat fuel /\ m = m' * 2 ^ (e' - e).
Proof.
  induction fuel as [|fuel IH]; intros m e m' e' E; cbn [reduce] in E.
  - injection E as <- <-. rewrite Z.sub_diag. split; lia.
  - destruct (Z.even m) eqn:Heven.
    + apply IH in E as [He Hm]. split; [lia|].
      apply Z.even_spec in Heven as [k ->].
      rewrite (Z.mul_comm 2 k), Z.div_mul in Hm by lia. subst k.
      replace (e' - e) with (Z.succ (e' - (e + 1))) by lia.
      rewrite Z.pow_succ_r by lia. ring.
    + injection E as <- <-. rewrite Z.sub_diag. split; lia.
Qed.

Lemma reduce_pow : forall fuel v e,
  reduce fuel (v * 2 ^ Z.of_nat fuel) e = (v, e + Z.of_nat fuel).
Proof.
  induction fuel as [|fuel IH]; intros v e.
  - cbn. f_equal; lia.
  - cbn [reduce]. rewrite Nat2Z.inj_succ, Z.pow_succ_r by lia.
    replace (v * (2 * 2 ^ Z.of_nat fuel)) with (v * 2 ^ Z.of_nat fuel * 2) by ring.
    rewrite Z.even_mul, Z.div_mul by lia. cbn [Z.even orb].
    rewrite orb_true_r, IH. f_equal. lia.
Qed.

(** [of_dyadic] of an integer is that integer. *)
Lemma of_dyadic_int v E : 0 <= E -> of_dyadic (v * 2 ^ E) (- E) = Fin v.
Proof.
  intros HE. unfold of_dyadic. destruct (Z.leb_spec 0 (- E)).
  - assert (E = 0) as -> by lia. cbn. f_equal. lia.
  - rewrite Z.opp_involutive.
    replace (v * 2 ^ E) with (v * 2 ^ Z.of_nat (Z.to_nat E))
      by (rewrite Z2Nat.id by lia; done).
    rewrite reduce_pow, Z2Nat.id by lia.
    replace (- E + E) with 0 by lia. reflexivity.
Qed.

(** The floor of [m * 2^e]. *)
Lemma Math_floor_of_dyadic m e :
  e <= 0 -> Math_floor (of_dyadic m e) = Fin (m / 2 ^ (- e)).
Proof.
  intros He. unfold of_dyadic. destruct (Z.leb_spec 0 e).
  - assert (e = 0) as -> by lia. cbn. f_equal. rewrite Z.div_1_r. lia.
  - destruct (reduce (Z.to_nat (- e)) m e) as [m' e'] eqn:E.
    apply reduce_spec in E as [He' ->]. rewrite Z2Nat.id in He' by lia.
    assert (2 ^ (- e) = 2 ^ (- e') * 2 ^ (e' - e)) as ->.
    { rewrite <- Z.pow_add_r by lia. f_equal. lia. }
    assert (0 < 2 ^ (e' - e)) by (apply Z.pow_pos_nonneg; lia).
    assert (0 < 2 ^ (- e')) by (apply Z.pow_pos_nonneg; lia).
    rewrite Z.div_mul_cancel_r by lia.
    destruct (Z.eqb_spec e' 0) as [-> | ?]; cbn [Math_floor]; [|done].
    cbn. by rewrite Z.div_1_r.
Qed.

Lemma signed_small s k e :
  e <= 0 -> (e = 0 -> k < 2 ^ 1024) -> signed s k e = of_dyadic (s * k) e.
Proof.
  intros He Hk. unfold signed, overflows.
  destruct (Z.leb_spec 0 e); [|done].
  assert (e = 0) as -> by lia. rewrite Z.pow_0_r, Z.mul_1_r.
  specialize (Hk eq_refl).
  by destruct (Z.leb_spec (2 ^ 1024) k); [lia|].
Qed.

(** Integers below 2^53 in magnitude are binary64 numbers. *)
Lemma round64_exact z : Z.abs z < 2 ^ 53 -> round64 z 0 = Fin z.
Proof.
  intros Hz. unfold round64.
  assert (Z.log2 (Z.abs z) < 53) as Hlog.
  { destruct (Z.eq_dec (Z.abs z) 0) as [-> | Hnz]; [done|].
    apply Z.log2_lt_pow2; lia. }
  destruct (Z.leb_spec (Z.max (Z.log2 (Z.abs z) + 0 - 52) (-1074)) 0) as [_|H]; [|lia].
  rewrite signed_small; [|lia|].
  - rewrite Z.mul_comm, Z.abs_sgn. unfold of_dyadic. cbn. f_equal. lia.
  - intros _. eapply Z.lt_trans; [exact Hz|]. by apply Z.pow_lt_mono_r.
Qed.

(** Rounding a quotient to the nearest integer. *)
Lemma nearest_spec n d :
  0 < d ->
  let k := n / d in
  let r := n mod d in
  n = d * k + r /\ 0 <= r < d /\
  ((nearest_even n d = k /\ 2 * r <= d) \/ (nearest_even n d = k + 1 /\ d <= 2 * r)).
Proof.
  intros Hd k r. split; [apply Z.div_mod; lia|].
  split; [apply Z.mod_pos_bound; lia|]. unfold nearest_even. fold k r.
  destruct (Z.ltb_spec d (2 * r)); simpl; [right; lia|].
  destruct (Z.eqb_spec (2 * r) d); simpl; [|left; lia].
  destruct (Z.odd k); [right|left]; lia.
Qed.

(** When the step [1 / K] is finer than [2 / b], rounding [a / b] to the
    nearest multiple of the step does not cross an integer. *)
Lemma floor_nearest a b K k r k' :
  0 < a -> 0 < b -> 0 < K -> b < 2 * K ->
  a * K = b * k + r -> 0 <= r < b ->
  (k' = k /\ 2 * r <= b) \/ (k' = k + 1 /\ b <= 2 * r) ->
  k' / K = a / b /\ (- k') / K = (- a) / b.
Proof.
  intros Ha Hb HK HbK Hk Hr Hk'.
  pose proof (Z.div_mod a b ltac:(lia)) as Ht.
  pose proof (Z.mod_pos_bound a b Hb) as Hrho.
  set (t := a / b) in *. set (rho := a mod b) in *.
  assert (b * (t * K - k) = r - rho * K) as Hdiff by nia.
  assert (t * K <= k) as Hlow by nia.
  assert (k < t * K + K) as Hup by nia.
  split.
  - symmetry. apply (Z.div_unique k' K t (k' - K * t)); [|lia]. left.
    destruct Hk' as [[-> _] | [-> Hr2]]; [nia|].
    split; [nia|].
    destruct (Z.eq_dec k (t * K + K - 1)) as [E|]; [|nia].
    exfalso. assert ((b - rho) * K = b - r) by nia.
    assert (K <= (b - rho) * K) by nia. lia.
  - destruct (Z.eq_dec rho 0) as [E0|Hn0].
    + assert (r = 0 /\ k = t * K) as [-> ->] by nia.
      assert (k' = t * K) as -> by lia.
      rewrite Ht, E0, Z.add_0_r.
      replace (- (t * K)) with ((- t) * K) by ring.
      replace (- (b * t)) with ((- t) * b) by ring.
      rewrite !Z.div_mul by lia. done.
    + transitivity (- t - 1).
      * symmetry. apply (Z.div_unique (- k') K (- t - 1) (- k' - K * (- t - 1))); [|lia].
        left. destruct Hk' as [[-> Hr2] | [-> Hr2]]; [|nia].
        split; [nia|].
        destruct (Z.eq_dec k (t * K)) as [E|]; [|nia].
        exfalso. assert (rho * K = r) by nia.
        assert (K <= rho * K) by nia. lia.
      * apply (Z.div_unique (- a) b (- t - 1) (b - rho)); lia.
Qed.

(** Below 2^53 the quotient of two integers keeps a negative or zero
    exponent [- E], fine enough for [floor_nearest]. *)
Lemma round_ratio_small p q :
  p <> 0 -> q <> 0 -> Z.abs p < 2 ^ 53 -> Z.abs q < 2 ^ 53 ->
  exists E k' k r,
    0 <= E /\ round_ratio p q 0 = of_dyadic (Z.sgn p * Z.sgn q * k') (- E) /\
    Z.abs q < 2 * 2 ^ E /\
    Z.abs p * 2 ^ E = Z.abs q * k + r /\ 0 <= r < Z.abs q /\
    ((k' = k /\ 2 * r <= Z.abs q) \/ (k' = k + 1 /\ Z.abs q <= 2 * r)).
Proof.
  intros Hp Hq Hpb Hqb. unfold round_ratio.
  set (a := Z.abs p) in *. set (b := Z.abs q) in *.
  assert (0 < a) as Ha by lia. assert (0 < b) as Hb by lia.
  pose proof (Z.log2_spec a Ha) as Hla. pose proof (Z.log2_spec b Hb) as Hlb.
  pose proof (Z.log2_nonneg a) as Hla0. pose proof (Z.log2_nonneg b) as Hlb0.
  assert (Z.log2 a < 53) as Hla53 by (apply Z.log2_lt_pow2; lia).
  assert (Z.log2 b < 53) as Hlb53 by (apply Z.log2_lt_pow2; lia).
  set (la := Z.log2 a) in *. set (lb := Z.log2 b) in *.
  set (e0 := la - lb - 53).
  assert (e0 <= -1) as He0 by lia.
  assert (2 ^ la * 2 ^ (- e0) = 2 ^ 52 * 2 ^ Z.succ lb) as Hpow.
  { rewrite <- !Z.pow_add_r by lia. f_equal. lia. }
  assert (2 ^ (- e0) = 2 * 2 ^ (- (e0 + 1))) as Hdouble.
  { replace (- e0) with (1 + - (e0 + 1)) by lia. rewrite Z.pow_add_r by lia. done. }
  assert (0 < 2 ^ (- e0)) as HK0 by (apply Z.pow_pos_nonneg; lia).
  assert (0 < 2 ^ (- (e0 + 1))) as HK1 by (apply Z.pow_pos_nonneg; lia).
  assert (2 ^ 53 < 2 ^ 1024) as Hbig by (by apply Z.pow_lt_mono_r).
  cbv zeta beta.
  replace (e0 <=? 0) with true by (symmetry; apply Z.leb_le; lia).
  change (2 ^ 53) with 9007199254740992 in *.
  change (2 ^ 52) with 4503599627370496 in *.
  assert (4503599627370496 * b < a * 2 ^ (- e0)) as Hnorm by nia.
  destruct (Z.leb_spec (9007199254740992 * b) (a * 2 ^ (- e0))) as [Hc|Hc].
  - rewrite Z.max_l, Z.add_0_r by lia.
    replace (e0 + 1 <=? 0) with true by (symmetry; apply Z.leb_le; lia).
    set (K := 2 ^ (- (e0 + 1))) in *.
    destruct (nearest_spec (a * K) b Hb) as (Hdm & Hr & Hk').
    exists (- (e0 + 1)), (nearest_even (a * K) b), ((a * K) / b), ((a * K) mod b).
    split; [lia|]. split.
    { rewrite Z.opp_involutive. apply signed_small; [lia|].
      intros E1. assert (K = 1) as HK by (subst K; by rewrite E1).
      rewrite HK, Z.mul_1_r in *. nia. }
    split; [nia|]. split; [exact Hdm|]. split; [exact Hr|]. exact Hk'.
  - rewrite Z.max_l, Z.add_0_r by lia.
    replace (e0 <=? 0) with true by (symmetry; apply Z.leb_le; lia).
    set (K := 2 ^ (- e0)) in *.
    destruct (nearest_spec (a * K) b Hb) as (Hdm & Hr & Hk').
    exists (- e0), (nearest_even (a * K) b), ((a * K) / b), ((a * K) mod b).
    split; [lia|]. split.
    { rewrite Z.opp_involutive. apply signed_small; lia. }
    split; [nia|]. split; [exact Hdm|]. split; [exact Hr|]. exact Hk'.
Qed.

(** Below 2^53 the floor of the rounded quotient of two integers is the
    floor of their exact quotient. *)
Lemma floor_div_exact p q :
  q <> 0 -> Z.abs p < 2 ^ 53 -> Z.abs q < 2 ^ 53 ->
  Math_floor (num_div (Fin p) (Fin q)) = Fin (p / q).
Proof.
  intros Hq Hpb Hqb. unfold num_div. cbn [dyadic]. rewrite Z.sub_diag.
  destruct (Z.eqb_spec q 0) as [|_]; [done|].
  destruct (Z.eqb_spec p 0) as [-> | Hp]; [done|].
  destruct (round_ratio_small p q Hp Hq Hpb Hqb)
    as (E & k' & k & r & HE & -> & HbK & Hdm & Hr & Hk').
  assert (0 < 2 ^ E) as HK by (apply Z.pow_pos_nonneg; lia).
  destruct (floor_nearest (Z.abs p) (Z.abs q) (2 ^ E) k r k') as [Hpos Hneg];
    try done; try lia.
  rewrite Math_floor_of_dyadic, Z.opp_involutive by lia. f_equal.
  destruct (Z.lt_total p 0) as [Hp0 | [? | Hp0]]; [|done|];
    destruct (Z.lt_total q 0) as [Hq0 | [? | Hq0]]; try done.
  - rewrite (Z.sgn_neg p), (Z.sgn_neg q) by lia.
    replace (-1 * -1 * k') with k' by lia. rewrite Hpos.
    rewrite (Z.abs_neq p), (Z.abs_neq q) by lia. apply Z.div_opp_opp. lia.
  - rewrite (Z.sgn_neg p), (Z.sgn_pos q) by lia.
    replace (-1 * 1 * k') with (- k') by lia. rewrite Hneg.
    rewrite (Z.abs_neq p), (Z.abs_eq q) by lia. by rewrite Z.opp_involutive.
  - rewrite (Z.sgn_pos p), (Z.sgn_neg q) by lia.
    replace (1 * -1 * k') with (- k') by lia. rewrite Hneg.
    rewrite (Z.abs_eq p), (Z.abs_neq q) by lia.
    rewrite <- (Z.div_opp_opp p q) by lia. done.
  - rewrite (Z.sgn_pos p), (Z.sgn_pos q) by lia.
    replace (1 * 1 * k') with k' by lia. rewrite Hpos.
    by rewrite (Z.abs_eq p), (Z.abs_eq q) by lia.
Qed.

Lemma num_div_zero p :
  num_div (Fin p) (Fin 0) = if p =? 0 then NaN else if 0 <? p then PosInf else NegInf.
Proof. reflexivity. Qed.

Lemma num_add_exact p q :
  Z.abs (p + q) < 2 ^ 53 -> num_add (Fin p) (Fin q) = Fin (p + q).
Proof.
  intros H. cbn [num_add dyadic]. cbn. rewrite !Z.mul_1_r. by apply round64_exact.
Qed.

Lemma num_mul_exact p q :
  Z.abs (p * q) < 2 ^ 53 -> num_mul (Fin p) (Fin q) = Fin (p * q).
Proof. intros H. cbn [num_mul dyadic]. cbn. by apply round64_exact. Qed.

(** The quotient of a multiple of [n] by [n] does not round. *)
Lemma num_div_multiple v n :
  0 < n -> n < 2 ^ 53 -> Z.abs (v * n) < 2 ^ 53 ->
  num_div (Fin (v * n)) (Fin n) = Fin v.
Proof.
  intros Hn Hnb Hvb. unfold num_div. cbn [dyadic]. rewrite Z.sub_diag.
  destruct (Z.eqb_spec n 0) as [|_]; [lia|].
  destruct (Z.eqb_spec (v * n) 0) as [E0|Hp].
  - assert (v = 0) as -> by nia. done.
  - destruct (round_ratio_small (v * n) n Hp ltac:(lia) Hvb ltac:(lia))
      as (E & k' & k & r & HE & -> & _ & Hdm & Hr & Hk').
    assert (0 < 2 ^ E) as HK by (apply Z.pow_pos_nonneg; lia).
    rewrite Z.abs_mul in Hdm. rewrite (Z.abs_eq n) in Hdm, Hr, Hk' by lia.
    assert (n * (Z.abs v * 2 ^ E - k) = r) as Hd by lia.
    assert (Z.abs v * 2 ^ E - k = 0) as Hk0 by nia.
    assert (r = 0) as -> by nia.
    assert (k' = Z.abs v * 2 ^ E) as -> by lia.
    rewrite Z.sgn_mul, (Z.sgn_pos n), Z.mul_1_r, Z.mul_1_r, Z.mul_assoc by lia.
    rewrite (Z.mul_comm (Z.sgn v)), Z.abs_sgn. by apply of_dyadic_int.
Qed.

Lemma zsum_cons z l : zsum (z :: l) = z + zsum l.
Proof. reflexivity. Qed.

Lemma weight_mass_nonneg c cells : 0 <= weight_mass c cells.
Proof.
  unfold weight_mass. induction cells as [|pk cells IH]; [done|].
  cbn [map]. rewrite zsum_cons. lia.
Qed.

(** While 255 times the mass of the weights stays below 2^53, no step of
    the accumulation rounds. *)
Lemma exact_sums_from c : forall cells acc1 acc2,
  (forall pk, In pk cells -> exists v, chan c (fst pk) = Fin v /\ 0 <= v <= 255) ->
  finite_weight c cells = true ->
  Z.abs acc1 + 255 * weight_mass c cells < 2 ^ 53 ->
  Z.abs acc2 + weight_mass c cells < 2 ^ 53 ->
  fold_left num_add
    (map (fun pk => num_mul (chan c (fst pk)) (weight (chan c) (snd pk))) cells) (Fin acc1)
  = Fin (acc1 + exact_weighted_sum c cells) /\
  fold_left num_add (map (fun pk => weight (chan c) (snd pk)) cells) (Fin acc2)
  = Fin (acc2 + exact_weight_sum c cells) /\
  Z.abs (exact_weighted_sum c cells) <= 255 * weight_mass c cells /\
  Z.abs (exact_weight_sum c cells) <= weight_mass c cells.
Proof.
  induction cells as [|[p k] cells IH]; intros acc1 acc2 Hpix Hfin Hb1 Hb2.
  - cbn. rewrite !Z.add_0_r. repeat split; lia.
  - cbn [finite_weight forallb snd] in Hfin. apply andb_true_iff in Hfin as [Hk Hfin].
    destruct (Hpix (p, k) ltac:(by left)) as (v & Ev & Hv). cbn [fst] in Ev.
    destruct (weight (chan c) k) as [w|fm fe| | |] eqn:Ew; try done.
    pose proof (weight_mass_nonneg c cells) as Hm.
    unfold exact_weighted_sum, exact_weight_sum, weight_mass in *.
    cbn [map] in Hb1, Hb2 |- *. rewrite !zsum_cons in Hb1, Hb2 |- *.
    unfold channel_value, weight_value in *.
    cbn [fst snd] in Hb1, Hb2 |- *. rewrite Ew in Hb1, Hb2 |- *. rewrite Ev.
    cbn [byte_value] in Hb1, Hb2 |- *.
    assert (Z.abs (v * w) <= 255 * Z.abs w) as Hvw.
    { rewrite Z.abs_mul, (Z.abs_eq v) by lia. pose proof (Z.abs_nonneg w). nia. }
    cbn [fold_left]. rewrite num_mul_exact by lia. rewrite !num_add_exact by lia.
    destruct (IH (acc1 + v * w) (acc2 + w) ltac:(intros; apply Hpix; by right) Hfin
                ltac:(lia) ltac:(lia)) as (-> & -> & H1 & H2).
    rewrite ?zsum_cons. repeat split; try (f_equal; lia); lia.
Qed.

Lemma exact_sums c cells :
  (forall pk, In pk cells -> exists v, chan c (fst pk) = Fin v /\ 0 <= v <= 255) ->
  finite_weight c cells = true ->
  255 * weight_mass c cells < 2 ^ 53 ->
  weighted_sum c cells = Fin (exact_weighted_sum c cells) /\
  weight_sum c cells = Fin (exact_weight_sum c cells) /\
  Z.abs (exact_weighted_sum c cells) < 2 ^ 53 /\
  Z.abs (exact_weight_sum c cells) < 2 ^ 53.
Proof.
  intros Hpix Hfin Hb. pose proof (weight_mass_nonneg c cells) as Hm.
  destruct (exact_sums_from c cells 0 0 Hpix Hfin ltac:(lia) ltac:(lia))
    as (E1 & E2 & H1 & H2).
  unfold weighted_sum, weight_sum, num_sum. rewrite E1, E2. repeat split; lia.
Qed.

(** ** Loops *)

Lemma logged_refl s : logged s s.
Proof. repeat split. exists []. by rewrite app_nil_r. Qed.

Lemma logged_trans s1 s2 s3 : logged s1 s2 -> logged s2 s3 -> logged s1 s3.
Proof.
  intros (H1 & H2 & H3 & l & H4) (H1' & H2' & H3' & l' & H4').
  repeat split; try congruence.
  exists (l ++ l'). rewrite H4', H4. by rewrite <- app_assoc.
Qed.

(** A loop whose body, at each index, either succeeds without touching the
    store or throws a TypeError after logging. *)
Lemma for_total {A} (body : Z -> A -> M A) (f : Z -> A -> A) (p : Z -> bool) (s : store) :
  (forall i acc,
     match body i acc s with
     | (Return v, s') => p i = true /\ v = f i acc /\ s' = s
     | (Throw e, s') => p i = false /\ e = TypeError /\ logged s s'
     end) ->
  forall n start acc,
    match for_ n start body acc s with
    | (Return v, s') => all_for n start p = true /\ v = fold_for n start f acc /\ s' = s
    | (Throw e, s') => all_for n start p = false /\ e = TypeError /\ logged s s'
    end.
Proof.
  intros Hbody n. induction n as [|n IH]; intros start acc; simpl.
  - unfold ret. auto.
  - unfold bind. specialize (Hbody start acc).
    destruct (body start acc s) as [[v|e] s1].
    + destruct Hbody as (Hp & -> & ->). rewrite Hp. simpl. apply IH.
    + destruct Hbody as (Hp & -> & Hl). rewrite Hp. auto.
Qed.

(** The invariant rule for a loop in [M]: [Inv] holds between turns, [Exc]
    of what a throwing turn leaves. *)
Lemma for_inv {A} (Inv : Z -> A -> store -> Prop) (Exc : exn -> store -> Prop)
    (body : Z -> A -> M A) :
  forall n start acc s,
    Inv start acc s ->
    (forall i acc s, start <= i < start + Z.of_nat n -> Inv i acc s ->
       match body i acc s with
       | (Return v, s') => Inv (i + 1) v s'
       | (Throw e, s') => Exc e s'
       end) ->
    match for_ n start body acc s with
    | (Return v, s') => Inv (start + Z.of_nat n) v s'
    | (Throw e, s') => Exc e s'
    end.
Proof.
  induction n as [|n IH]; intros start acc s H0 Hstep.
  - simpl. unfold ret. by rewrite Z.add_0_r.
  - simpl. unfold bind.
    pose proof (Hstep start acc s ltac:(lia) H0) as H1.
    destruct (body start acc s) as [[v|e] s1]; [|done].
    replace (start + Z.of_nat (S n)) with ((start + 1) + Z.of_nat n) by lia.
    apply IH; [done|]. intros i acc' s' Hi. apply Hstep. lia.
Qed.

(** ** The accumulation loop *)

Lemma index2_lookup2 {A} (rows : list (list A)) j i :
  match index2 rows j i with
  | Return o => o = lookup2 rows j i
  | Throw e => e = TypeError /\ lookup2 rows j i = None
  end.
Proof. unfold index2, lookup2. by destruct (rows !! Z.to_nat j). Qed.

Lemma console_log_logged e s : logged s (snd (console_log e s)).
Proof. unfold console_log; simpl. repeat split. by exists [e]. Qed.

Lemma accumulate_cell_spec rev area kernel j i sums s :
  match accumulate_cell rev area kernel j i sums s with
  | (Return v, s') =>
      match lookup2 (pixels area) j i, lookup2 kernel j i with
      | Some _, Some _ => true
      | _, _ => false
      end = true /\
      v = match lookup2 (pixels area) j i, lookup2 kernel j i with
          | Some apixel, Some kpixel => add_weighted sums apixel kpixel
          | _, _ => sums
          end /\ s' = s
  | (Throw e, s') =>
      match lookup2 (pixels area) j i, lookup2 kernel j i with
      | Some _, Some _ => true
      | _, _ => false
      end = false /\ e = TypeError /\ logged s s'
  end.
Proof.
  unfold accumulate_cell.
  pose proof (index2_lookup2 (pixels area) j i) as Ha.
  pose proof (index2_lookup2 kernel j i) as Hk.
  destruct (index2 (pixels area) j i) as [oa|ea].
  - destruct (index2 kernel j i) as [ok|ek].
    + subst oa ok.
      destruct (lookup2 (pixels area) j i) as [ap|], (lookup2 kernel j i) as [kp|];
        unfold ret, throw, bind; simpl; auto;
        destruct rev; simpl; (split; [done|split; [done|]]);
        first [apply logged_refl | apply (console_log_logged _ s)].
    + destruct Hk as [-> ->]. subst oa. unfold throw.
      destruct (lookup2 (pixels area) j i); (split; [done|split; [done|apply logged_refl]]).
  - destruct Ha as [-> ->]. unfold throw. split; [done|split; [done|apply logged_refl]].
Qed.

(** The accumulation either walks the whole area, leaving the store as it
    was, or throws a TypeError at the first position with no pixel or no
    cell. *)
Lemma accumulate_spec rev area kernel s :
  match accumulate rev area kernel s with
  | (Return sums, s') =>
      covers (pixels area) kernel = true /\
      sums = sums_of (pixels area) kernel /\ s' = s
  | (Throw e, s') =>
      covers (pixels area) kernel = false /\ e = TypeError /\ logged s s'
  end.
Proof.
  unfold accumulate, covers, sums_of, columns.
  apply (for_total
           (fun j sums => for_ (length (nth 0%nat (pixels area) [])) 0
              (fun i sums => accumulate_cell rev area kernel j i sums) sums)).
  intros j acc.
  apply (for_total (fun i sums => accumulate_cell rev area kernel j i sums)).
  intros i acc'. apply accumulate_cell_spec.
Qed.

(** ** Kernel resolution *)

Lemma first_cell_is_Number_exn kernel e :
  first_cell_is_Number kernel = Throw e -> e = TypeError.
Proof.
  destruct kernel as [|[|[n|p] row] rows]; simpl; congruence.
Qed.

Lemma first_cell_promoted kernel :
  first_cell_is_Number kernel = Return true ->
  first_cell_is_Number (map (map promote_cell) kernel) = Return false.
Proof.
  destruct kernel as [|[|[n|p] row] rows]; simpl; congruence.
Qed.

Lemma normalize_idem rev kernel :
  normalize rev (normalize rev kernel) = normalize rev kernel.
Proof.
  destruct rev; simpl; [|done].
  destruct (first_cell_is_Number kernel) as [[|]|e] eqn:E; simpl.
  - by rewrite (first_cell_promoted _ E).
  - by rewrite E.
  - by rewrite E.
Qed.

Lemma first_cell_ok_normalize rev kernel :
  first_cell_ok rev (normalize rev kernel) = first_cell_ok rev kernel.
Proof.
  destruct rev; simpl; [|done].
  destruct (first_cell_is_Number kernel) as [[|]|e] eqn:E; simpl.
  - by rewrite (first_cell_promoted _ E).
  - by rewrite E.
  - by rewrite E.
Qed.

Lemma kernel_after_idem rev ks K :
  kernel_after rev ks (kernel_after rev ks K) = kernel_after rev ks K.
Proof. destruct ks; simpl; [apply normalize_idem|done]. Qed.

Lemma set_kernel_array_same s : set_kernel_array s (kernel_array s) = s.
Proof. by destruct s. Qed.

Lemma resolve_kernel_spec rev ks area s :
  let raw := raw_kernel ks (kernel_array s) area in
  match resolve_kernel rev ks area s with
  | (Return kernel, s') =>
      first_cell_ok rev raw = true /\ kernel = normalize rev raw /\
      s' = set_kernel_array s (kernel_after rev ks (kernel_array s))
  | (Throw e, s') =>
      first_cell_ok rev raw = false /\ e = TypeError /\
      s' = set_kernel_array s (kernel_after rev ks (kernel_array s))
  end.
Proof.
  unfold resolve_kernel, kernel_after, first_cell_ok, normalize.
  destruct ks as [|f]; simpl; unfold bind, get_store, ret; simpl.
  - destruct rev; [|by rewrite set_kernel_array_same].
    destruct (first_cell_is_Number (kernel_array s)) as [[|]|e] eqn:E;
      unfold ret, throw, bind, put_store; simpl.
    + done.
    + by rewrite set_kernel_array_same.
    + rewrite set_kernel_array_same. by rewrite (first_cell_is_Number_exn _ _ E).
  - destruct rev; [|by rewrite set_kernel_array_same].
    destruct (first_cell_is_Number (f area)) as [[|]|e] eqn:E;
      unfold ret, throw; rewrite set_kernel_array_same; try done.
    by rewrite (first_cell_is_Number_exn _ _ E).
Qed.

(** ** One turn of the pixel loop *)

Lemma convolve_pixel_spec rev imgData ks half_size x y d s :
  let K := kernel_array s in
  let s1 := set_kernel_array s (kernel_after rev ks K) in
  match convolve_pixel rev imgData ks half_size x y d s with
  | (Return d', s') =>
      pixel_ok rev imgData ks K half_size x y = true /\
      d' = write_pixel d (getPixelLocation imgData x y)
                       (out_pixel rev imgData ks K half_size x y) /\
      s' = s1
  | (Throw e, s') =>
      pixel_ok rev imgData ks K half_size x y = false /\ e = TypeError /\
      logged s1 s'
  end.
Proof.
  intros K s1. unfold convolve_pixel, pixel_ok, out_pixel, sums_at, kernel_at, bind.
  generalize (mk_area imgData half_size x y). intros area.
  pose proof (resolve_kernel_spec rev ks area s) as Hr.
  cbv zeta in Hr. fold K in Hr. fold s1 in Hr.
  destruct (resolve_kernel rev ks area s) as [[kernel|e] s'].
  - destruct Hr as (Hok & -> & ->). rewrite Hok, andb_true_l.
    pose proof (accumulate_spec rev area (normalize rev (raw_kernel ks K area)) s1) as Ha.
    destruct (accumulate rev area (normalize rev (raw_kernel ks K area)) s1)
      as [[sums|e] s'].
    + destruct Ha as (Hc & -> & ->).
      destruct (sums_of _ _) as [area_sum kernel_sum]. by unfold ret.
    + destruct Ha as (Hc & -> & Hl). done.
  - destruct Hr as (Hok & -> & ->). rewrite Hok, andb_false_l.
    split; [done|]. split; [done|]. apply logged_refl.
Qed.

(** ** The output buffer *)

Lemma typed_set_length d i v : length (typed_set d i v) = length d.
Proof. unfold typed_set. destruct (i <? 0); [done|apply length_insert]. Qed.

Lemma typed_get_set_eq d i v :
  0 <= i -> (Z.to_nat i < length d)%nat ->
  typed_get (typed_set d i v) i = Fin (ToUint8Clamp v).
Proof.
  intros Hi Hl. unfold typed_get, typed_set.
  destruct (Z.ltb_spec i 0); [lia|]. by rewrite list_lookup_insert_eq.
Qed.

Lemma typed_get_set_ne d i j v :
  i <> j -> typed_get (typed_set d i v) j = typed_get d j.
Proof.
  intros Hij. unfold typed_get, typed_set.
  destruct (Z.ltb_spec j 0); [done|].
  destruct (Z.ltb_spec i 0); [done|].
  rewrite list_lookup_insert_ne; [done|lia].
Qed.

Lemma write_pixel_length d pixloc p : length (write_pixel d pixloc p) = length d.
Proof. unfold write_pixel. by rewrite !typed_set_length. Qed.

Lemma write_pixel_at d pixloc p :
  0 <= pixloc -> (Z.to_nat (pixloc + 3) < length d)%nat ->
  pixel_at (write_pixel d pixloc p) pixloc p.
Proof.
  intros H0 Hl. unfold pixel_at, write_pixel. repeat split.
  - rewrite !typed_get_set_ne by lia. apply typed_get_set_eq; [lia|lia].
  - rewrite !typed_get_set_ne by lia.
    apply typed_get_set_eq; [lia|rewrite typed_set_length; lia].
  - rewrite !typed_get_set_ne by lia.
    apply typed_get_set_eq; [lia|rewrite !typed_set_length; lia].
  - apply typed_get_set_eq; [lia|rewrite !typed_set_length; lia].
Qed.

Lemma write_pixel_other d pixloc p pixloc' q :
  pixloc' + 3 < pixloc \/ pixloc + 3 < pixloc' ->
  pixel_at d pixloc' q -> pixel_at (write_pixel d pixloc p) pixloc' q.
Proof.
  intros Hd (H0 & H1 & H2 & H3). unfold pixel_at, write_pixel.
  rewrite !typed_get_set_ne by lia. done.
Qed.

Lemma choose_size_store rev ks size c s l :
  choose_size rev (mkStore c (kernel_size s) (kernel_array s) l) ks size =
  choose_size rev s ks size.
Proof. unfold choose_size, default_size. by destruct size, rev, ks. Qed.

Lemma pixel_ok_after rev imgData ks K h x y :
  pixel_ok rev imgData ks (kernel_after rev ks K) h x y = pixel_ok rev imgData ks K h x y.
Proof.
  unfold pixel_ok. destruct ks as [|f]; simpl; [|done].
  by rewrite first_cell_ok_normalize, normalize_idem.
Qed.

Lemma out_pixel_after rev imgData ks K h x y :
  out_pixel rev imgData ks (kernel_after rev ks K) h x y = out_pixel rev imgData ks K h x y.
Proof.
  unfold out_pixel, sums_at, kernel_at. destruct ks as [|f]; simpl; [|done].
  by rewrite normalize_idem.
Qed.

(** ** The pixel loop *)

Section PixelLoop.
Variables (rev : revision) (imgData : ImageData) (ks : kernel_source).
Variables (c0 : option ImageData) (ksz : Z) (K0 : grid) (con : list log_entry).
Variable h : Z.
Hypothesis Hw : 0 < width imgData.
Hypothesis Hh : 0 < height imgData.

Local Abbreviation Inv := (loop_inv rev imgData ks c0 ksz K0 con h).
Local Abbreviation Exc := (loop_exc rev imgData ks c0 ksz K0 con h).

Lemma row_major_inj x y x' y' :
  0 <= x < width imgData -> 0 <= x' < width imgData ->
  y * width imgData + x = y' * width imgData + x' -> x = x' /\ y = y'.
Proof.
  intros Hx Hx' E.
  assert (y = y') as -> by nia. lia.
Qed.

Lemma pixel_turn x y d s :
  in_image imgData x y ->
  Inv (y * width imgData + x) d s ->
  match convolve_pixel rev imgData ks h x y d s with
  | (Return d', s') => Inv (y * width imgData + x + 1) d' s'
  | (Throw e, s') => Exc e s'
  end.
Proof.
  intros [Hx Hy] (Hlen & Hs & Hdone).
  pose proof (convolve_pixel_spec rev imgData ks h x y d s) as Hp.
  cbv zeta in Hp.
  assert (pixel_ok rev imgData ks (kernel_array s) h x y
          = pixel_ok rev imgData ks K0 h x y) as Eok.
  { destruct Hs as [[-> _]| ->]; simpl; [done|apply pixel_ok_after]. }
  assert (out_pixel rev imgData ks (kernel_array s) h x y
          = out_pixel rev imgData ks K0 h x y) as Eout.
  { destruct Hs as [[-> _]| ->]; simpl; [done|apply out_pixel_after]. }
  assert (set_kernel_array s (kernel_after rev ks (kernel_array s))
          = mkStore c0 ksz (kernel_after rev ks K0) con) as Es.
  { destruct Hs as [[-> _]| ->]; unfold set_kernel_array; simpl; [done|].
    by rewrite kernel_after_idem. }
  rewrite Eok, Eout, Es in Hp.
  destruct (convolve_pixel rev imgData ks h x y d s) as [[d'|e] s'].
  - destruct Hp as (Hok & -> & ->). split; [|split].
    + by rewrite write_pixel_length.
    + by right.
    + intros x' y' Hx' Hy' Hlt.
      destruct (Z.eq_dec (y' * width imgData + x') (y * width imgData + x)) as [E|NE].
      * apply row_major_inj in E as [-> ->]; [|done|done].
        split; [done|]. apply write_pixel_at.
        -- unfold getPixelLocation. nia.
        -- rewrite Hlen. unfold getPixelLocation. nia.
      * destruct (Hdone x' y' Hx' Hy' ltac:(lia)) as [Hok' Hat].
        split; [done|]. apply write_pixel_other; [|done].
        left. unfold getPixelLocation. lia.
  - destruct Hp as (Hok & -> & Hl). split; [done|]. split; [done|].
    exists x, y. done.
Qed.

Lemma row_loop y d s :
  0 <= y < height imgData ->
  Inv (y * width imgData) d s ->
  match for_ (Z.to_nat (width imgData)) 0
          (fun x d => convolve_pixel rev imgData ks h x y d) d s with
  | (Return d', s') => Inv ((y + 1) * width imgData) d' s'
  | (Throw e, s') => Exc e s'
  end.
Proof.
  intros Hy H0.
  pose proof (for_inv (fun x d s => Inv (y * width imgData + x) d s) Exc
                (fun x d => convolve_pixel rev imgData ks h x y d)
                (Z.to_nat (width imgData)) 0 d s) as Hfor.
  cbv beta in Hfor.
  replace (y * width imgData + (0 + Z.of_nat (Z.to_nat (width imgData))))
    with ((y + 1) * width imgData) in Hfor by lia.
  apply Hfor.
  - by rewrite Z.add_0_r.
  - intros x d' s' Hx HI. rewrite Z.add_assoc. apply pixel_turn; [|done].
    split; lia.
Qed.

Lemma image_loop d :
  length d = Z.to_nat (width imgData * height imgData * 4) ->
  match for_ (Z.to_nat (height imgData)) 0
          (fun y d => for_ (Z.to_nat (width imgData)) 0
             (fun x d => convolve_pixel rev imgData ks h x y d) d)
          d (mkStore c0 ksz K0 con) with
  | (Return d', s') => Inv (height imgData * width imgData) d' s'
  | (Throw e, s') => Exc e s'
  end.
Proof.
  intros Hlen.
  pose proof (for_inv (fun y d s => Inv (y * width imgData) d s) Exc
                (fun y d => for_ (Z.to_nat (width imgData)) 0
                   (fun x d => convolve_pixel rev imgData ks h x y d) d)
                (Z.to_nat (height imgData)) 0 d (mkStore c0 ksz K0 con)) as Hfor.
  cbv beta in Hfor.
  replace (0 + Z.of_nat (Z.to_nat (height imgData))) with (height imgData) in Hfor by lia.
  apply Hfor.
  - split; [done|]. split; [left; split; [done|lia]|].
    intros x y Hx Hy Hlt. lia.
  - intros y d' s' Hy HI. apply row_loop; [lia|done].
Qed.
End PixelLoop.

(** ** The whole call *)

(** What a call on an ImageData does, in full: it returns exactly when
    every turn of the pixel loop runs to its end, the returned buffer then
    holds [out_pixel] at every coordinate, and the store is left as
    [store_after] says (with more on the console if it threw). *)
Lemma convolution_spec rev imgData ks size s :
  0 < width imgData -> 0 < height imgData ->
  let h := choose_size rev s ks size / 2 in
  let K := kernel_array s in
  match convolution rev (SrcImageData imgData) ks size s with
  | (Return out, s') =>
      width out = width imgData /\ height out = height imgData /\
      length (data out) = Z.to_nat (width imgData * height imgData * 4) /\
      s' = store_after rev imgData ks s /\
      forall x y, in_image imgData x y ->
        pixel_ok rev imgData ks K h x y = true /\
        pixel_at (data out) (getPixelLocation imgData x y)
                 (out_pixel rev imgData ks K h x y)
  | (Throw e, s') =>
      e = TypeError /\ logged (store_after rev imgData ks s) s' /\
      exists x y, in_image imgData x y /\ pixel_ok rev imgData ks K h x y = false
  end.
Proof.
  intros Hw Hh h K.
  unfold convolution, bind, ret, get_store, put_store, new_ImageData.
  destruct (Z.leb_spec (width imgData) 0); [lia|].
  destruct (Z.leb_spec (height imgData) 0); [lia|].
  cbn [orb ret width height data].
  rewrite choose_size_store. fold h.
  pose proof (image_loop rev imgData ks (Some imgData) (kernel_size s) K (console s) h
                Hw Hh (repeat 0 (Z.to_nat (width imgData * height imgData * 4)))
                (repeat_length _ _)) as Hloop.
  fold K.
  destruct (for_ _ _ _ _ _) as [[d|e] s'].
  - destruct Hloop as (Hlen & Hs & Hdone). cbn [width height data].
    split; [done|]. split; [done|]. split; [done|]. split.
    + destruct Hs as [[_ E]| ->]; [nia|done].
    + intros x y [Hx Hy]. apply Hdone; [done|lia|nia].
  - exact Hloop.
Qed.

Lemma all_for_spec p : forall n start,
  all_for n start p = true <->
  (forall i, start <= i < start + Z.of_nat n -> p i = true).
Proof.
  induction n as [|n IH]; intros start; simpl.
  - split; [intros _ i Hi; lia|done].
  - rewrite andb_true_iff, IH. split.
    + intros [H0 H1] i Hi. destruct (Z.eq_dec i start) as [->|NE]; [done|].
      apply H1. lia.
    + intros H. split; [apply H; lia|]. intros i Hi. apply H. lia.
Qed.

Lemma kernel_fits_spec rev imgData ks K h :
  kernel_fits rev imgData ks K h = true <->
  (forall x y, in_image imgData x y -> pixel_ok rev imgData ks K h x y = true).
Proof.
  unfold kernel_fits, in_image. rewrite all_for_spec. split.
  - intros H x y [Hx Hy]. specialize (H y ltac:(lia)).
    rewrite all_for_spec in H. apply H. lia.
  - intros H y Hy. rewrite all_for_spec. intros x Hx. apply H. lia.
Qed.

(** The call returns a buffer exactly when the kernel fits; otherwise it
    throws a TypeError. *)
Lemma convolution_returns rev imgData ks size s :
  0 < width imgData -> 0 < height imgData ->
  let fits := kernel_fits rev imgData ks (kernel_array s)
                (choose_size rev s ks size / 2) in
  match fst (convolution rev (SrcImageData imgData) ks size s) with
  | Return _ => fits = true
  | Throw e => fits = false /\ e = TypeError
  end.
Proof.
  intros Hw Hh fits. subst fits.
  pose proof (convolution_spec rev imgData ks size s Hw Hh) as H. cbv zeta in H.
  destruct (convolution rev (SrcImageData imgData) ks size s) as [[out|e] s']; simpl.
  - apply kernel_fits_spec. intros x y Hxy. by apply H.
  - destruct H as (-> & _ & x & y & Hxy & Hno). split; [|done].
    apply not_true_is_false. intros Hf.
    rewrite kernel_fits_spec in Hf. specialize (Hf x y Hxy). congruence.
Qed.

Lemma pixel_at_chan d pixloc p c :
  pixel_at d pixloc p -> typed_get d (pixloc + offset c) = Fin (ToUint8Clamp (chan c p)).
Proof.
  intros (H0 & H1 & H2 & H3). destruct c; simpl; [|done|done].
  by rewrite Z.add_0_r.
Qed.

Lemma out_pixel_chan rev imgData ks K h x y c :
  chan c (out_pixel rev imgData ks K h x y) =
  stored_channel rev
    (Math_floor (num_div (chan c (fst (sums_at rev imgData ks K h x y)))
                         (chan c (snd (sums_at rev imgData ks K h x y))))).
Proof.
  unfold out_pixel. destruct (sums_at rev imgData ks K h x y) as [area_sum kernel_sum].
  by destruct c.
Qed.

Lemma out_pixel_alpha rev imgData ks K h x y :
  a (out_pixel rev imgData ks K h x y) = Fin 255.
Proof.
  unfold out_pixel. by destruct (sums_at rev imgData ks K h x y).
Qed.

(** [Math.round] of a floored value is that value. *)
Lemma stored_channel_id rev v : stored_channel rev (Math_floor v) = Math_floor v.
Proof. by destruct rev, v. Qed.

(** * Properties of the engine *)

Lemma sample_image_valid : valid_ImageData sample_image.
Proof.
  unfold valid_ImageData, sample_image; simpl.
  repeat split; try lia. repeat constructor; lia.
Qed.

(** C1 (dimension preservation).  For a valid input ImageData and any
    kernel source and size, every buffer the call returns has the width and
    the height of the input (and as many bytes); and the call does return a
    buffer whenever the kernel fits every neighbourhood. *)
Theorem convolution_preserves_dimensions rev imgData ks size s :
  valid_ImageData imgData ->
  (forall out s',
     convolution rev (SrcImageData imgData) ks size s = (Return out, s') ->
     width out = width imgData /\ height out = height imgData /\
     length (data out) = length (data imgData)) /\
  (kernel_fits rev imgData ks (kernel_array s) (choose_size rev s ks size / 2) = true ->
   exists out s', convolution rev (SrcImageData imgData) ks size s = (Return out, s')).
Proof.
  intros (Hw & Hh & Hlen & _).
  pose proof (convolution_spec rev imgData ks size s Hw Hh) as Hspec.
  pose proof (convolution_returns rev imgData ks size s Hw Hh) as Hret.
  cbv zeta in Hspec, Hret. split.
  - intros out s' E. rewrite E in Hspec.
    destruct Hspec as (H1 & H2 & H3 & _). by rewrite Hlen.
  - intros Hfits.
    destruct (convolution rev (SrcImageData imgData) ks size s) as [[out|e] s'].
    + by exists out, s'.
    + simpl in Hret. destruct Hret as [Hno _]. congruence.
Qed.

Lemma convolution_preserves_dimensions_witness :
  exists out s',
    convolution part_000 (SrcImageData sample_image) KArray (Some 3) sample_store
    = (Return out, s') /\ width out = 3 /\ height out = 3.
Proof.
  destruct (convolution_preserves_dimensions part_000 sample_image KArray (Some 3)
              sample_store sample_image_valid) as [Hdims Hret].
  destruct (Hret ltac:(vm_compute; reflexivity)) as (out & s' & E).
  exists out, s'. split; [exact E|].
  destruct (Hdims out s' E) as (Hw & Hh & _). split; [exact Hw|exact Hh].
Defined.

(** ** The area *)

Lemma zrange_length lo hi : length (zrange lo hi) = Z.to_nat (hi - lo + 1).
Proof. unfold zrange. by rewrite length_map, length_seq. Qed.

Lemma zrange_lookup lo hi k :
  (k < Z.to_nat (hi - lo + 1))%nat -> zrange lo hi !! k = Some (lo + Z.of_nat k).
Proof.
  intros Hk. unfold zrange. rewrite list_lookup_fmap.
  rewrite lookup_seq_lt by done. reflexivity.
Qed.

Lemma mk_area_lookup imgData h x y j i :
  let A := mk_area imgData h x y in
  0 <= j < bottom A - top A + 1 -> 0 <= i < right A - left A + 1 ->
  lookup2 (pixels A) j i = Some (getPixel imgData (left A + i) (top A + j)).
Proof.
  intros A Hj Hi. unfold lookup2. subst A. unfold mk_area in *. cbn [pixels left right top bottom] in *.
  rewrite list_lookup_fmap, zrange_lookup by lia. cbn [fmap option_fmap option_map].
  rewrite list_lookup_fmap, zrange_lookup by lia. cbn [fmap option_fmap option_map].
  by rewrite !Z2Nat.id by lia.
Qed.

(** C9 (area invariant).  Around a centre inside the image and for a
    half-size [h >= 0], the area's box is [cx-h, cx+h] x [cy-h, cy+h] with
    each edge clamped on its own to the image, its pixel grid has
    bottom-top+1 rows of right-left+1 columns each, and the cell in row [j],
    column [i] is the image's own pixel at [(left+i, top+j)], a coordinate
    inside the image: no cell is made up and no pixel is repeated. *)
Theorem area_is_clipped_box imgData cx cy h :
  in_image imgData cx cy -> 0 <= h ->
  let A := mk_area imgData h cx cy in
  left A = Z.max 0 (cx - h) /\ right A = Z.min (width imgData - 1) (cx + h) /\
  top A = Z.max 0 (cy - h) /\ bottom A = Z.min (height imgData - 1) (cy + h) /\
  center A = (cx, cy) /\
  Z.of_nat (length (pixels A)) = bottom A - top A + 1 /\
  Forall (fun row => Z.of_nat (length row) = right A - left A + 1) (pixels A) /\
  1 <= bottom A - top A + 1 <= 2 * h + 1 /\
  1 <= right A - left A + 1 <= 2 * h + 1 /\
  forall j i, 0 <= j < bottom A - top A + 1 -> 0 <= i < right A - left A + 1 ->
    in_image imgData (left A + i) (top A + j) /\
    lookup2 (pixels A) j i = Some (getPixel imgData (left A + i) (top A + j)).
Proof.
  intros [Hx Hy] Hh A.
  assert (left A = Z.max 0 (cx - h)) as El.
  { subst A. unfold mk_area; cbn [left]. destruct (Z.ltb_spec (cx - h) 0); lia. }
  assert (right A = Z.min (width imgData - 1) (cx + h)) as Er.
  { subst A. unfold mk_area; cbn [right].
    destruct (Z.geb_spec (cx + h) (width imgData)); lia. }
  assert (top A = Z.max 0 (cy - h)) as Et.
  { subst A. unfold mk_area; cbn [top]. destruct (Z.ltb_spec (cy - h) 0); lia. }
  assert (bottom A = Z.min (height imgData - 1) (cy + h)) as Eb.
  { subst A. unfold mk_area; cbn [bottom].
    destruct (Z.geb_spec (cy + h) (height imgData)); lia. }
  repeat split; try done; try lia.
  - subst A. unfold mk_area in *. cbn [pixels bottom top] in *.
    rewrite length_map, zrange_length. lia.
  - subst A. unfold mk_area in *. cbn [pixels right left] in *.
    apply Forall_forall. intros row Hin.
    apply (list_elem_of_fmap_1 _ _ _) in Hin as (ay & -> & _).
    rewrite length_map, zrange_length. lia.
  - by apply mk_area_lookup.
Qed.

Lemma area_is_clipped_box_witness :
  let A := mk_area sample_image 1 0 0 in
  left A = 0 /\ right A = 1 /\ top A = 0 /\ bottom A = 1 /\
  length (pixels A) = 2%nat /\
  lookup2 (pixels A) 1 1 = Some (getPixel sample_image 1 1).
Proof.
  pose proof (area_is_clipped_box sample_image 0 0 1
                ltac:(unfold in_image; simpl; lia) ltac:(lia)) as H.
  cbv zeta in H. destruct H as (Hl & Hr & Ht & Hb & _ & _ & _ & _ & _ & Hcell).
  intros A. split; [exact Hl|]. split; [exact Hr|]. split; [exact Ht|].
  split; [exact Hb|]. split; [reflexivity|].
  apply (Hcell 1 1); simpl; lia.
Defined.

(** ** The caller's kernel array *)

Lemma promote_cell_is_Pixel c : exists p, promote_cell c = CPix p.
Proof. destruct c; simpl; eauto. Qed.

Lemma convolution_store rev imgData ks size s :
  0 < width imgData -> 0 < height imgData ->
  logged (store_after rev imgData ks s)
         (snd (convolution rev (SrcImageData imgData) ks size s)).
Proof.
  intros Hw Hh.
  pose proof (convolution_spec rev imgData ks size s Hw Hh) as H. cbv zeta in H.
  destruct (convolution rev (SrcImageData imgData) ks size s) as [[out|e] s']; simpl.
  - destruct H as (_ & _ & _ & -> & _). apply logged_refl.
  - by destruct H as (_ & Hl & _).
Qed.

(** C10 (in-place promotion, part_000).  When the caller passes a kernel
    array whose cell [0][0] is a bare number, the call on a valid image
    leaves that very array with every cell replaced by a Pixel built from
    it, whether the call returns or throws; the test looks at cell [0][0]
    alone: an array whose first cell is a Pixel is left as it was, whatever
    its other cells are. *)
Theorem static_kernel_promoted_in_place imgData size s :
  valid_ImageData imgData ->
  let s' := snd (convolution part_000 (SrcImageData imgData) KArray size s) in
  (first_cell_is_Number (kernel_array s) = Return true ->
   kernel_array s' = map (map promote_cell) (kernel_array s) /\
   Forall (Forall (fun c => exists p, c = CPix p)) (kernel_array s')) /\
  (first_cell_is_Number (kernel_array s) = Return false ->
   kernel_array s' = kernel_array s).
Proof.
  intros (Hw & Hh & _) s'.
  pose proof (convolution_store part_000 imgData KArray size s Hw Hh) as (_ & _ & HK & _).
  fold s' in HK. simpl in HK. split; intros E; rewrite E in HK.
  - split; [done|]. rewrite HK.
    apply Forall_forall. intros row Hrow.
    apply (list_elem_of_fmap_1 _ _ _) in Hrow as (row0 & -> & _).
    apply Forall_forall. intros c Hc.
    apply (list_elem_of_fmap_1 _ _ _) in Hc as (c0 & -> & _).
    apply promote_cell_is_Pixel.
  - done.
Qed.

Lemma static_kernel_promoted_in_place_witness :
  kernel_array (snd (convolution part_000 (SrcImageData sample_image) KArray (Some 3)
                       sample_store))
  = repeat (repeat (CPix (mkPixel (Fin 1) (Fin 1) (Fin 1) (Fin 255))) 3) 3.
Proof.
  destruct (static_kernel_promoted_in_place sample_image (Some 3) sample_store
              sample_image_valid) as [Hnum _].
  destruct (Hnum ltac:(reflexivity)) as [E _].
  rewrite E. reflexivity.
Defined.

(** ** The default size *)

(** The size argument matters through [choose_size] only. *)
Lemma convolution_size rev source ks size1 size2 s :
  choose_size rev s ks size1 = choose_size rev s ks size2 ->
  convolution rev source ks size1 s = convolution rev source ks size2 s.
Proof.
  intros E. unfold convolution, bind.
  destruct source as [|d|name|]; simpl; try done.
  unfold get_store, put_store, bind.
  destruct (new_ImageData (width d) (height d) _) as [[res|e] s1] eqn:En; [|done].
  assert (s1 = mkStore (Some d) (kernel_size s) (kernel_array s) (console s)) as ->.
  { unfold new_ImageData in En. destruct (_ || _); unfold throw, ret in En; congruence. }
  rewrite !choose_size_store. by rewrite E.
Qed.

(** X21 (default size in part_000).  With the size argument omitted, the
    call on a kernel array behaves as the call with the array's length as
    size, and the call on a kernel function behaves as the call with the
    default size, which is 5 once the module is loaded. *)
Theorem omitted_size_default source s f :
  convolution part_000 source KArray None s
  = convolution part_000 source KArray (Some (Z.of_nat (length (kernel_array s)))) s /\
  convolution part_000 source (KFunction f) None (load_module s)
  = convolution part_000 source (KFunction f) (Some 5) (load_module s) /\
  choose_size part_000 s KArray None = Z.of_nat (length (kernel_array s)) /\
  choose_size part_000 (load_module s) (KFunction f) None = 5.
Proof.
  repeat split.
  - apply convolution_size. unfold choose_size, default_size, truthy.
    by destruct (Z.eqb_spec (Z.of_nat (length (kernel_array s))) 0).
  - by apply convolution_size.
Qed.

(** The other revision takes the default size for a kernel array too. *)
Lemma omitted_size_default_convolution_js source ks s :
  convolution convolution_js source ks None s
  = convolution convolution_js source ks (Some (kernel_size s)) s.
Proof.
  apply convolution_size.
  unfold choose_size, default_size, truthy.
  destruct (Z.eqb_spec (kernel_size s) 0); simpl; by destruct ks.
Qed.

(** C6 (default size) fails in src/convolution.js, whose default does not
    look at the kernel.  With the size omitted and the 3x3 kernel of Pixel
    weights (1, 1, 1, 255), it takes the size 5, not 3: on the scenario
    image every neighbourhood is then the whole image and every red is 50,
    while the size 3 (which part_000 takes) gives the reds 30, 35, ...,
    70. *)
Theorem omitted_size_is_default_in_convolution_js :
  let s := load_module (mkStore None 0 (explicit ones_kernel) []) in
  let means := mkImageData 3 3
       [30; 0; 0; 255;  35; 0; 0; 255;  40; 0; 0; 255;
        45; 0; 0; 255;  50; 0; 0; 255;  55; 0; 0; 255;
        60; 0; 0; 255;  65; 0; 0; 255;  70; 0; 0; 255] in
  Z.of_nat (length (kernel_array s)) = 3 /\
  choose_size convolution_js s KArray None = 5 /\
  choose_size part_000 s KArray None = 3 /\
  fst (convolution convolution_js (SrcImageData sample_image) KArray None s)
  = Return (mkImageData 3 3 (concat (repeat [50; 0; 0; 255] 9))) /\
  fst (convolution convolution_js (SrcImageData sample_image) KArray (Some 3) s)
  = Return means /\
  fst (convolution part_000 (SrcImageData sample_image) KArray None s)
  = Return means.
Proof. repeat split; vm_compute; reflexivity. Qed.

(** ** The concrete scenario *)

(** C2 (concrete scenario, part_000).  On any 3x3 image whose red channels
    are 10, 20, ..., 90 in row-major order (the other bytes are arbitrary),
    with a caller's 3x3 array of bare ones and size 3, the call returns and
    the red channel of the output pixel at the centre (1,1) is 50. *)
Theorem scenario_center_red d s :
  length d = 36%nat ->
  red_channels (mkImageData 3 3 d) = map Fin [10; 20; 30; 40; 50; 60; 70; 80; 90] ->
  kernel_array s = ones_kernel ->
  exists out s',
    convolution part_000 (SrcImageData (mkImageData 3 3 d)) KArray (Some 3) s
    = (Return out, s') /\
    typed_get (data out) (getPixelLocation out 1 1) = Fin 50 /\
    r (getPixel out 1 1) = Fin 50.
Proof.
  intros Hlen Hred HK.
  do 37 (destruct d as [|? d]; try discriminate Hlen). clear Hlen.
  vm_compute in Hred. injection Hred as -> -> -> -> -> -> -> -> ->.
  match goal with |- context [mkImageData 3 3 ?l] => set (img := mkImageData 3 3 l) end.
  pose proof (convolution_spec part_000 img KArray (Some 3) s
                ltac:(simpl; lia) ltac:(simpl; lia)) as Hspec.
  pose proof (convolution_returns part_000 img KArray (Some 3) s
                ltac:(simpl; lia) ltac:(simpl; lia)) as Hret.
  cbv zeta in Hspec, Hret. rewrite HK in Hspec, Hret.
  change (choose_size part_000 s KArray (Some 3) / 2) with 1 in Hspec, Hret.
  destruct (convolution part_000 (SrcImageData img) KArray (Some 3) s) as [[out|e] s'].
  - exists out, s'. split; [done|].
    destruct Hspec as (Hw & Hh & _ & _ & Hpix).
    destruct (Hpix 1 1 ltac:(unfold in_image; simpl; lia)) as (_ & Hr & _).
    assert (getPixelLocation out 1 1 = getPixelLocation img 1 1) as Eloc.
    { unfold getPixelLocation. by rewrite Hw. }
    assert (typed_get (data out) (getPixelLocation out 1 1) = Fin 50) as E.
    { rewrite Eloc, Hr. lazy. reflexivity. }
    split; [exact E|]. unfold getPixel. cbn [new_Pixel r]. exact E.
  - simpl in Hret. destruct Hret as [Hno _].
    vm_compute in Hno. discriminate Hno.
Qed.

Lemma scenario_center_red_witness :
  exists out s',
    convolution part_000 (SrcImageData sample_image) KArray (Some 3) sample_store
    = (Return out, s') /\
    typed_get (data out) (getPixelLocation out 1 1) = Fin 50 /\
    r (getPixel out 1 1) = Fin 50.
Proof.
  apply (scenario_center_red (data sample_image) sample_store); reflexivity.
Defined.

(** ** The accumulators are the sums of the design *)

Lemma fold_for_fold_left {A} (f : Z -> A -> A) : forall n start acc,
  fold_for n start f acc = fold_left (fun acc i => f i acc) (zfrom n start) acc.
Proof. induction n as [|n IH]; intros start acc; simpl; [done|apply IH]. Qed.

Lemma fold_left_flat_map {A B C} (f : A -> C -> A) (g : B -> list C) : forall l acc,
  fold_left f (flat_map g l) acc = fold_left (fun acc x => fold_left f (g x) acc) l acc.
Proof.
  induction l as [|x l IH]; intros acc; simpl; [done|].
  by rewrite fold_left_app, IH.
Qed.

Lemma fold_left_pointwise {A B} (f g : A -> B -> A) :
  (forall acc x, f acc x = g acc x) ->
  forall l acc, fold_left f l acc = fold_left g l acc.
Proof.
  intros E. induction l as [|x l IH]; intros acc; simpl; [done|].
  by rewrite E, IH.
Qed.

Lemma sums_of_fold pixels kernel :
  sums_of pixels kernel
  = fold_left (fun sums pk => add_weighted sums (fst pk) (snd pk))
              (visited pixels kernel) (new_Pixel [], new_Pixel []).
Proof.
  unfold sums_of, visited. rewrite fold_for_fold_left, fold_left_flat_map.
  apply fold_left_pointwise. intros sums j.
  rewrite fold_for_fold_left, fold_left_flat_map.
  apply fold_left_pointwise. intros sums' i.
  by destruct (lookup2 pixels j i), (lookup2 kernel j i).
Qed.

Lemma add_weighted_chan c : forall cells sums,
  chan c (fst (fold_left (fun sums pk => add_weighted sums (fst pk) (snd pk)) cells sums))
  = fold_left num_add
      (map (fun pk => num_mul (chan c (fst pk)) (weight (chan c) (snd pk))) cells)
      (chan c (fst sums)) /\
  chan c (snd (fold_left (fun sums pk => add_weighted sums (fst pk) (snd pk)) cells sums))
  = fold_left num_add (map (fun pk => weight (chan c) (snd pk)) cells) (chan c (snd sums)).
Proof.
  induction cells as [|[p k] cells IH]; intros [area_sum kernel_sum];
    cbn [fold_left map fst snd]; [done|].
  destruct (IH (add_weighted (area_sum, kernel_sum) p k)) as [IH1 IH2].
  rewrite IH1, IH2. by destruct c.
Qed.

(** Each channel of the two accumulators is the sum the design writes. *)
Lemma sums_at_design rev imgData ks K h x y c :
  chan c (fst (sums_at rev imgData ks K h x y))
  = weighted_sum c (neighbourhood rev imgData ks K h x y) /\
  chan c (snd (sums_at rev imgData ks K h x y))
  = weight_sum c (neighbourhood rev imgData ks K h x y).
Proof.
  unfold sums_at, neighbourhood, weighted_sum, weight_sum, num_sum.
  rewrite sums_of_fold.
  destruct (add_weighted_chan c
              (visited (pixels (mk_area imgData h x y)) (kernel_at rev imgData ks K h x y))
              (new_Pixel [], new_Pixel [])) as [H1 H2].
  rewrite H1, H2. by destruct c.
Qed.

Lemma out_pixel_design rev imgData ks K h x y c :
  chan c (out_pixel rev imgData ks K h x y)
  = floored_average c (neighbourhood rev imgData ks K h x y).
Proof.
  rewrite out_pixel_chan, stored_channel_id. unfold floored_average.
  destruct (sums_at_design rev imgData ks K h x y c) as [-> ->]. done.
Qed.

(** When the kernel fits, the call returns, and every byte of the returned
    buffer is known: a colour byte is the conversion to a clamped byte of
    the floored average of its channel, the alpha byte is 255. *)
Lemma convolution_output rev imgData ks size s :
  0 < width imgData -> 0 < height imgData ->
  let h := choose_size rev s ks size / 2 in
  kernel_fits rev imgData ks (kernel_array s) h = true ->
  exists out,
    convolution rev (SrcImageData imgData) ks size s
    = (Return out, store_after rev imgData ks s) /\
    width out = width imgData /\ height out = height imgData /\
    length (data out) = Z.to_nat (width imgData * height imgData * 4) /\
    forall x y, in_image imgData x y ->
      typed_get (data out) (getPixelLocation imgData x y + 3) = Fin 255 /\
      forall c,
        typed_get (data out) (getPixelLocation imgData x y + offset c)
        = Fin (ToUint8Clamp
                 (floored_average c (neighbourhood rev imgData ks (kernel_array s) h x y))).
Proof.
  intros Hw Hh h Hfits.
  pose proof (convolution_spec rev imgData ks size s Hw Hh) as Hspec.
  pose proof (convolution_returns rev imgData ks size s Hw Hh) as Hret.
  cbv zeta in Hspec, Hret. fold h in Hspec, Hret.
  destruct (convolution rev (SrcImageData imgData) ks size s) as [[out|e] s'].
  - destruct Hspec as (H1 & H2 & H3 & -> & Hpix).
    exists out. repeat (split; [done|]).
    intros x y Hxy. destruct (Hpix x y Hxy) as [_ Hat]. split.
    + destruct Hat as (_ & _ & _ & Ha). by rewrite out_pixel_alpha in Ha.
    + intros c. rewrite (pixel_at_chan _ _ _ c Hat). by rewrite out_pixel_design.
  - simpl in Hret. destruct Hret as [Hno _]. congruence.
Qed.

(** ** Stored channels *)

(** C7 as stated fails: on the 2x1 image with the kernel row (2, -1) and
    size 3, the floor of the red channel's normalized weighted sum at (0,0)
    is 510, and the byte stored is 255. *)
Lemma stored_channel_is_floor_counterexample :
  let s := mkStore None 5 edge_kernel [] in
  exists out s',
    convolution part_000 (SrcImageData edge_image) KArray (Some 3) s = (Return out, s') /\
    floored_average Red (neighbourhood part_000 edge_image KArray edge_kernel 1 0 0)
    = Fin 510 /\
    typed_get (data out) (getPixelLocation edge_image 0 0) = Fin 255 /\
    typed_get (data out) (getPixelLocation edge_image 0 0)
    <> floored_average Red (neighbourhood part_000 edge_image KArray edge_kernel 1 0 0).
Proof.
  eexists _, _. split; [vm_compute; reflexivity|].
  split; [vm_compute; reflexivity|]. split; [vm_compute; reflexivity|].
  vm_compute. discriminate.
Qed.

(** C7, amended.  When the call returns (the kernel fits), the pixel
    written at every coordinate has alpha 255 whatever the alphas of the
    input, and each colour byte is the floor of that channel's normalized
    weighted sum, the quotient of the two accumulators as the engine
    computes it, clamped to 0..255.  When the accumulators [S] and
    [N <> 0] are below 2^53 in magnitude the byte is
    max 0 (min 255 (floor (S / N))), hence the floor itself when that lies
    in 0..255. *)
Theorem stored_pixel_is_clamped_floor rev imgData ks size s :
  valid_ImageData imgData ->
  let h := choose_size rev s ks size / 2 in
  kernel_fits rev imgData ks (kernel_array s) h = true ->
  exists out s',
    convolution rev (SrcImageData imgData) ks size s = (Return out, s') /\
    forall x y, in_image imgData x y ->
      let cells := neighbourhood rev imgData ks (kernel_array s) h x y in
      typed_get (data out) (getPixelLocation imgData x y + 3) = Fin 255 /\
      forall c,
        typed_get (data out) (getPixelLocation imgData x y + offset c)
        = Fin (ToUint8Clamp (floored_average c cells)) /\
        forall S N, weighted_sum c cells = Fin S -> weight_sum c cells = Fin N -> N <> 0 ->
          Z.abs S < 2 ^ 53 -> Z.abs N < 2 ^ 53 ->
          typed_get (data out) (getPixelLocation imgData x y + offset c)
          = Fin (Z.max 0 (Z.min 255 (S / N))) /\
          (0 <= S / N <= 255 ->
           typed_get (data out) (getPixelLocation imgData x y + offset c) = Fin (S / N)).
Proof.
  intros (Hw & Hh & _) h Hfits.
  destruct (convolution_output rev imgData ks size s Hw Hh Hfits)
    as (out & E & _ & _ & _ & Hpix).
  exists out, (store_after rev imgData ks s). split; [exact E|].
  intros x y Hxy cells. destruct (Hpix x y Hxy) as [Ha Hc]. split; [exact Ha|].
  intros c. specialize (Hc c). fold h cells in Hc. split; [exact Hc|].
  intros S N HS HN HN0 HSb HNb. rewrite Hc. unfold floored_average.
  rewrite HS, HN, floor_div_exact by done. cbn [ToUint8Clamp]. split; [done|].
  intros Hrange. f_equal. lia.
Qed.

Lemma stored_pixel_is_clamped_floor_witness :
  exists out s',
    convolution part_000 (SrcImageData edge_image) KArray (Some 3)
                (mkStore None 5 edge_kernel []) = (Return out, s') /\
    typed_get (data out) (getPixelLocation edge_image 0 0 + 3) = Fin 255 /\
    typed_get (data out) (getPixelLocation edge_image 0 0 + offset Red)
    = Fin (Z.max 0 (Z.min 255 (510 / 1))).
Proof.
  assert (valid_ImageData edge_image) as Hv.
  { unfold valid_ImageData, edge_image; simpl.
    repeat split; try lia. repeat constructor; lia. }
  destruct (stored_pixel_is_clamped_floor part_000 edge_image KArray (Some 3)
              (mkStore None 5 edge_kernel []) Hv ltac:(vm_compute; reflexivity))
    as (out & s' & E & Hpix).
  exists out, s'. split; [exact E|].
  destruct (Hpix 0 0 ltac:(unfold in_image; simpl; lia)) as [Ha Hc].
  split; [exact Ha|].
  destruct (Hc Red) as [_ Hfin].
  apply (Hfin 510 1); [vm_compute; reflexivity|vm_compute; reflexivity|lia|lia|lia].
Defined.

(** ** A zero weight sum *)

(** C4 as stated fails: on a 1x1 image with the kernel [[0]], whose weight
    sum is zero for every channel, the call throws nothing and returns a
    buffer (its colour bytes are 0, from NaN). *)
Lemma degenerate_kernel_rejected_counterexample :
  weight_sum Red (neighbourhood part_000 dot_image KArray zero_kernel 0 0 0) = Fin 0 /\
  fst (convolution part_000 (SrcImageData dot_image) KArray None
         (mkStore None 5 zero_kernel []))
  = Return (mkImageData 1 1 [0; 0; 0; 255]) /\
  fst (convolution convolution_js (SrcImageData dot_image) KArray None
         (mkStore None 5 [[CPix (new_Pixel [Fin 0])]] []))
  = Return (mkImageData 1 1 [0; 0; 0; 255]).
Proof. repeat split; vm_compute; reflexivity. Qed.

(** The weight sum in question is the one the engine accumulates: the
    weights 2^53 - 1, 2, -(2^53 - 1), -2 sum to zero in Z, but 2^53 + 1
    rounds to 2^53 on the way, [kernel_sum] ends as -1, and the byte stored
    is the floor of a finite quotient. *)
Lemma rounded_weight_sum :
  let cells := neighbourhood part_000 flat_image KArray cancelling_kernel 1 0 0 in
  exact_weight_sum Red cells = 0 /\
  weight_sum Red cells = Fin (-1) /\
  weighted_sum Red cells = Fin (-4) /\
  fst (convolution part_000 (SrcImageData flat_image) KArray (Some 3)
         (mkStore None 5 cancelling_kernel []))
  = Return (mkImageData 2 2 (concat (repeat [4; 4; 4; 255] 4))).
Proof. repeat split; vm_compute; reflexivity. Qed.

(** C4, amended.  A kernel whose weight sum for a channel, as the engine
    accumulates it in [kernel_sum], is zero at some coordinate is not
    rejected: the call still returns a buffer whenever the kernel fits, and
    at such a coordinate the byte stored for that channel is 255 when the
    accumulated weighted sum is positive (the quotient is +Infinity) and 0
    otherwise (the quotient is NaN or -Infinity). *)
Theorem zero_weight_sum_is_stored rev imgData ks size s :
  valid_ImageData imgData ->
  let h := choose_size rev s ks size / 2 in
  kernel_fits rev imgData ks (kernel_array s) h = true ->
  exists out s',
    convolution rev (SrcImageData imgData) ks size s = (Return out, s') /\
    forall x y c, in_image imgData x y ->
      let cells := neighbourhood rev imgData ks (kernel_array s) h x y in
      weight_sum c cells = Fin 0 ->
      typed_get (data out) (getPixelLocation imgData x y + offset c)
      = Fin (if positive (weighted_sum c cells) then 255 else 0).
Proof.
  intros (Hw & Hh & _) h Hfits.
  destruct (convolution_output rev imgData ks size s Hw Hh Hfits)
    as (out & E & _ & _ & _ & Hpix).
  exists out, (store_after rev imgData ks s). split; [exact E|].
  intros x y c Hxy cells HN. destruct (Hpix x y Hxy) as [_ Hc].
  rewrite (Hc c). fold h cells. unfold floored_average. rewrite HN. f_equal.
  destruct (weighted_sum c cells) as [S|m e| | |]; cbn; try done.
  - destruct (Z.eqb_spec S 0) as [->|_]; [done|]. by destruct (Z.ltb_spec 0 S).
  - destruct (Z.eqb_spec m 0) as [->|_]; [done|]. by destruct (Z.ltb_spec 0 m).
Qed.

Lemma zero_weight_sum_is_stored_witness :
  exists out s',
    convolution part_000 (SrcImageData dot_image) KArray None
                (mkStore None 5 zero_kernel []) = (Return out, s') /\
    typed_get (data out) (getPixelLocation dot_image 0 0 + offset Red) = Fin 0.
Proof.
  assert (valid_ImageData dot_image) as Hv.
  { unfold valid_ImageData, dot_image; simpl.
    repeat split; try lia. repeat constructor; lia. }
  destruct (zero_weight_sum_is_stored part_000 dot_image KArray None
              (mkStore None 5 zero_kernel []) Hv ltac:(vm_compute; reflexivity))
    as (out & s' & E & Hpix).
  exists out, s'. split; [exact E|].
  apply (Hpix 0 0 Red ltac:(unfold in_image; simpl; lia) ltac:(vm_compute; reflexivity)).
Defined.

(** ** Two calls compared *)

(** A buffer is determined by its pixels. *)
Lemma buffer_ext imgData (d1 d2 : list Z) :
  0 < width imgData -> 0 < height imgData ->
  length d1 = Z.to_nat (width imgData * height imgData * 4) ->
  length d2 = Z.to_nat (width imgData * height imgData * 4) ->
  (forall x y, in_image imgData x y ->
     exists p, pixel_at d1 (getPixelLocation imgData x y) p /\
               pixel_at d2 (getPixelLocation imgData x y) p) ->
  d1 = d2.
Proof.
  intros Hw Hh Hl1 Hl2 Hpix. apply list_eq. intros i.
  destruct (Nat.lt_ge_cases i (length d1)) as [Hi|Hi].
  2: { rewrite !lookup_ge_None_2; [done|lia|lia]. }
  set (z := Z.of_nat i). set (n := z / 4). set (k := z mod 4).
  set (x := n mod width imgData). set (y := n / width imgData).
  assert (z = 4 * n + k /\ 0 <= k < 4) as [Ez Hk].
  { subst n k. pose proof (Z.div_mod z 4 ltac:(lia)).
    pose proof (Z.mod_pos_bound z 4 ltac:(lia)). lia. }
  assert (n = width imgData * y + x /\ 0 <= x < width imgData) as [En Hx].
  { subst x y. pose proof (Z.div_mod n (width imgData) ltac:(lia)).
    pose proof (Z.mod_pos_bound n (width imgData) ltac:(lia)). lia. }
  assert (0 <= n < width imgData * height imgData) as Hn by lia.
  assert (0 <= y < height imgData) as Hy.
  { subst y. split; [apply Z.div_pos; lia|].
    apply Z.div_lt_upper_bound; lia. }
  destruct (Hpix x y (conj Hx Hy)) as (p & (A0 & A1 & A2 & A3) & (B0 & B1 & B2 & B3)).
  assert (getPixelLocation imgData x y = 4 * n) as Epl.
  { unfold getPixelLocation. lia. }
  rewrite Epl in *.
  assert (typed_get d1 z = typed_get d2 z) as E.
  { assert (k = 0 \/ k = 1 \/ k = 2 \/ k = 3) as [Ek|[Ek|[Ek|Ek]]] by lia;
      rewrite Ez, Ek; try rewrite Z.add_0_r; congruence. }
  unfold typed_get in E. destruct (Z.ltb_spec z 0); [lia|].
  subst z. rewrite Nat2Z.id in E.
  destruct (lookup_lt_is_Some_2 d1 i ltac:(lia)) as [v1 E1].
  destruct (lookup_lt_is_Some_2 d2 i ltac:(lia)) as [v2 E2].
  rewrite E1, E2 in *. congruence.
Qed.

(** Two calls on the same image whose turns succeed at the same
    coordinates and then write the same pixels end alike. *)
Lemma convolution_outcome_ext imgData rev1 ks1 size1 s1 rev2 ks2 size2 s2 :
  0 < width imgData -> 0 < height imgData ->
  (forall x y, in_image imgData x y ->
     pixel_ok rev1 imgData ks1 (kernel_array s1) (choose_size rev1 s1 ks1 size1 / 2) x y
     = pixel_ok rev2 imgData ks2 (kernel_array s2) (choose_size rev2 s2 ks2 size2 / 2) x y /\
     (pixel_ok rev1 imgData ks1 (kernel_array s1) (choose_size rev1 s1 ks1 size1 / 2) x y = true ->
      out_pixel rev1 imgData ks1 (kernel_array s1) (choose_size rev1 s1 ks1 size1 / 2) x y
      = out_pixel rev2 imgData ks2 (kernel_array s2) (choose_size rev2 s2 ks2 size2 / 2) x y)) ->
  fst (convolution rev1 (SrcImageData imgData) ks1 size1 s1)
  = fst (convolution rev2 (SrcImageData imgData) ks2 size2 s2).
Proof.
  intros Hw Hh Hsame.
  pose proof (convolution_spec rev1 imgData ks1 size1 s1 Hw Hh) as H1.
  pose proof (convolution_spec rev2 imgData ks2 size2 s2 Hw Hh) as H2.
  cbv zeta in H1, H2.
  destruct (convolution rev1 (SrcImageData imgData) ks1 size1 s1) as [[out1|e1] s1'],
           (convolution rev2 (SrcImageData imgData) ks2 size2 s2) as [[out2|e2] s2']; simpl.
  - destruct H1 as (W1 & Hg1 & L1 & _ & P1), H2 as (W2 & Hg2 & L2 & _ & P2).
    assert (data out1 = data out2) as Ed.
    { apply (buffer_ext imgData); try done.
      intros x y Hxy. destruct (P1 x y Hxy) as [Ok1 At1], (P2 x y Hxy) as [Ok2 At2].
      destruct (Hsame x y Hxy) as [_ Eout]. rewrite <- (Eout Ok1) in At2. eauto. }
    destruct out1, out2; simpl in *. congruence.
  - destruct H2 as (_ & _ & x & y & Hxy & Hno).
    destruct H1 as (_ & _ & _ & _ & P1). destruct (P1 x y Hxy) as [Ok1 _].
    destruct (Hsame x y Hxy) as [E _]. congruence.
  - destruct H1 as (_ & _ & x & y & Hxy & Hno).
    destruct H2 as (_ & _ & _ & _ & P2). destruct (P2 x y Hxy) as [Ok2 _].
    destruct (Hsame x y Hxy) as [E _]. congruence.
  - destruct H1 as (-> & _), H2 as (-> & _). done.
Qed.

Lemma convolution_invalid_size rev d ks size s :
  ~ (0 < width d /\ 0 < height d) ->
  fst (convolution rev (SrcImageData d) ks size s) = Throw IndexSizeError.
Proof.
  intros Hno. unfold convolution, bind, ret, get_store, put_store, new_ImageData.
  destruct (Z.leb_spec (width d) 0); [done|].
  destruct (Z.leb_spec (height d) 0); [done|]. lia.
Qed.

(** ** Scalar kernel promotion *)

Lemma promote_bare_rows : forall kernel,
  all_bare kernel = true -> map (map promote_cell) kernel = explicit kernel.
Proof.
  unfold explicit. induction kernel as [|row rows IH]; simpl; [done|].
  rewrite andb_true_iff. intros [Hrow Hrows]. rewrite IH by done. f_equal.
  clear IH Hrows. induction row as [|c row IHr]; simpl in *; [done|].
  apply andb_true_iff in Hrow as [Hc Hrow]. rewrite IHr by done.
  by destruct c.
Qed.

Lemma first_cell_ok_explicit kernel :
  first_cell_ok part_000 (explicit kernel) = first_cell_ok part_000 kernel.
Proof. by destruct kernel as [|[|[n|p] row] rows]. Qed.

Lemma normalize_explicit kernel :
  all_bare kernel = true -> first_cell_ok part_000 kernel = true ->
  normalize part_000 (explicit kernel) = normalize part_000 kernel.
Proof.
  intros Hbare Hok. pose proof (promote_bare_rows kernel Hbare) as Hp.
  destruct kernel as [|[|[n|p] row] rows]; done.
Qed.

Lemma raw_kernel_explicit ks K area :
  raw_kernel (explicit_source ks) (explicit K) area = explicit (raw_kernel ks K area).
Proof. by destruct ks. Qed.

Lemma choose_size_explicit ks size s :
  choose_size part_000 (set_kernel_array s (explicit (kernel_array s)))
              (explicit_source ks) size
  = choose_size part_000 s ks size.
Proof.
  unfold choose_size, default_size, explicit.
  destruct ks; simpl; by rewrite ?length_map.
Qed.

(** X20 (scalar kernel promotion in part_000).  A kernel source whose
    cells are all bare numbers gives the same outcome, hence the same r, g
    and b bytes at every coordinate, as the source whose every cell [n] is
    replaced by the Pixel weight (n, n, n, 255): be it the caller's array or
    a kernel function, on any image source and with any size.  Grids are
    values here: the rows of the array are arrays of their own. *)
Theorem bare_kernel_as_explicit source ks size s :
  (forall area, all_bare (raw_kernel ks (kernel_array s) area) = true) ->
  fst (convolution part_000 source ks size s)
  = fst (convolution part_000 source (explicit_source ks) size
           (set_kernel_array s (explicit (kernel_array s)))).
Proof.
  intros Hbare. destruct source as [|d|name|]; [done| |done|done].
  destruct (Z_lt_dec 0 (width d)) as [Hw|Hw], (Z_lt_dec 0 (height d)) as [Hh|Hh];
    try (rewrite !convolution_invalid_size by lia; done).
  apply convolution_outcome_ext; [done|done|].
  intros x y Hxy. rewrite choose_size_explicit.
  set (h := choose_size part_000 s ks size / 2).
  unfold pixel_ok, out_pixel, sums_at, kernel_at.
  cbn [kernel_array set_kernel_array].
  rewrite !raw_kernel_explicit, first_cell_ok_explicit.
  specialize (Hbare (mk_area d h x y)).
  destruct (first_cell_ok part_000 (raw_kernel ks (kernel_array s) (mk_area d h x y)))
    eqn:Hok.
  - rewrite (normalize_explicit _ Hbare Hok). done.
  - done.
Qed.

Lemma bare_kernel_as_explicit_witness :
  fst (convolution part_000 (SrcImageData sample_image) KArray (Some 3) sample_store)
  = fst (convolution part_000 (SrcImageData sample_image) KArray (Some 3)
           (mkStore None 5
              (repeat (repeat (CPix (mkPixel (Fin 1) (Fin 1) (Fin 1) (Fin 255))) 3) 3) [])).
Proof.
  apply (bare_kernel_as_explicit (SrcImageData sample_image) KArray (Some 3) sample_store).
  intros area. reflexivity.
Defined.

(** C5 (scalar kernel promotion) fails in src/convolution.js, which has no
    promotion.  On the scenario image with size 3, the kernel of bare ones
    gives NaN in every sum there, and every colour byte is 0, while the
    same kernel written as Pixel weights (1, 1, 1, 255) gives the reds 30,
    35, ..., 70; part_000 gives these for both kernels. *)
Theorem bare_kernel_unpromoted_in_convolution_js :
  let explicit_store := mkStore None 5 (explicit ones_kernel) [] in
  let means := mkImageData 3 3
       [30; 0; 0; 255;  35; 0; 0; 255;  40; 0; 0; 255;
        45; 0; 0; 255;  50; 0; 0; 255;  55; 0; 0; 255;
        60; 0; 0; 255;  65; 0; 0; 255;  70; 0; 0; 255] in
  all_bare ones_kernel = true /\
  fst (convolution convolution_js (SrcImageData sample_image) KArray (Some 3) sample_store)
  = Return (mkImageData 3 3 (concat (repeat [0; 0; 0; 255] 9))) /\
  fst (convolution convolution_js (SrcImageData sample_image) KArray (Some 3) explicit_store)
  = Return means /\
  fst (convolution part_000 (SrcImageData sample_image) KArray (Some 3) sample_store)
  = Return means /\
  fst (convolution part_000 (SrcImageData sample_image) KArray (Some 3) explicit_store)
  = Return means.
Proof. repeat split; vm_compute; reflexivity. Qed.

(** ** What a call leaves behind *)

Lemma normalize_length rev kernel : length (normalize rev kernel) = length kernel.
Proof.
  destruct rev; simpl; [|done].
  destruct (first_cell_is_Number kernel) as [[|]|]; by rewrite ?length_map.
Qed.

Lemma choose_size_reads rev ks size s1 s2 :
  kernel_size s1 = kernel_size s2 ->
  length (kernel_array s1) = length (kernel_array s2) ->
  choose_size rev s1 ks size = choose_size rev s2 ks size.
Proof.
  intros E1 E2. unfold choose_size, default_size. rewrite E1, E2. done.
Qed.

(** C8 as stated fails: the call of the scenario leaves the store changed;
    the global [CONV_IMG_DATA], unset before, holds the input image, and the
    caller's kernel array holds other cells than before.  The other
    revision sets the global too. *)
Lemma convolution_is_pure_counterexample :
  let s' := snd (convolution part_000 (SrcImageData sample_image) KArray (Some 3)
                   sample_store) in
  s' <> sample_store /\
  CONV_IMG_DATA sample_store = None /\ CONV_IMG_DATA s' = Some sample_image /\
  kernel_array s' <> kernel_array sample_store /\
  CONV_IMG_DATA (snd (convolution convolution_js (SrcImageData sample_image) KArray
                        (Some 3) sample_store)) = Some sample_image.
Proof.
  vm_compute. repeat split; try discriminate; reflexivity.
Qed.

(** C8, amended.  The outcome of a call on a valid image (the returned
    buffer, or the exception) depends on the store through the caller's
    kernel array and the default size alone, so two runs on equal inputs
    end alike, also when the second run starts from the store the first one
    left.  The call is not without effect outside: it leaves the input
    image in [CONV_IMG_DATA], the caller's array promoted as [kernel_after]
    says, the default size as it was, and the console with at most more
    lines; a call that returns leaves the console as it was. *)
Theorem convolution_effects rev imgData ks size s :
  valid_ImageData imgData ->
  let run := convolution rev (SrcImageData imgData) ks size in
  (forall s2, kernel_array s2 = kernel_array s -> kernel_size s2 = kernel_size s ->
     fst (run s2) = fst (run s)) /\
  fst (run (snd (run s))) = fst (run s) /\
  logged (store_after rev imgData ks s) (snd (run s)) /\
  (forall out s', run s = (Return out, s') -> s' = store_after rev imgData ks s).
Proof.
  intros (Hw & Hh & _) run. subst run.
  pose proof (convolution_store rev imgData ks size s Hw Hh) as Hl.
  split; [|split; [|split]].
  - intros s2 EK Es. apply convolution_outcome_ext; [done|done|].
    intros x y Hxy.
    rewrite (choose_size_reads rev ks size s2 s) by congruence.
    by rewrite EK.
  - destruct Hl as (_ & Es & EK & _). simpl in Es, EK.
    apply convolution_outcome_ext; [done|done|].
    intros x y Hxy.
    rewrite (choose_size_reads rev ks size _ s);
      [|done|rewrite EK; destruct ks; simpl; [apply normalize_length|done]].
    rewrite EK. by rewrite pixel_ok_after, out_pixel_after.
  - exact Hl.
  - intros out s' E.
    pose proof (convolution_spec rev imgData ks size s Hw Hh) as H.
    cbv zeta in H. rewrite E in H. by destruct H as (_ & _ & _ & -> & _).
Qed.

Lemma convolution_effects_witness :
  let run := convolution part_000 (SrcImageData sample_image) KArray (Some 3) in
  fst (run (snd (run sample_store))) = fst (run sample_store) /\
  CONV_IMG_DATA (snd (run sample_store)) = Some sample_image.
Proof.
  destruct (convolution_effects part_000 sample_image KArray (Some 3) sample_store
              sample_image_valid) as (_ & Hagain & Hl & _).
  split; [exact Hagain|]. destruct Hl as (Hc & _). exact Hc.
Defined.

(** ** Ranges *)

Lemma zfrom_length : forall n start, length (zfrom n start) = n.
Proof. induction n as [|n IH]; intros start; simpl; [done|by rewrite IH]. Qed.

Lemma zfrom_In : forall n start i,
  In i (zfrom n start) <-> start <= i < start + Z.of_nat n.
Proof.
  induction n as [|n IH]; intros start i; simpl; [lia|].
  rewrite IH. lia.
Qed.

Lemma zfrom_app : forall n m start,
  zfrom (n + m) start = zfrom n start ++ zfrom m (start + Z.of_nat n).
Proof.
  induction n as [|n IH]; intros m start; simpl.
  - by rewrite Z.add_0_r.
  - rewrite IH. do 3 f_equal. lia.
Qed.

Lemma zrange_zfrom lo hi : zrange lo hi = zfrom (Z.to_nat (hi - lo + 1)) lo.
Proof.
  unfold zrange. generalize (Z.to_nat (hi - lo + 1)) as n. intros n.
  revert lo. induction n as [|n IH]; intros lo; simpl; [done|].
  rewrite Z.add_0_r. f_equal. rewrite <- IH, <- seq_shift, map_map.
  apply map_ext. intros k. lia.
Qed.

Lemma flat_map_pointwise {A B} (f g : A -> list B) l :
  (forall x, In x l -> f x = g x) -> flat_map f l = flat_map g l.
Proof.
  induction l as [|x l IH]; intros E; simpl; [done|].
  rewrite E by (by left). rewrite IH; [done|]. intros x' Hx'. apply E. by right.
Qed.

Lemma flat_map_nil {A B} (f : A -> list B) l :
  (forall x, In x l -> f x = []) -> flat_map f l = [].
Proof.
  induction l as [|x l IH]; intros E; simpl; [done|].
  rewrite E by (by left). apply IH. intros x' Hx'. apply E. by right.
Qed.

Lemma flat_map_singleton {A B} (f : A -> B) l :
  flat_map (fun x => [f x]) l = map f l.
Proof. induction l as [|x l IH]; simpl; [done|by rewrite IH]. Qed.

(** Keeping, among 0..n-1, the indices between [lo] and [hi]. *)
Lemma flat_map_interval {B} (f : Z -> list B) (n lo hi : Z) :
  0 <= lo -> hi < n ->
  flat_map (fun i => if (lo <=? i) && (i <=? hi) then f i else [])
           (zfrom (Z.to_nat n) 0)
  = flat_map f (zfrom (Z.to_nat (hi - lo + 1)) lo).
Proof.
  intros Hlo Hhi.
  destruct (Z_lt_dec hi lo) as [Hempty|Hne].
  - replace (Z.to_nat (hi - lo + 1)) with 0%nat by lia. simpl.
    apply flat_map_nil. intros i _.
    destruct (Z.leb_spec lo i), (Z.leb_spec i hi); simpl; try done. lia.
  - replace (Z.to_nat n)
      with (Z.to_nat lo + (Z.to_nat (hi - lo + 1) + Z.to_nat (n - hi - 1)))%nat by lia.
    rewrite !zfrom_app, !flat_map_app.
    rewrite (flat_map_nil _ (zfrom (Z.to_nat lo) 0)).
    2: { intros i Hi. apply zfrom_In in Hi.
         destruct (Z.leb_spec lo i); simpl; [lia|done]. }
    rewrite (flat_map_nil _ (zfrom (Z.to_nat (n - hi - 1)) _)).
    2: { intros i Hi. apply zfrom_In in Hi.
         destruct (Z.leb_spec lo i), (Z.leb_spec i hi); simpl; try done. lia. }
    rewrite app_nil_r. simpl. replace (0 + Z.of_nat (Z.to_nat lo)) with lo by lia.
    apply flat_map_pointwise. intros i Hi. apply zfrom_In in Hi.
    destruct (Z.leb_spec lo i), (Z.leb_spec i hi); simpl; try done; lia.
Qed.

(** The pixel grid of the area, row after row, is the in-bounds window. *)
Lemma area_pixels_window imgData h x y :
  concat (pixels (mk_area imgData h x y)) = window imgData h x y.
Proof.
  unfold mk_area, window. cbn [pixels].
  set (l := if x - h <? 0 then 0 else x - h).
  set (rr := if x + h >=? width imgData then width imgData - 1 else x + h).
  set (t := if y - h <? 0 then 0 else y - h).
  set (bb := if y + h >=? height imgData then height imgData - 1 else y + h).
  assert (0 <= l) as Hl0 by (subst l; destruct (Z.ltb_spec (x - h) 0); lia).
  assert (rr < width imgData \/ width imgData <= 0) as Hr.
  { subst rr. destruct (Z.geb_spec (x + h) (width imgData)); lia. }
  assert (0 <= t) as Ht0 by (subst t; destruct (Z.ltb_spec (y - h) 0); lia).
  assert (bb < height imgData \/ height imgData <= 0) as Hb.
  { subst bb. destruct (Z.geb_spec (y + h) (height imgData)); lia. }
  rewrite <- flat_map_concat_map, !zrange_zfrom.
  transitivity
    (flat_map (fun ay => if (t <=? ay) && (ay <=? bb)
                         then map (fun ax => getPixel imgData ax ay)
                                  (zfrom (Z.to_nat (rr - l + 1)) l)
                         else [])
              (zfrom (Z.to_nat (height imgData)) 0)).
  - destruct Hb as [Hb|Hb].
    + by rewrite (flat_map_interval _ (height imgData) t bb).
    + replace (Z.to_nat (height imgData)) with 0%nat by lia.
      replace (Z.to_nat (bb - t + 1)) with 0%nat; [done|].
      subst bb t. destruct (Z.ltb_spec (y - h) 0), (Z.geb_spec (y + h) (height imgData)); lia.
  - apply flat_map_pointwise. intros ay Hay. apply zfrom_In in Hay.
    assert ((t <=? ay) && (ay <=? bb) = (Z.abs (ay - y) <=? h)) as Erow.
    { subst t bb.
      destruct (Z.ltb_spec (y - h) 0), (Z.geb_spec (y + h) (height imgData)),
               (Z.leb_spec (Z.abs (ay - y)) h);
        rewrite ?andb_true_iff, ?andb_false_iff, ?Z.leb_le, ?Z.leb_gt; lia. }
    rewrite Erow. destruct (Z.abs (ay - y) <=? h).
    + rewrite <- flat_map_singleton.
      destruct Hr as [Hr|Hr].
      * rewrite <- (flat_map_interval _ (width imgData) l rr) by done.
        apply flat_map_pointwise. intros ax Hax. apply zfrom_In in Hax.
        rewrite andb_true_r.
        assert ((l <=? ax) && (ax <=? rr) = (Z.abs (ax - x) <=? h)) as ->; [|done].
        subst l rr.
        destruct (Z.ltb_spec (x - h) 0), (Z.geb_spec (x + h) (width imgData)),
                 (Z.leb_spec (Z.abs (ax - x)) h);
          rewrite ?andb_true_iff, ?andb_false_iff, ?Z.leb_le, ?Z.leb_gt; lia.
      * replace (Z.to_nat (width imgData)) with 0%nat by lia.
        replace (Z.to_nat (rr - l + 1)) with 0%nat; [done|].
        subst rr l.
        destruct (Z.ltb_spec (x - h) 0), (Z.geb_spec (x + h) (width imgData)); lia.
    + symmetry. apply flat_map_nil. intros ax _. by rewrite andb_false_r.
Qed.

(** ** The visited cells *)

Lemma map_flat_map {A B C} (f : B -> C) (g : A -> list B) l :
  map f (flat_map g l) = flat_map (fun x => map f (g x)) l.
Proof.
  induction l as [|x l IH]; simpl; [done|]. by rewrite map_app, IH.
Qed.

Lemma flat_map_rows {A} (l : list (list A)) : flat_map (fun row => row) l = concat l.
Proof. induction l as [|x l IH]; simpl; [done|by rewrite IH]. Qed.

(** Reading a list index by index gives the list back. *)
Lemma lookups_collect {A B} (f : A -> list B) : forall (l pre : list A),
  flat_map (fun j => match (pre ++ l) !! Z.to_nat j with
                     | Some x => f x
                     | None => []
                     end)
           (zfrom (length l) (Z.of_nat (length pre)))
  = flat_map f l.
Proof.
  induction l as [|x l IH]; intros pre; simpl; [done|].
  rewrite Nat2Z.id, list_lookup_middle by done. f_equal.
  specialize (IH (pre ++ [x])).
  rewrite <- app_assoc, length_app in IH. simpl in IH.
  rewrite <- IH. do 2 f_equal. lia.
Qed.

Lemma covers_spec pixels kernel :
  covers pixels kernel = true ->
  forall j i, 0 <= j < Z.of_nat (length pixels) -> 0 <= i < Z.of_nat (columns pixels) ->
    exists p k, lookup2 pixels j i = Some p /\ lookup2 kernel j i = Some k.
Proof.
  unfold covers. rewrite all_for_spec. intros H j i Hj Hi.
  specialize (H j ltac:(lia)). rewrite all_for_spec in H.
  specialize (H i ltac:(lia)).
  destruct (lookup2 pixels j i) as [p|], (lookup2 kernel j i) as [k|]; try done.
  eauto.
Qed.

(** When the kernel covers a rectangular grid of pixels, the pixels visited
    are those of the grid, row after row. *)
Lemma visited_pixels pixels kernel :
  covers pixels kernel = true ->
  Forall (fun row => length row = columns pixels) pixels ->
  map fst (visited pixels kernel) = concat pixels.
Proof.
  intros Hcov Hrect. pose proof (covers_spec _ _ Hcov) as Hc.
  unfold visited. rewrite map_flat_map, <- flat_map_rows.
  rewrite <- (lookups_collect (fun row : list Pixel => row) pixels []). simpl.
  apply flat_map_pointwise. intros j Hj. apply zfrom_In in Hj.
  rewrite map_flat_map.
  destruct (pixels !! Z.to_nat j) as [row|] eqn:Erow.
  2: { apply lookup_ge_None_1 in Erow. lia. }
  assert (length row = columns pixels) as Hlen.
  { rewrite Forall_forall in Hrect. apply Hrect. by eapply list_elem_of_lookup_2. }
  transitivity (flat_map (fun p : Pixel => [p]) row);
    [|by rewrite flat_map_singleton, map_id].
  rewrite <- (lookups_collect (fun p : Pixel => [p]) row []). simpl. rewrite Hlen.
  apply flat_map_pointwise. intros i Hi. apply zfrom_In in Hi.
  destruct (Hc j i ltac:(lia) ltac:(lia)) as (p & k & Ep & Ek).
  rewrite Ep, Ek. simpl. unfold lookup2 in Ep. rewrite Erow in Ep. by rewrite Ep.
Qed.

Lemma mk_area_rectangular imgData h x y :
  Forall (fun row => length row = columns (pixels (mk_area imgData h x y)))
         (pixels (mk_area imgData h x y)).
Proof.
  unfold mk_area, columns. cbn [pixels].
  set (cols := zrange _ _). set (rows := zrange _ _).
  apply Forall_forall. intros row Hrow.
  apply (list_elem_of_fmap_1 _ _ _) in Hrow as (ay & -> & Hay).
  destruct rows as [|ay0 rows]; [by apply elem_of_nil in Hay|].
  simpl. by rewrite !length_map.
Qed.

(** The pixels of a turn whose kernel covers the area are the in-bounds
    window around the coordinate. *)
Lemma neighbourhood_window rev imgData ks K h x y :
  pixel_ok rev imgData ks K h x y = true ->
  map fst (neighbourhood rev imgData ks K h x y) = window imgData h x y.
Proof.
  unfold pixel_ok, neighbourhood, kernel_at. intros Hok.
  apply andb_true_iff in Hok as [_ Hcov].
  rewrite visited_pixels; [apply area_pixels_window|done|apply mk_area_rectangular].
Qed.

(** ** Uniform kernels *)

Lemma typed_get_valid imgData i :
  valid_ImageData imgData -> 0 <= i < width imgData * height imgData * 4 ->
  exists v, typed_get (data imgData) i = Fin v /\ 0 <= v <= 255.
Proof.
  intros (_ & _ & Hlen & Hbytes) Hi. unfold typed_get.
  destruct (Z.ltb_spec i 0); [lia|].
  destruct (lookup_lt_is_Some_2 (data imgData) (Z.to_nat i) ltac:(lia)) as [v Ev].
  rewrite Ev. exists v. split; [done|].
  rewrite Forall_forall in Hbytes. apply Hbytes. by eapply list_elem_of_lookup_2.
Qed.

Lemma getPixel_valid imgData x y c :
  valid_ImageData imgData -> in_image imgData x y ->
  exists v, chan c (getPixel imgData x y) = Fin v /\ 0 <= v <= 255.
Proof.
  intros Hv [Hx Hy]. unfold getPixel. cbn [new_Pixel].
  assert (0 <= getPixelLocation imgData x y /\
          getPixelLocation imgData x y + 3 < width imgData * height imgData * 4) as Hpl.
  { unfold getPixelLocation. nia. }
  destruct c; cbn [chan r g b]; apply typed_get_valid; try done; lia.
Qed.

Lemma window_valid imgData h x y c p :
  valid_ImageData imgData -> In p (window imgData h x y) ->
  exists v, chan c p = Fin v /\ 0 <= v <= 255.
Proof.
  intros Hv Hin. unfold window in Hin.
  apply in_flat_map in Hin as (ay & Hay & Hin). apply zfrom_In in Hay.
  apply in_flat_map in Hin as (ax & Hax & Hin). apply zfrom_In in Hax.
  destruct (_ && _); [|done]. destruct Hin as [<-|[]].
  apply getPixel_valid; [done|]. unfold in_image. lia.
Qed.

Lemma zsum_bounds (l : list Z) :
  (forall v, In v l -> 0 <= v <= 255) ->
  0 <= zsum l <= 255 * Z.of_nat (length l).
Proof.
  induction l as [|v l IH]; intros H; simpl; [lia|].
  pose proof (H v ltac:(by left)). specialize (IH ltac:(intros; apply H; by right)).
  lia.
Qed.

(** With one weight [w] for the channel at every visited cell, the sums in
    Z are [w] times the sum of the channel and [w] times the count. *)
Lemma uniform_exact c w : forall cells,
  uniform_weight c w cells = true ->
  finite_weight c cells = true /\
  exact_weighted_sum c cells
  = w * zsum (map (fun p => byte_value (chan c p)) (map fst cells)) /\
  exact_weight_sum c cells = w * Z.of_nat (length cells) /\
  weight_mass c cells = Z.abs w * Z.of_nat (length cells).
Proof.
  unfold exact_weighted_sum, exact_weight_sum, weight_mass, channel_value, weight_value.
  induction cells as [|[p k] cells IH]; intros Hu.
  - cbn. repeat split; lia.
  - cbn [uniform_weight forallb snd] in Hu. apply andb_true_iff in Hu as [Hk Hu].
    destruct (weight (chan c) k) as [z|fm fe| | |] eqn:Ew; try done.
    apply Z.eqb_eq in Hk as ->.
    destruct (IH Hu) as (Hf & E1 & E2 & E3).
    cbn [finite_weight forallb map fst snd length]. rewrite !zsum_cons, Ew, E1, E2, E3.
    cbn [byte_value]. split; [exact Hf|]. repeat split; lia.
Qed.

(** The pixels a turn visits hold bytes. *)
Lemma neighbourhood_channels rev imgData ks K h x y c :
  valid_ImageData imgData -> in_image imgData x y ->
  pixel_ok rev imgData ks K h x y = true ->
  forall pk, In pk (neighbourhood rev imgData ks K h x y) ->
    exists v, chan c (fst pk) = Fin v /\ 0 <= v <= 255.
Proof.
  intros Hv Hxy Hok pk Hin.
  apply (window_valid imgData h x y c (fst pk) Hv).
  rewrite <- (neighbourhood_window rev imgData ks K h x y) by done.
  by apply in_map.
Qed.

(** C3 as stated fails for weights that make the sums round: with the
    weight 3002399751580331 in every cell of the 3x3 kernel, the four
    in-bounds reds 10, 20, 40, 50 of the corner (0,0) have the floored
    mean 30, and the byte stored is 29. *)
Lemma uniform_kernel_is_mean_counterexample :
  let s := mkStore None 5 heavy_kernel [] in
  let cells := neighbourhood part_000 sample_image KArray heavy_kernel 1 0 0 in
  uniform_weight Red heavy_weight cells = true /\
  channel_mean Red (window sample_image 1 0 0) = 30 /\
  exists out s',
    convolution part_000 (SrcImageData sample_image) KArray (Some 3) s = (Return out, s') /\
    typed_get (data out) (getPixelLocation sample_image 0 0 + offset Red) = Fin 29 /\
    typed_get (data out) (getPixelLocation sample_image 0 0 + offset Red)
    <> Fin (channel_mean Red (window sample_image 1 0 0)).
Proof.
  split; [vm_compute; reflexivity|]. split; [vm_compute; reflexivity|].
  eexists _, _. split; [vm_compute; reflexivity|].
  split; [vm_compute; reflexivity|]. vm_compute. discriminate.
Qed.

(** A fractional weight rounds as well: with 1/9, as binary64 has it, in
    every cell, the byte stored at the edge pixel (1,0) is 34 and at the
    centre 49, the floored means being 35 and 50. *)
Lemma uniform_ninth_rounds :
  fst (convolution part_000 (SrcImageData sample_image) KArray (Some 3)
         (mkStore None 5 ninth_kernel []))
  = Return (mkImageData 3 3
              [30; 0; 0; 255;  34; 0; 0; 255;  40; 0; 0; 255;
               44; 0; 0; 255;  49; 0; 0; 255;  55; 0; 0; 255;
               60; 0; 0; 255;  64; 0; 0; 255;  70; 0; 0; 255]).
Proof. vm_compute. reflexivity. Qed.

(** C3 (edge normalization), amended.  On a valid image, when the kernel
    fits and the weights applied at a coordinate for a channel are all one
    non-zero integer [w] (a uniform kernel of the neighbourhood's shape),
    small enough for 255 |w| times the number of in-bounds pixels to stay
    below 2^53, the byte stored for that channel is the floored arithmetic
    mean of the channel over the pixels of the (2h+1) x (2h+1) window that
    lie inside the image, and the divisor is the sum of the weights
    applied, [w] times the number of those pixels; at a corner these are
    fewer than the full window. *)
Theorem uniform_kernel_is_mean rev imgData ks size s x y c w :
  valid_ImageData imgData ->
  let h := choose_size rev s ks size / 2 in
  let cells := neighbourhood rev imgData ks (kernel_array s) h x y in
  kernel_fits rev imgData ks (kernel_array s) h = true ->
  in_image imgData x y ->
  w <> 0 ->
  uniform_weight c w cells = true ->
  255 * Z.abs w * Z.of_nat (length (window imgData h x y)) < 2 ^ 53 ->
  exists out s',
    convolution rev (SrcImageData imgData) ks size s = (Return out, s') /\
    typed_get (data out) (getPixelLocation imgData x y + offset c)
    = Fin (channel_mean c (window imgData h x y)) /\
    map fst cells = window imgData h x y /\
    weight_sum c cells = Fin (w * Z.of_nat (length (window imgData h x y))).
Proof.
  intros Hv h cells Hfits Hxy Hw Hu Hbound.
  pose proof Hv as (Hwd & Hht & Hrest).
  destruct (convolution_output rev imgData ks size s Hwd Hht Hfits)
    as (out & E & _ & _ & _ & Hpix).
  exists out, (store_after rev imgData ks s). split; [exact E|].
  assert (pixel_ok rev imgData ks (kernel_array s) h x y = true) as Hok
      by (by apply kernel_fits_spec).
  assert (map fst cells = window imgData h x y) as Ewin
      by (by apply neighbourhood_window).
  destruct (uniform_exact c w cells Hu) as (Hfin & ES & EN & EM).
  rewrite Ewin in ES. rewrite <- (length_map fst), Ewin in EN, EM.
  destruct (exact_sums c cells
              (neighbourhood_channels rev imgData ks (kernel_array s) h x y c Hv Hxy Hok)
              Hfin ltac:(rewrite EM; lia)) as (HS & HN & HSb & HNb).
  rewrite ES in HS, HSb. rewrite EN in HN, HNb.
  split; [|split; [done|exact HN]].
  destruct (Hpix x y Hxy) as [_ Hc]. rewrite (Hc c). fold h cells.
  unfold floored_average. rewrite HS, HN. unfold channel_mean.
  set (S := zsum (map (fun p => byte_value (chan c p)) (window imgData h x y))) in *.
  set (n := Z.of_nat (length (window imgData h x y))) in *.
  assert (0 <= S <= 255 * n) as HSn.
  { subst S n. rewrite <- (length_map (fun p => byte_value (chan c p))).
    apply zsum_bounds. intros v Hin.
    apply in_map_iff in Hin as (p & <- & Hp).
    destruct (window_valid imgData h x y c p Hv Hp) as (v & -> & Hb).
    done. }
  f_equal.
  destruct (Z.eq_dec n 0) as [E0|NE0].
  - assert (S = 0) as -> by lia. rewrite E0, !Z.mul_0_r. simpl. by rewrite Z.div_0_r.
  - rewrite floor_div_exact by (done || nia). cbn [ToUint8Clamp].
    rewrite Z.div_mul_cancel_l by lia.
    assert (0 <= S / n <= 255); [|lia].
    split; [apply Z.div_pos; lia|]. apply Z.div_le_upper_bound; lia.
Qed.

Lemma uniform_kernel_is_mean_witness :
  exists out s',
    convolution part_000 (SrcImageData sample_image) KArray (Some 3) sample_store
    = (Return out, s') /\
    typed_get (data out) (getPixelLocation sample_image 0 0 + offset Red)
    = Fin ((10 + 20 + 40 + 50) / 4) /\
    weight_sum Red (neighbourhood part_000 sample_image KArray ones_kernel 1 0 0)
    = Fin (1 * 4).
Proof.
  destruct (uniform_kernel_is_mean part_000 sample_image KArray (Some 3) sample_store
              0 0 Red 1 sample_image_valid ltac:(vm_compute; reflexivity)
              ltac:(unfold in_image; simpl; lia) ltac:(lia)
              ltac:(vm_compute; reflexivity) ltac:(vm_compute; reflexivity))
    as (out & s' & E & Hmean & _ & Hden).
  exists out, s'. split; [exact E|]. split; [exact Hmean|exact Hden].
Defined.

(** * Further properties *)

(** ** base.js: locations and pixels *)

(** X1.  Inside the image, a pixel's location is a multiple of 4 whose four
    bytes lie within the buffer, and the coordinate is recovered from it:
    the column is (location / 4) mod width, the row (location / 4) / width.
    Two coordinates inside the image with one location are equal. *)
Theorem getPixelLocation_round_trip imgData x y :
  0 < width imgData -> in_image imgData x y ->
  let pl := getPixelLocation imgData x y in
  0 <= pl /\ pl + 3 < width imgData * height imgData * 4 /\
  pl mod 4 = 0 /\
  (pl / 4) mod width imgData = x /\ (pl / 4) / width imgData = y /\
  forall x' y', in_image imgData x' y' ->
    getPixelLocation imgData x' y' = pl -> x' = x /\ y' = y.
Proof.
  intros Hw [Hx Hy] pl. subst pl. unfold getPixelLocation.
  assert ((y * width imgData + x) * 4 / 4 = y * width imgData + x) as E4
      by (apply Z.div_mul; lia).
  split; [nia|]. split; [nia|]. split; [apply Z.mod_mul; lia|].
  rewrite E4. split; [|split].
  - rewrite Z.add_comm, Z.mod_add by lia. apply Z.mod_small. lia.
  - rewrite Z.add_comm, Z.div_add by lia. rewrite Z.div_small by lia. lia.
  - intros x' y' [Hx' Hy'] E.
    assert (y' * width imgData + x' = y * width imgData + x) as E' by lia.
    apply row_major_inj in E' as [-> ->]; done.
Qed.

Lemma getPixelLocation_round_trip_witness :
  let pl := getPixelLocation sample_image 2 1 in
  pl = 20 /\ (pl / 4) mod 3 = 2 /\ (pl / 4) / 3 = 1.
Proof.
  destruct (getPixelLocation_round_trip sample_image 2 1 ltac:(simpl; lia)
              ltac:(unfold in_image; simpl; lia)) as (_ & _ & _ & Hx & Hy & _).
  split; [reflexivity|]. split; [exact Hx|exact Hy].
Defined.

(** X2.  On a valid ImageData, the pixel read at a coordinate inside the
    image is made of the four bytes stored at its location: every channel,
    alpha included, is a number between 0 and 255, never [undefined]. *)
Theorem getPixel_reads_bytes imgData x y :
  valid_ImageData imgData -> in_image imgData x y ->
  exists vr vg vb va,
    getPixel imgData x y = mkPixel (Fin vr) (Fin vg) (Fin vb) (Fin va) /\
    data imgData !! Z.to_nat (getPixelLocation imgData x y) = Some vr /\
    data imgData !! Z.to_nat (getPixelLocation imgData x y + 1) = Some vg /\
    data imgData !! Z.to_nat (getPixelLocation imgData x y + 2) = Some vb /\
    data imgData !! Z.to_nat (getPixelLocation imgData x y + 3) = Some va /\
    0 <= vr <= 255 /\ 0 <= vg <= 255 /\ 0 <= vb <= 255 /\ 0 <= va <= 255.
Proof.
  intros (Hw & Hh & Hlen & Hbytes) [Hx Hy].
  assert (0 <= getPixelLocation imgData x y /\
          getPixelLocation imgData x y + 3 < width imgData * height imgData * 4) as Hpl.
  { unfold getPixelLocation. nia. }
  assert (forall k, 0 <= k <= 3 ->
            exists v, data imgData !! Z.to_nat (getPixelLocation imgData x y + k) = Some v /\
                      typed_get (data imgData) (getPixelLocation imgData x y + k) = Fin v /\
                      0 <= v <= 255) as Hbyte.
  { intros k Hk.
    destruct (lookup_lt_is_Some_2 (data imgData)
                (Z.to_nat (getPixelLocation imgData x y + k)) ltac:(lia)) as [v Ev].
    exists v. split; [done|]. split.
    - unfold typed_get. destruct (Z.ltb_spec (getPixelLocation imgData x y + k) 0); [lia|].
      by rewrite Ev.
    - rewrite Forall_forall in Hbytes. apply Hbytes. by eapply list_elem_of_lookup_2. }
  destruct (Hbyte 0 ltac:(lia)) as (vr & Er & Tr & Br).
  destruct (Hbyte 1 ltac:(lia)) as (vg & Eg & Tg & Bg).
  destruct (Hbyte 2 ltac:(lia)) as (vb & Eb & Tb & Bb).
  destruct (Hbyte 3 ltac:(lia)) as (va & Ea & Ta & Ba).
  rewrite Z.add_0_r in Er, Tr.
  exists vr, vg, vb, va. unfold getPixel. cbn [new_Pixel].
  rewrite Tr, Tg, Tb, Ta. done.
Qed.

Lemma getPixel_reads_bytes_witness :
  getPixel sample_image 1 1 = mkPixel (Fin 50) (Fin 0) (Fin 0) (Fin 255).
Proof.
  destruct (getPixel_reads_bytes sample_image 1 1 sample_image_valid
              ltac:(unfold in_image; simpl; lia))
    as (vr & vg & vb & va & E & Er & Eg & Eb & Ea & _).
  rewrite E. vm_compute in Er, Eg, Eb, Ea. congruence.
Defined.

(** X3.  Neither function checks its coordinate.  A column past the end of
    a row reads into the next row (column [x + width] of row [y] is column
    [x] of row [y + 1]), and a coordinate whose location falls outside the
    buffer, after its end or before its start, gives a Pixel whose four
    channels are all [undefined]. *)
Theorem getPixel_unchecked imgData x y :
  valid_ImageData imgData ->
  getPixel imgData (x + width imgData) y = getPixel imgData x (y + 1) /\
  (width imgData * height imgData * 4 <= getPixelLocation imgData x y \/
   getPixelLocation imgData x y + 3 < 0 ->
   getPixel imgData x y = mkPixel NaN NaN NaN NaN).
Proof.
  intros (Hw & Hh & Hlen & _). split.
  - unfold getPixel.
    replace (getPixelLocation imgData (x + width imgData) y)
      with (getPixelLocation imgData x (y + 1)); [done|].
    unfold getPixelLocation. lia.
  - intros Hout. unfold getPixel. cbn [new_Pixel].
    assert (forall k, 0 <= k <= 3 ->
              typed_get (data imgData) (getPixelLocation imgData x y + k) = NaN) as Hun.
    { intros k Hk. unfold typed_get.
      destruct (Z.ltb_spec (getPixelLocation imgData x y + k) 0); [done|].
      rewrite lookup_ge_None_2; [done|]. lia. }
    rewrite <- (Z.add_0_r (getPixelLocation imgData x y)) at 1.
    by rewrite !Hun by lia.
Qed.

Lemma getPixel_unchecked_witness :
  getPixel sample_image 3 0 = getPixel sample_image 0 1 /\
  getPixel sample_image 0 3 = mkPixel NaN NaN NaN NaN.
Proof.
  destruct (getPixel_unchecked sample_image 0 0 sample_image_valid) as [Hwrap _].
  destruct (getPixel_unchecked sample_image 0 3 sample_image_valid) as [_ Hout].
  split; [exact Hwrap|]. apply Hout. left. vm_compute. discriminate.
Defined.

(** ** base.js: the average *)

Lemma fold_left_num_add_exact : forall (zs : list Z) (acc : Z),
  Z.abs acc + zsum (map Z.abs zs) < 2 ^ 53 ->
  fold_left num_add (map Fin zs) (Fin acc) = Fin (acc + zsum zs).
Proof.
  induction zs as [|z zs IH]; intros acc Hb.
  - cbn. f_equal. lia.
  - cbn [map] in Hb |- *. rewrite zsum_cons in Hb. rewrite zsum_cons. cbn [fold_left].
    assert (0 <= zsum (map Z.abs zs)) as Hm.
    { clear. induction zs as [|z zs IH]; [done|]. cbn [map]. rewrite zsum_cons. lia. }
    rewrite num_add_exact by lia. rewrite IH by lia. f_equal. lia.
Qed.

Lemma zsum_between (lo hi : Z) (zs : list Z) :
  Forall (fun z => lo <= z <= hi) zs ->
  lo * Z.of_nat (length zs) <= zsum zs <= hi * Z.of_nat (length zs).
Proof.
  induction 1 as [|z zs Hz _ IH]; simpl; [lia|].
  unfold zsum in *. lia.
Qed.

Lemma zsum_abs (zs : list Z) : Z.abs (zsum zs) <= zsum (map Z.abs zs).
Proof.
  induction zs as [|z zs IH]; [done|]. cbn [map]. rewrite !zsum_cons. lia.
Qed.

Lemma average_sum (zs : list Z) :
  zs <> [] -> zsum (map Z.abs zs) < 2 ^ 53 ->
  average (map Fin zs)
  = Return (num_div (Fin (zsum zs)) (Fin (Z.of_nat (length zs)))) /\
  0 < Z.of_nat (length zs).
Proof.
  intros Hne Hb. destruct zs as [|z zs]; [done|].
  unfold average, reduce_sum. cbn [map length] in Hb |- *. rewrite zsum_cons in Hb.
  rewrite fold_left_num_add_exact, length_map by lia.
  split; [|lia]. by rewrite zsum_cons.
Qed.

(** The sum rounds once it passes 2^53: the average of 2^53, 1 and 1 is
    3002399751580330.5, the quotient of 2^53 + 1 (not + 2) by 3. *)
Lemma average_rounds :
  average (map Fin [2 ^ 53; 1; 1]) = Return (Frac 6004799503160661 (-1)).
Proof. vm_compute. reflexivity. Qed.

(** X4.  [average] throws a TypeError on the empty array and on no other.
    On a non-empty array of integers whose magnitudes sum to less than
    2^53 the sum is exact, and the result is the binary64 quotient of the
    sum by the length (which is never zero); its floor is the floor of the
    exact ratio. *)
Theorem average_of_integers (zs : list Z) :
  (zs = [] -> average (map Fin zs) = Throw TypeError) /\
  (zs <> [] -> zsum (map Z.abs zs) < 2 ^ 53 -> Z.of_nat (length zs) < 2 ^ 53 ->
   exists q,
     average (map Fin zs) = Return q /\
     q = num_div (Fin (zsum zs)) (Fin (Z.of_nat (length zs))) /\
     Math_floor q = Fin (zsum zs / Z.of_nat (length zs))).
Proof.
  split.
  - intros ->. reflexivity.
  - intros Hne Hb Hlen. destruct (average_sum zs Hne Hb) as [E Hn].
    eexists. split; [exact E|]. split; [done|].
    pose proof (zsum_abs zs). apply floor_div_exact; lia.
Qed.

Lemma average_of_integers_witness :
  exists q, average (map Fin [2; 4; 4; 4; 5; 5; 7; 9]) = Return q /\
            Math_floor q = Fin 5.
Proof.
  destruct (average_of_integers [2; 4; 4; 4; 5; 5; 7; 9]) as [_ H].
  destruct (H ltac:(discriminate) ltac:(vm_compute; reflexivity)
              ltac:(vm_compute; reflexivity)) as (q & E & _ & Hf).
  exists q. split; [exact E|exact Hf].
Defined.

(** X5.  The floor of the average of integers that all lie between [lo]
    and [hi] lies between them too, and the average of equal integers is
    that integer, provided the magnitudes sum to less than 2^53. *)
Theorem average_between (lo hi : Z) (zs : list Z) :
  zs <> [] -> Forall (fun z => lo <= z <= hi) zs ->
  zsum (map Z.abs zs) < 2 ^ 53 -> Z.of_nat (length zs) < 2 ^ 53 ->
  exists q,
    average (map Fin zs) = Return q /\
    (exists f, Math_floor q = Fin f /\ lo <= f <= hi) /\
    (lo = hi -> q = Fin lo).
Proof.
  intros Hne Hall Hb Hlen.
  destruct (average_sum zs Hne Hb) as [E Hn].
  pose proof (zsum_between lo hi zs Hall) as Hbt.
  pose proof (zsum_abs zs) as Habs.
  eexists. split; [exact E|]. split.
  - exists (zsum zs / Z.of_nat (length zs)). split; [apply floor_div_exact; lia|].
    split.
    + apply Z.div_le_lower_bound; lia.
    + apply Z.div_le_upper_bound; [lia|]. nia.
  - intros ->. assert (zsum zs = hi * Z.of_nat (length zs)) as Es by lia.
    rewrite Es. apply num_div_multiple; [lia|lia|]. rewrite <- Es. lia.
Qed.

Lemma average_between_witness :
  exists q, average (map Fin [4; 4; 4]) = Return q /\ q = Fin 4.
Proof.
  destruct (average_between 4 4 [4; 4; 4] ltac:(discriminate)
              ltac:(repeat constructor; lia) ltac:(vm_compute; reflexivity)
              ltac:(vm_compute; reflexivity)) as (q & E & _ & Hq).
  exists q. split; [exact E|]. by apply Hq.
Defined.

(** ** Shapes: when a kernel array fits *)

Lemma mk_area_rows imgData h x y :
  length (pixels (mk_area imgData h x y)) = Z.to_nat (span (height imgData) h y).
Proof.
  unfold mk_area, span. cbn [pixels]. rewrite length_map, zrange_length.
  destruct (Z.ltb_spec (y - h) 0), (Z.geb_spec (y + h) (height imgData)); lia.
Qed.

Lemma mk_area_columns imgData h x y :
  (0 < length (pixels (mk_area imgData h x y)))%nat ->
  columns (pixels (mk_area imgData h x y)) = Z.to_nat (span (width imgData) h x).
Proof.
  unfold mk_area, span, columns. cbn [pixels].
  set (rows := zrange (if y - h <? 0 then 0 else y - h) _).
  destruct rows as [|ay rows]; cbn [map length nth]; [lia|].
  intros _. rewrite length_map, zrange_length.
  destruct (Z.ltb_spec (x - h) 0), (Z.geb_spec (x + h) (width imgData)); lia.
Qed.

Lemma mk_area_cell imgData h x y j i :
  0 <= j < span (height imgData) h y -> 0 <= i < span (width imgData) h x ->
  is_Some (lookup2 (pixels (mk_area imgData h x y)) j i).
Proof.
  intros Hj Hi. rewrite mk_area_lookup; [done| |].
  - unfold span in Hj. unfold mk_area; cbn [top bottom].
    destruct (Z.ltb_spec (y - h) 0), (Z.geb_spec (y + h) (height imgData)); lia.
  - unfold span in Hi. unfold mk_area; cbn [left right].
    destruct (Z.ltb_spec (x - h) 0), (Z.geb_spec (x + h) (width imgData)); lia.
Qed.

Lemma span_bounds n h c :
  0 <= c < n -> 0 <= h -> 1 <= span n h c <= Z.min n (2 * h + 1).
Proof. unfold span. lia. Qed.

Lemma span_widest n h :
  0 < n -> 0 <= h -> span n h (Z.min h (n - 1)) = Z.min n (2 * h + 1).
Proof. unfold span. lia. Qed.

Lemma span_negative n h c : h < 0 -> span n h c <= 0.
Proof. unfold span. lia. Qed.

Lemma covers_intro pixels kernel :
  (forall j i, 0 <= j < Z.of_nat (length pixels) -> 0 <= i < Z.of_nat (columns pixels) ->
     is_Some (lookup2 pixels j i) /\ is_Some (lookup2 kernel j i)) ->
  covers pixels kernel = true.
Proof.
  intros H. unfold covers. apply all_for_spec. intros j Hj.
  apply all_for_spec. intros i Hi.
  destruct (H j i ltac:(lia) ltac:(lia)) as [[p ->] [k ->]]. done.
Qed.

Lemma rectangular_lookup R C kernel j i :
  rectangular R C kernel -> 0 <= j -> 0 <= i ->
  (is_Some (lookup2 kernel j i) <-> j < Z.of_nat R /\ i < Z.of_nat C).
Proof.
  intros [HR HC] Hj Hi. unfold lookup2, grid in *. split.
  - destruct (kernel !! Z.to_nat j) as [row|] eqn:Erow;
      [|intros Hn; by apply is_Some_None in Hn].
    intros Hsome. apply lookup_lt_is_Some_1 in Hsome.
    pose proof (lookup_lt_Some _ _ _ Erow).
    rewrite Forall_forall in HC.
    rewrite (HC row) in Hsome by (by eapply list_elem_of_lookup_2). lia.
  - intros [Hj' Hi'].
    destruct (lookup_lt_is_Some_2 kernel (Z.to_nat j) ltac:(lia)) as [row Erow].
    rewrite Erow. apply lookup_lt_is_Some_2.
    rewrite Forall_forall in HC.
    rewrite (HC row) by (by eapply list_elem_of_lookup_2). lia.
Qed.

Lemma normalize_rectangular rev R C kernel :
  rectangular R C kernel -> rectangular R C (normalize rev kernel).
Proof.
  intros [HR HC]. destruct rev; simpl; [|done].
  destruct (first_cell_is_Number kernel) as [[|]|]; try done.
  split; [by rewrite length_map|].
  apply Forall_forall. intros row Hrow.
  apply (list_elem_of_fmap_1 _ _ _) in Hrow as (row0 & -> & Hrow0).
  rewrite length_map. rewrite Forall_forall in HC. by apply HC.
Qed.

Lemma rectangular_first_cell_ok rev R C kernel :
  rectangular R C kernel -> (0 < R)%nat -> (0 < C)%nat -> first_cell_ok rev kernel = true.
Proof.
  intros [HR HC] HR0 HC0. destruct rev; [|done]. simpl.
  destruct kernel as [|row rows]; [simpl in HR; lia|].
  apply Forall_cons in HC as [Hrow _].
  destruct row as [|[n|p] row]; [simpl in Hrow; lia|done|done].
Qed.

(** The caller's array, of [R] rows and [C] columns, fits the image for the
    half-size [h] exactly when the widest and the tallest neighbourhood are
    no larger than it. *)
Lemma static_fits_iff rev imgData K h R C :
  0 < width imgData -> 0 < height imgData ->
  rectangular R C K -> (0 < R)%nat -> (0 < C)%nat ->
  (kernel_fits rev imgData KArray K h = true <->
   h < 0 \/ (Z.min (width imgData) (2 * h + 1) <= Z.of_nat C /\
             Z.min (height imgData) (2 * h + 1) <= Z.of_nat R)).
Proof.
  intros Hw Hh Hrect HR HC.
  pose proof (normalize_rectangular rev R C K Hrect) as Hrect'.
  rewrite kernel_fits_spec. unfold pixel_ok. cbn [raw_kernel].
  rewrite (rectangular_first_cell_ok rev R C K Hrect HR HC). split.
  - intros Hall. destruct (Z_lt_dec h 0) as [Hneg|Hpos]; [by left|right].
    specialize (Hall (Z.min h (width imgData - 1)) (Z.min h (height imgData - 1))
                  ltac:(unfold in_image; lia)).
    cbn [andb] in Hall. pose proof (covers_spec _ _ Hall) as Hc.
    rewrite mk_area_rows, span_widest in Hc by lia.
    rewrite mk_area_columns, span_widest in Hc
      by (try rewrite mk_area_rows, span_widest; lia).
    destruct (Hc (Z.min (height imgData) (2 * h + 1) - 1)
                 (Z.min (width imgData) (2 * h + 1) - 1) ltac:(lia) ltac:(lia))
      as (p & k & _ & Ek).
    destruct (rectangular_lookup R C _ (Z.min (height imgData) (2 * h + 1) - 1)
                (Z.min (width imgData) (2 * h + 1) - 1) Hrect' ltac:(lia) ltac:(lia))
      as [Hlt _].
    destruct (Hlt ltac:(by rewrite Ek)). lia.
  - intros Hfit x y [Hx Hy]. cbn [andb]. apply covers_intro.
    rewrite mk_area_rows. intros j i Hj Hi.
    destruct Hfit as [Hneg|[HfC HfR]].
    { pose proof (span_negative (height imgData) h y Hneg). lia. }
    destruct (Z_lt_dec h 0) as [Hneg|Hpos].
    { pose proof (span_negative (height imgData) h y Hneg). lia. }
    rewrite mk_area_columns in Hi by (rewrite mk_area_rows; lia).
    pose proof (span_bounds (height imgData) h y Hy ltac:(lia)).
    pose proof (span_bounds (width imgData) h x Hx ltac:(lia)).
    split; [apply mk_area_cell; lia|].
    apply (rectangular_lookup R C); [done|lia|lia|lia].
Qed.

Lemma convolution_fits_outcome rev imgData ks size s :
  0 < width imgData -> 0 < height imgData ->
  let fits := kernel_fits rev imgData ks (kernel_array s)
                (choose_size rev s ks size / 2) in
  (fits = true ->
   exists out, fst (convolution rev (SrcImageData imgData) ks size s) = Return out) /\
  (fits = false ->
   fst (convolution rev (SrcImageData imgData) ks size s) = Throw TypeError).
Proof.
  intros Hw Hh fits. subst fits.
  pose proof (convolution_returns rev imgData ks size s Hw Hh) as H. cbv zeta in H.
  destruct (fst (convolution rev (SrcImageData imgData) ks size s)) as [out|e].
  - split; [eauto|congruence].
  - destruct H as [Hno ->]. split; [congruence|done].
Qed.

(** X6.  With a caller's kernel array of [R] rows and [C] columns (both
    positive) and half-size [h], the call on an image of positive
    dimensions returns a buffer exactly when [h < 0] or the array is at
    least as wide as min(width, 2h+1) and as tall as min(height, 2h+1);
    otherwise it throws a TypeError: a kernel larger than the neighbourhood
    is accepted (its extra cells are never read), a smaller one is not. *)
Theorem static_kernel_outcome rev imgData size s R C :
  0 < width imgData -> 0 < height imgData ->
  rectangular R C (kernel_array s) -> (0 < R)%nat -> (0 < C)%nat ->
  let h := choose_size rev s KArray size / 2 in
  match fst (convolution rev (SrcImageData imgData) KArray size s) with
  | Return _ =>
      h < 0 \/ (Z.min (width imgData) (2 * h + 1) <= Z.of_nat C /\
                Z.min (height imgData) (2 * h + 1) <= Z.of_nat R)
  | Throw e =>
      e = TypeError /\ 0 <= h /\
      (Z.of_nat C < Z.min (width imgData) (2 * h + 1) \/
       Z.of_nat R < Z.min (height imgData) (2 * h + 1))
  end.
Proof.
  intros Hw Hh Hrect HR HC h.
  pose proof (convolution_returns rev imgData KArray size s Hw Hh) as H.
  cbv zeta in H. fold h in H.
  pose proof (static_fits_iff rev imgData (kernel_array s) h R C Hw Hh Hrect HR HC) as Hiff.
  destruct (fst (convolution rev (SrcImageData imgData) KArray size s)) as [out|e].
  - by apply Hiff.
  - destruct H as [Hno ->]. split; [done|].
    destruct (Z_lt_dec h 0) as [Hneg|Hpos].
    { rewrite (proj2 Hiff) in Hno by (by left). discriminate. }
    split; [lia|].
    destruct (Z_le_dec (Z.min (width imgData) (2 * h + 1)) (Z.of_nat C)) as [HfC|]; [|lia].
    destruct (Z_le_dec (Z.min (height imgData) (2 * h + 1)) (Z.of_nat R)) as [HfR|]; [|lia].
    rewrite (proj2 Hiff) in Hno by (by right). discriminate.
Qed.

Lemma ones_kernel_rectangular : rectangular 3 3 ones_kernel.
Proof. split; [reflexivity|repeat constructor]. Qed.

Lemma static_kernel_outcome_witness :
  match fst (convolution convolution_js (SrcImageData edge_image) KArray (Some 3)
               (mkStore None 5 [[CPix (new_Pixel [Fin 1])]] [])) with
  | Return _ => False
  | Throw e => e = TypeError
  end.
Proof.
  pose proof (static_kernel_outcome convolution_js edge_image (Some 3)
                (mkStore None 5 [[CPix (new_Pixel [Fin 1])]] []) 1 1
                ltac:(simpl; lia) ltac:(simpl; lia)
                ltac:(split; [reflexivity|repeat constructor])
                ltac:(lia) ltac:(lia)) as H.
  cbv zeta in H.
  destruct (fst (convolution convolution_js (SrcImageData edge_image) KArray (Some 3)
                   (mkStore None 5 [[CPix (new_Pixel [Fin 1])]] []))) as [out|e].
  - change (1 < 0 \/ (Z.min 2 3 <= 1 /\ Z.min 1 3 <= 1)) in H. lia.
  - destruct H as [-> _]. reflexivity.
Defined.

(** X7 (part_000).  With the size omitted and a square caller's array of
    [n] rows and columns, the half-size is floor(n/2).  For an odd [n] the
    neighbourhood is at most n x n and the call returns on every image of
    positive dimensions.  For an even [n] the neighbourhood can be n+1
    wide: the call returns exactly when the image is no wider and no taller
    than [n], and throws a TypeError otherwise. *)
Theorem omitted_size_square_kernel imgData s n :
  0 < width imgData -> 0 < height imgData ->
  rectangular n n (kernel_array s) -> (0 < n)%nat ->
  let outcome := fst (convolution part_000 (SrcImageData imgData) KArray None s) in
  (Z.odd (Z.of_nat n) = true -> exists out, outcome = Return out) /\
  (Z.even (Z.of_nat n) = true ->
   width imgData <= Z.of_nat n -> height imgData <= Z.of_nat n ->
   exists out, outcome = Return out) /\
  (Z.even (Z.of_nat n) = true ->
   Z.of_nat n < width imgData \/ Z.of_nat n < height imgData ->
   outcome = Throw TypeError).
Proof.
  intros Hw Hh Hrect Hn outcome. subst outcome.
  destruct (convolution_fits_outcome part_000 imgData KArray None s Hw Hh) as [Hyes Hno].
  pose proof (static_fits_iff part_000 imgData (kernel_array s)
                (choose_size part_000 s KArray None / 2) n n Hw Hh Hrect Hn Hn) as Hiff.
  assert (choose_size part_000 s KArray None = Z.of_nat n) as Esize.
  { unfold choose_size, default_size. by destruct Hrect as [-> _]. }
  rewrite Esize in *.
  pose proof (Z.div_mod (Z.of_nat n) 2 ltac:(lia)) as Hdm.
  rewrite Zmod_odd in Hdm.
  split; [|split].
  - intros Hodd. rewrite Hodd in Hdm. apply Hyes, Hiff. right. lia.
  - intros Heven HW HH. rewrite <- Z.negb_even, Heven in Hdm. simpl in Hdm.
    apply Hyes, Hiff. right. lia.
  - intros Heven Hbig. rewrite <- Z.negb_even, Heven in Hdm. simpl in Hdm.
    apply Hno. apply not_true_is_false. intros Hfit. apply Hiff in Hfit. lia.
Qed.

Lemma omitted_size_square_kernel_witness :
  exists out,
    fst (convolution part_000 (SrcImageData sample_image) KArray None sample_store)
    = Return out.
Proof.
  destruct (omitted_size_square_kernel sample_image sample_store 3
              ltac:(simpl; lia) ltac:(simpl; lia) ones_kernel_rectangular ltac:(lia))
    as [Hodd _].
  apply Hodd. reflexivity.
Defined.

(** ** The returned buffer *)

Lemma ToUint8Clamp_range v : 0 <= ToUint8Clamp v <= 255.
Proof. destruct v; simpl; lia. Qed.

(** Every byte index of the buffer is one of the four bytes of a pixel
    inside the image. *)
Lemma byte_index imgData (i : nat) :
  0 < width imgData -> 0 < height imgData ->
  Z.of_nat i < width imgData * height imgData * 4 ->
  exists x y k, in_image imgData x y /\ 0 <= k <= 3 /\
                Z.of_nat i = getPixelLocation imgData x y + k.
Proof.
  intros Hw Hh Hi.
  set (z := Z.of_nat i) in *. set (n := z / 4). set (k := z mod 4).
  assert (z = 4 * n + k /\ 0 <= k < 4) as [Ez Hk].
  { subst n k. pose proof (Z.div_mod z 4 ltac:(lia)).
    pose proof (Z.mod_pos_bound z 4 ltac:(lia)). lia. }
  assert (n = width imgData * (n / width imgData) + n mod width imgData /\
          0 <= n mod width imgData < width imgData) as [En Hx].
  { pose proof (Z.div_mod n (width imgData) ltac:(lia)).
    pose proof (Z.mod_pos_bound n (width imgData) ltac:(lia)). lia. }
  assert (0 <= n < width imgData * height imgData) as Hn by lia.
  exists (n mod width imgData), (n / width imgData), k.
  split; [split; [done|]|split; [lia|]].
  - split; [apply Z.div_pos; lia|]. apply Z.div_lt_upper_bound; lia.
  - unfold getPixelLocation. lia.
Qed.

(** X8.  Whatever the kernel's weights (negative, summing to zero, not
    numbers), a buffer the call returns is again a valid ImageData: it has
    the input's positive dimensions, four bytes per pixel, every byte is
    between 0 and 255, and every alpha byte is 255; so it can be the input
    of a next call. *)
Theorem returned_buffer_is_valid rev imgData ks size s out s' :
  0 < width imgData -> 0 < height imgData ->
  convolution rev (SrcImageData imgData) ks size s = (Return out, s') ->
  valid_ImageData out /\
  forall x y, in_image out x y ->
    a (getPixel out x y) = Fin 255.
Proof.
  intros Hw Hh E.
  pose proof (convolution_spec rev imgData ks size s Hw Hh) as H. cbv zeta in H.
  rewrite E in H. destruct H as (EW & EH & Hlen & _ & Hpix).
  split.
  - unfold valid_ImageData. rewrite EW, EH. repeat (split; [done|]).
    apply Forall_lookup_2. intros i v Ev.
    pose proof (lookup_lt_Some _ _ _ Ev) as Hi.
    destruct (byte_index imgData i Hw Hh ltac:(lia)) as (x & y & k & Hxy & Hk & Ei).
    destruct (Hpix x y Hxy) as [_ (H0 & H1 & H2 & H3)].
    assert (exists u, typed_get (data out) (Z.of_nat i) = Fin (ToUint8Clamp u)) as [u Hu].
    { rewrite Ei.
      assert (k = 0 \/ k = 1 \/ k = 2 \/ k = 3) as [-> | [-> | [-> | ->]]] by lia;
        rewrite ?Z.add_0_r; eauto. }
    unfold typed_get in Hu. destruct (Z.ltb_spec (Z.of_nat i) 0); [lia|].
    rewrite Nat2Z.id, Ev in Hu. injection Hu as Hv. subst v.
    apply ToUint8Clamp_range.
  - intros x y Hxy. unfold in_image in Hxy. rewrite EW, EH in Hxy.
    destruct (Hpix x y Hxy) as [_ (_ & _ & _ & H3)].
    rewrite out_pixel_alpha in H3. unfold getPixel. cbn [new_Pixel a].
    unfold getPixelLocation in *. rewrite EW. exact H3.
Qed.

Lemma returned_buffer_is_valid_witness :
  valid_ImageData
    (mkImageData 2 1 [255; 255; 255; 255; 255; 255; 255; 255]).
Proof.
  apply (returned_buffer_is_valid part_000 edge_image KArray (Some 3)
           (mkStore None 5 edge_kernel []) _
           (store_after part_000 edge_image KArray (mkStore None 5 edge_kernel []))
           ltac:(simpl; lia) ltac:(simpl; lia)).
  vm_compute. reflexivity.
Defined.

(** ** The two revisions side by side *)

(** X9.  With an explicit non-zero size and a kernel whose cell [0][0] is a
    Pixel (the caller's array, or every grid a kernel function returns),
    the two revisions end alike on every source: the same buffer or the
    same exception.  The promotion and the default size are all that tells
    them apart in what they return; [Math.round] on the stored channels
    changes nothing. *)
Theorem revisions_agree source ks n s :
  n <> 0 ->
  (forall area, first_cell_is_Number (raw_kernel ks (kernel_array s) area) = Return false) ->
  fst (convolution part_000 source ks (Some n) s)
  = fst (convolution convolution_js source ks (Some n) s).
Proof.
  intros Hn Hpix. destruct source as [|d|name|]; [done| |done|done].
  destruct (Z_lt_dec 0 (width d)) as [Hw|Hw], (Z_lt_dec 0 (height d)) as [Hh|Hh];
    try (rewrite !convolution_invalid_size by lia; done).
  apply convolution_outcome_ext; [done|done|].
  intros x y Hxy.
  assert (forall rev, choose_size rev s ks (Some n) = n) as Esize.
  { intros rev. unfold choose_size, truthy. by destruct (Z.eqb_spec n 0). }
  rewrite !Esize.
  unfold pixel_ok, out_pixel, sums_at, kernel_at, first_cell_ok, normalize.
  rewrite (Hpix (mk_area d (n / 2) x y)). split; [done|]. intros _.
  destruct (sums_of _ _) as [area_sum kernel_sum]. by rewrite !stored_channel_id.
Qed.

Lemma revisions_agree_witness :
  fst (convolution part_000 (SrcImageData sample_image) KArray (Some 3)
         (mkStore None 5 (explicit ones_kernel) []))
  = fst (convolution convolution_js (SrcImageData sample_image) KArray (Some 3)
           (mkStore None 5 (explicit ones_kernel) [])).
Proof.
  apply (revisions_agree (SrcImageData sample_image) KArray 3
           (mkStore None 5 (explicit ones_kernel) []) ltac:(lia)).
  intros area. reflexivity.
Defined.

(** ** Failures before the pixel loop *)

Lemma convolution_records_source rev d ks size s :
  CONV_IMG_DATA (snd (convolution rev (SrcImageData d) ks size s)) = Some d.
Proof.
  destruct (Z_lt_dec 0 (width d)) as [Hw|Hw], (Z_lt_dec 0 (height d)) as [Hh|Hh].
  1: { by destruct (convolution_store rev d ks size s Hw Hh) as [-> _]. }
  all: unfold convolution, bind, ret, get_store, put_store, new_ImageData;
    destruct (Z.leb_spec (width d) 0); [done|];
    destruct (Z.leb_spec (height d) 0); [done|lia].
Qed.

(** On an ImageData the call returns or throws one of the two errors of the
    platform, never a string. *)
Lemma convolution_outcomes rev d ks size s :
  match fst (convolution rev (SrcImageData d) ks size s) with
  | Return _ => True
  | Throw e => e = TypeError \/ e = IndexSizeError
  end.
Proof.
  destruct (Z_lt_dec 0 (width d)) as [Hw|Hw], (Z_lt_dec 0 (height d)) as [Hh|Hh];
    try (rewrite convolution_invalid_size by lia; by right).
  pose proof (convolution_spec rev d ks size s Hw Hh) as Hspec. cbv zeta in Hspec.
  destruct (convolution rev (SrcImageData d) ks size s) as [[out|e] s']; [done|].
  simpl. left. by destruct Hspec as (-> & _).
Qed.

(** X10.  The string 'Convolution Error: ... received <name>' is thrown for
    exactly the sources whose constructor is a function other than ImageData
    and CanvasRenderingContext2D, and the call throws no other string; a
    source without a constructor ([null], [Object.create(null)]) throws a
    TypeError instead.  A source rejected in either way leaves the store as
    it was; an ImageData source is recorded in [CONV_IMG_DATA], even when
    the call then throws. *)
Theorem invalid_source_throws rev source ks size s :
  (forall msg,
     fst (convolution rev source ks size s) = Throw (ThrowString msg) <->
     exists name, source = SrcOther name /\ msg = invalid_source_message name) /\
  (source = SrcNoConstructor ->
   fst (convolution rev source ks size s) = Throw TypeError) /\
  match source with
  | SrcImageData d => CONV_IMG_DATA (snd (convolution rev source ks size s)) = Some d
  | SrcOther _ | SrcNoConstructor => snd (convolution rev source ks size s) = s
  | SrcCanvas => True
  end.
Proof.
  split; [|split].
  - intros msg. split.
    + destruct source as [|d|name|]; try done.
      * pose proof (convolution_outcomes rev d ks size s) as Hout.
        intros E. rewrite E in Hout. by destruct Hout.
      * intros E. exists name. split; [done|].
        change (Throw (ThrowString (invalid_source_message name))
                = @Throw ImageData (ThrowString msg)) in E.
        by injection E.
    + by intros (name & -> & ->).
  - by intros ->.
  - destruct source as [|d|name|]; try done. apply convolution_records_source.
Qed.

Lemma invalid_source_throws_witness :
  fst (convolution part_000 SrcNoConstructor KArray None sample_store) = Throw TypeError.
Proof.
  destruct (invalid_source_throws part_000 SrcNoConstructor KArray None sample_store)
    as (_ & H & _).
  by apply H.
Defined.

(** ** Degenerate sizes and cells *)

Lemma mk_area_empty imgData h x y :
  h < 0 -> pixels (mk_area imgData h x y) = [].
Proof.
  intros Hneg. apply nil_length_inv. rewrite mk_area_rows.
  pose proof (span_negative (height imgData) h y Hneg). lia.
Qed.

(** X11.  The size is not validated.  A negative size makes every
    neighbourhood empty, both sums stay 0 and the quotient is NaN: provided
    the test on cell [0][0] can be evaluated, the call returns a buffer in
    which every pixel is (0, 0, 0, 255), whatever the image and the
    weights. *)
Theorem negative_size_blacks_out rev imgData ks n s :
  0 < width imgData -> 0 < height imgData ->
  n < 0 ->
  (forall area, first_cell_ok rev (raw_kernel ks (kernel_array s) area) = true) ->
  exists out s',
    convolution rev (SrcImageData imgData) ks (Some n) s = (Return out, s') /\
    forall x y, in_image imgData x y ->
      getPixel out x y = mkPixel (Fin 0) (Fin 0) (Fin 0) (Fin 255).
Proof.
  intros Hw Hh Hn Hfirst.
  assert (choose_size rev s ks (Some n) = n) as Esize.
  { unfold choose_size, truthy. destruct (Z.eqb_spec n 0); [lia|done]. }
  assert (n / 2 < 0) as Hneg by (apply Z.div_lt_upper_bound; lia).
  assert (kernel_fits rev imgData ks (kernel_array s) (choose_size rev s ks (Some n) / 2)
          = true) as Hfits.
  { apply kernel_fits_spec. intros x y _. unfold pixel_ok.
    rewrite Hfirst, Esize, mk_area_empty by done. reflexivity. }
  destruct (convolution_output rev imgData ks (Some n) s Hw Hh Hfits)
    as (out & E & EW & _ & _ & Hpix).
  exists out, (store_after rev imgData ks s). split; [exact E|].
  intros x y Hxy. destruct (Hpix x y Hxy) as [Ha Hc].
  assert (forall c, typed_get (data out) (getPixelLocation imgData x y + offset c) = Fin 0)
    as Hzero.
  { intros c. rewrite (Hc c), Esize. unfold neighbourhood.
    rewrite mk_area_empty by done. reflexivity. }
  unfold getPixel. cbn [new_Pixel].
  replace (getPixelLocation out x y) with (getPixelLocation imgData x y)
    by (unfold getPixelLocation; by rewrite EW).
  pose proof (Hzero Red) as Hr. pose proof (Hzero Green) as Hg.
  pose proof (Hzero Blue) as Hb. cbn [offset] in Hr, Hg, Hb.
  rewrite Z.add_0_r in Hr. by rewrite Hr, Hg, Hb, Ha.
Qed.

Lemma negative_size_blacks_out_witness :
  exists out s',
    convolution part_000 (SrcImageData sample_image) KArray (Some (-3)) sample_store
    = (Return out, s') /\
    getPixel out 1 1 = mkPixel (Fin 0) (Fin 0) (Fin 0) (Fin 255).
Proof.
  destruct (negative_size_blacks_out part_000 sample_image KArray (-3) sample_store
              ltac:(simpl; lia) ltac:(simpl; lia) ltac:(lia)
              ltac:(intros area; reflexivity)) as (out & s' & E & Hpix).
  exists out, s'. split; [exact E|].
  apply Hpix. unfold in_image; simpl; lia.
Defined.

Lemma num_div_NaN_l y : num_div NaN y = NaN.
Proof. by destruct y. Qed.

Lemma fold_left_num_add_NaN : forall l, fold_left num_add l NaN = NaN.
Proof. induction l as [|v l IH]; simpl; [done|exact IH]. Qed.

Lemma num_sum_NaN : forall l acc, In NaN l -> fold_left num_add l acc = NaN.
Proof.
  induction l as [|v l IH]; intros acc Hin; [done|].
  simpl. destruct Hin as [->|Hin].
  - replace (num_add acc NaN) with NaN by (by destruct acc).
    apply fold_left_num_add_NaN.
  - by apply IH.
Qed.

(** X12.  A bare number that reaches the accumulation loop unpromoted has
    no [r], [g] or [b]: it turns the three sums into NaN.  When the call
    returns, every pixel whose neighbourhood meets such a cell has colour
    bytes 0.  In src/convolution.js, which never promotes, this is every
    bare number in a kernel; in part_000 it is a bare number in a kernel
    whose cell [0][0] is a Pixel. *)
Theorem bare_cell_blacks_out rev imgData ks size s x y p n :
  0 < width imgData -> 0 < height imgData ->
  let h := choose_size rev s ks size / 2 in
  kernel_fits rev imgData ks (kernel_array s) h = true ->
  in_image imgData x y ->
  In (p, CNum n) (neighbourhood rev imgData ks (kernel_array s) h x y) ->
  exists out s',
    convolution rev (SrcImageData imgData) ks size s = (Return out, s') /\
    forall c, typed_get (data out) (getPixelLocation imgData x y + offset c) = Fin 0.
Proof.
  intros Hw Hh h Hfits Hxy Hin.
  destruct (convolution_output rev imgData ks size s Hw Hh Hfits)
    as (out & E & _ & _ & _ & Hpix).
  exists out, (store_after rev imgData ks s). split; [exact E|].
  intros c. destruct (Hpix x y Hxy) as [_ Hc]. rewrite (Hc c). fold h.
  unfold floored_average, weighted_sum, num_sum.
  rewrite num_sum_NaN; [by rewrite num_div_NaN_l|].
  apply in_map_iff. exists (p, CNum n). split; [|done].
  cbn [fst snd weight]. by destruct (chan c p).
Qed.

Lemma bare_cell_blacks_out_witness :
  exists out s',
    convolution convolution_js (SrcImageData sample_image) KArray (Some 3) sample_store
    = (Return out, s') /\
    forall c, typed_get (data out) (getPixelLocation sample_image 1 1 + offset c) = Fin 0.
Proof.
  apply (bare_cell_blacks_out convolution_js sample_image KArray (Some 3) sample_store
           1 1 (getPixel sample_image 0 0) (Fin 1)
           ltac:(simpl; lia) ltac:(simpl; lia) ltac:(vm_compute; reflexivity)
           ltac:(unfold in_image; simpl; lia)).
  vm_compute. left. reflexivity.
Defined.

(** ** The identity kernel *)

Lemma zrange_single lo hi : hi = lo -> zrange lo hi = [lo].
Proof.
  intros ->. unfold zrange. replace (Z.to_nat (lo - lo + 1)) with 1%nat by lia.
  simpl. by rewrite Z.add_0_r.
Qed.

Lemma mk_area_zero imgData x y :
  in_image imgData x y -> pixels (mk_area imgData 0 x y) = [[getPixel imgData x y]].
Proof.
  intros [Hx Hy]. unfold mk_area. cbn [pixels].
  destruct (Z.ltb_spec (x - 0) 0), (Z.geb_spec (x + 0) (width imgData)),
           (Z.ltb_spec (y - 0) 0), (Z.geb_spec (y + 0) (height imgData)); try lia.
  rewrite !zrange_single by lia. cbn [map]. by rewrite !Z.sub_0_r.
Qed.

Lemma getPixel_chan imgData x y c :
  chan c (getPixel imgData x y)
  = typed_get (data imgData) (getPixelLocation imgData x y + offset c).
Proof.
  unfold getPixel. cbn [new_Pixel]. destruct c; cbn [chan r g b offset]; [|done|done].
  by rewrite Z.add_0_r.
Qed.

(** X13.  With half-size 0 (size 1, or a one-row kernel array with the size
    omitted in part_000) and a kernel array whose cell [0][0] weighs a
    non-zero integer in each colour channel, below 2^53 / 255 in
    magnitude, the call on a valid image returns a buffer with the colour
    bytes of the input at every pixel and alpha 255: the one-cell kernel is
    the identity, whatever its weights in that range. *)
Theorem one_cell_kernel_is_identity rev imgData size s k wr wg wb :
  valid_ImageData imgData ->
  choose_size rev s KArray size / 2 = 0 ->
  lookup2 (normalize rev (kernel_array s)) 0 0 = Some (CPix k) ->
  r k = Fin wr -> g k = Fin wg -> b k = Fin wb ->
  wr <> 0 -> wg <> 0 -> wb <> 0 ->
  255 * Z.abs wr < 2 ^ 53 -> 255 * Z.abs wg < 2 ^ 53 -> 255 * Z.abs wb < 2 ^ 53 ->
  exists out s',
    convolution rev (SrcImageData imgData) KArray size s = (Return out, s') /\
    forall x y, in_image imgData x y ->
      typed_get (data out) (getPixelLocation imgData x y + 3) = Fin 255 /\
      forall c, typed_get (data out) (getPixelLocation imgData x y + offset c)
                = typed_get (data imgData) (getPixelLocation imgData x y + offset c).
Proof.
  intros Hv Hh0 Hcell Hr Hg Hb Hwr Hwg Hwb Hbr Hbg Hbb.
  pose proof Hv as (Hw & Hh & _).
  assert (first_cell_ok rev (kernel_array s) = true) as Hfirst.
  { destruct rev; [|done]. unfold first_cell_ok. simpl in Hcell.
    destruct (kernel_array s) as [|[|[n|p] row] rows]; done. }
  assert (forall x y, in_image imgData x y ->
            neighbourhood rev imgData KArray (kernel_array s) 0 x y
            = [(getPixel imgData x y, CPix k)]) as Hcells.
  { intros x y Hxy. unfold neighbourhood, kernel_at, visited, columns.
    rewrite mk_area_zero by done. cbn [raw_kernel length nth zfrom flat_map app].
    unfold grid in *. rewrite Hcell. reflexivity. }
  assert (kernel_fits rev imgData KArray (kernel_array s)
            (choose_size rev s KArray size / 2) = true) as Hfits.
  { rewrite Hh0. apply kernel_fits_spec. intros x y Hxy. unfold pixel_ok.
    cbn [raw_kernel]. rewrite Hfirst, mk_area_zero by done.
    unfold covers, columns. cbn [length nth all_for].
    unfold grid in *. rewrite Hcell. reflexivity. }
  destruct (convolution_output rev imgData KArray size s Hw Hh Hfits)
    as (out & E & _ & _ & _ & Hpix).
  exists out, (store_after rev imgData KArray s). split; [exact E|].
  intros x y Hxy. destruct (Hpix x y Hxy) as [Ha Hc]. split; [exact Ha|].
  intros c. rewrite (Hc c), Hh0, (Hcells x y Hxy), <- getPixel_chan.
  destruct (getPixel_valid imgData x y c Hv Hxy) as (v & Ev & Hb255).
  rewrite Ev. unfold floored_average, weighted_sum, weight_sum, num_sum.
  cbn [map fold_left fst snd weight]. rewrite Ev.
  assert (exists w, chan c k = Fin w /\ w <> 0 /\ 255 * Z.abs w < 2 ^ 53)
    as (w & Ew & Hw0 & Hwb').
  { destruct c; cbn [chan]; eauto. }
  assert (Z.abs (v * w) <= 255 * Z.abs w) as Hvw.
  { rewrite Z.abs_mul, (Z.abs_eq v) by lia. pose proof (Z.abs_nonneg w). nia. }
  rewrite Ew, num_mul_exact by lia. rewrite !num_add_exact by lia.
  rewrite !Z.add_0_l, floor_div_exact by lia. cbn [ToUint8Clamp].
  f_equal. rewrite Z.div_mul by done. lia.
Qed.

Lemma one_cell_kernel_is_identity_witness :
  exists out s',
    convolution part_000 (SrcImageData sample_image) KArray None
                (mkStore None 5 [[CNum (Fin 7)]] []) = (Return out, s') /\
    typed_get (data out) (getPixelLocation sample_image 1 1 + offset Red) = Fin 50.
Proof.
  destruct (one_cell_kernel_is_identity part_000 sample_image None
              (mkStore None 5 [[CNum (Fin 7)]] []) (new_Pixel [Fin 7]) 7 7 7
              sample_image_valid ltac:(reflexivity) ltac:(reflexivity)
              ltac:(reflexivity) ltac:(reflexivity) ltac:(reflexivity)
              ltac:(lia) ltac:(lia) ltac:(lia) ltac:(lia) ltac:(lia) ltac:(lia))
    as (out & s' & E & Hpix).
  exists out, s'. split; [exact E|].
  destruct (Hpix 1 1 ltac:(unfold in_image; simpl; lia)) as [_ Hc].
  rewrite (Hc Red). reflexivity.
Defined.

(** ** What an output pixel depends on *)

Lemma all_for_pointwise (p q : Z -> bool) : forall n start,
  (forall i, start <= i < start + Z.of_nat n -> p i = q i) ->
  all_for n start p = all_for n start q.
Proof.
  induction n as [|n IH]; intros start E; simpl; [done|].
  rewrite E by lia. f_equal. apply IH. intros i Hi. apply E. lia.
Qed.

Lemma lookup2_grid {A B C} (f : B -> A -> C) (rows : list A) (cols : list B) j i :
  lookup2 (map (fun y => map (fun x => f x y) cols) rows) j i
  = match rows !! Z.to_nat j, cols !! Z.to_nat i with
    | Some y, Some x => Some (f x y)
    | _, _ => None
    end.
Proof.
  unfold lookup2. rewrite list_lookup_fmap.
  destruct (rows !! Z.to_nat j) as [y|]; cbn [fmap option_fmap option_map]; [|done].
  rewrite list_lookup_fmap. by destruct (cols !! Z.to_nat i).
Qed.

Lemma zrange_lookup_bounds lo hi k v : zrange lo hi !! k = Some v -> lo <= v <= hi.
Proof.
  intros E. apply list_elem_of_lookup_2, list_elem_of_In in E.
  rewrite zrange_zfrom in E. apply zfrom_In in E. lia.
Qed.

(** Two grids of pixels of one shape whose pixels agree on a channel give,
    with one kernel, the same terms for that channel. *)
Lemma visited_channel_ext c (f : num -> cell -> num) (P1 P2 : list (list Pixel)) kernel :
  length P1 = length P2 -> columns P1 = columns P2 ->
  (forall j i, match lookup2 P1 j i, lookup2 P2 j i with
               | Some p1, Some p2 => chan c p1 = chan c p2
               | None, None => True
               | _, _ => False
               end) ->
  map (fun pk => f (chan c (fst pk)) (snd pk)) (visited P1 kernel)
  = map (fun pk => f (chan c (fst pk)) (snd pk)) (visited P2 kernel).
Proof.
  intros El Ec Hsame. unfold visited. rewrite !map_flat_map, El, Ec.
  apply flat_map_pointwise. intros j _. rewrite !map_flat_map.
  apply flat_map_pointwise. intros i _. specialize (Hsame j i).
  destruct (lookup2 P1 j i) as [p1|], (lookup2 P2 j i) as [p2|]; try done.
  destruct (lookup2 kernel j i); [|done]. cbn [map fst snd]. by rewrite Hsame.
Qed.

Lemma covers_shape (P1 P2 : list (list Pixel)) kernel :
  length P1 = length P2 -> columns P1 = columns P2 ->
  (forall j i, is_Some (lookup2 P1 j i) <-> is_Some (lookup2 P2 j i)) ->
  covers P1 kernel = covers P2 kernel.
Proof.
  intros El Ec Hsame. unfold covers. rewrite El, Ec.
  apply all_for_pointwise. intros j _. apply all_for_pointwise. intros i _.
  specialize (Hsame j i).
  destruct (lookup2 P1 j i) as [p1|], (lookup2 P2 j i) as [p2|]; try done.
  - destruct Hsame as [H _]. by destruct (H ltac:(eauto)).
  - destruct Hsame as [_ H]. by destruct (H ltac:(eauto)).
Qed.

Section TwoImages.
Variables (img1 img2 : ImageData).
Hypothesis HW : width img1 = width img2.
Hypothesis HH : height img1 = height img2.

Lemma mk_area_cells_two h x y j i :
  match lookup2 (pixels (mk_area img1 h x y)) j i,
        lookup2 (pixels (mk_area img2 h x y)) j i with
  | Some p1, Some p2 =>
      exists ax ay, p1 = getPixel img1 ax ay /\ p2 = getPixel img2 ax ay /\
                    0 <= ax < width img1 /\ 0 <= ay < height img1 /\
                    Z.abs (ax - x) <= h /\ Z.abs (ay - y) <= h
  | None, None => True
  | _, _ => False
  end.
Proof.
  unfold mk_area. cbn [pixels]. rewrite <- HW, <- HH, !lookup2_grid.
  destruct (zrange _ _ !! Z.to_nat j) as [ay|] eqn:Ey; [|done].
  destruct (zrange _ _ !! Z.to_nat i) as [ax|] eqn:Ex; [|done].
  apply zrange_lookup_bounds in Ey, Ex. exists ax, ay.
  repeat (split; [done|]).
  destruct (Z.ltb_spec (x - h) 0), (Z.geb_spec (x + h) (width img1)),
           (Z.ltb_spec (y - h) 0), (Z.geb_spec (y + h) (height img1)); lia.
Qed.

Lemma mk_area_shape_two h x y :
  length (pixels (mk_area img1 h x y)) = length (pixels (mk_area img2 h x y)) /\
  columns (pixels (mk_area img1 h x y)) = columns (pixels (mk_area img2 h x y)).
Proof.
  unfold mk_area, columns. cbn [pixels]. rewrite <- HW, <- HH.
  rewrite !length_map. split; [done|].
  destruct (zrange (if y - h <? 0 then 0 else y - h) _); cbn [map nth]; [done|].
  by rewrite !length_map.
Qed.

Lemma pixel_ok_two rev K h x y :
  pixel_ok rev img1 KArray K h x y = pixel_ok rev img2 KArray K h x y.
Proof.
  unfold pixel_ok. cbn [raw_kernel]. f_equal.
  destruct (mk_area_shape_two h x y) as [El Ec].
  apply covers_shape; [done|done|].
  intros j i. pose proof (mk_area_cells_two h x y j i) as H.
  destruct (lookup2 (pixels (mk_area img1 h x y)) j i),
           (lookup2 (pixels (mk_area img2 h x y)) j i); done.
Qed.
End TwoImages.

(** X14.  With a caller's kernel array, an output pixel depends on the
    colour channels of the input pixels of its window only.  For two images
    of the same dimensions, the calls return or throw together; and when
    the images agree on r, g and b at every pixel inside the image within
    distance [h] of [(x, y)], the colour bytes written at [(x, y)] are the
    same, whatever the two images hold elsewhere and in their alphas. *)
Theorem output_reads_window_colours rev img1 img2 size s x y :
  width img1 = width img2 -> height img1 = height img2 ->
  0 < width img1 -> 0 < height img1 ->
  let h := choose_size rev s KArray size / 2 in
  in_image img1 x y ->
  (forall ax ay c, in_image img1 ax ay ->
     Z.abs (ax - x) <= h -> Z.abs (ay - y) <= h ->
     chan c (getPixel img1 ax ay) = chan c (getPixel img2 ax ay)) ->
  ((exists out1, fst (convolution rev (SrcImageData img1) KArray size s) = Return out1) <->
   (exists out2, fst (convolution rev (SrcImageData img2) KArray size s) = Return out2)) /\
  forall out1 s1 out2 s2,
    convolution rev (SrcImageData img1) KArray size s = (Return out1, s1) ->
    convolution rev (SrcImageData img2) KArray size s = (Return out2, s2) ->
    forall c,
      typed_get (data out1) (getPixelLocation img1 x y + offset c)
      = typed_get (data out2) (getPixelLocation img1 x y + offset c).
Proof.
  intros HW HH Hw Hh h Hxy Hsame.
  assert (0 < width img2 /\ 0 < height img2) as [Hw2 Hh2] by lia.
  pose proof (convolution_spec rev img1 KArray size s Hw Hh) as H1.
  pose proof (convolution_spec rev img2 KArray size s Hw2 Hh2) as H2.
  cbv zeta in H1, H2. fold h in H1, H2.
  split.
  - destruct (convolution rev (SrcImageData img1) KArray size s) as [[o1|e1] s1'],
             (convolution rev (SrcImageData img2) KArray size s) as [[o2|e2] s2'];
      cbn [fst]; split; intros [o Ho]; try discriminate; eauto; exfalso.
    + destruct H2 as (_ & _ & x' & y' & Hxy' & Hno).
      destruct H1 as (_ & _ & _ & _ & P1).
      destruct (P1 x' y' ltac:(unfold in_image in *; lia)) as [Ok _].
      rewrite (pixel_ok_two img1 img2 HW HH) in Ok. congruence.
    + destruct H1 as (_ & _ & x' & y' & Hxy' & Hno).
      destruct H2 as (_ & _ & _ & _ & P2).
      destruct (P2 x' y' ltac:(unfold in_image in *; lia)) as [Ok _].
      rewrite <- (pixel_ok_two img1 img2 HW HH) in Ok. congruence.
  - intros out1 s1 out2 s2 E1 E2 c. rewrite E1 in H1. rewrite E2 in H2.
    destruct H1 as (_ & _ & _ & _ & P1), H2 as (_ & _ & _ & _ & P2).
    destruct (P1 x y Hxy) as [_ At1].
    destruct (P2 x y ltac:(unfold in_image in *; lia)) as [_ At2].
    replace (getPixelLocation img2 x y) with (getPixelLocation img1 x y) in At2
      by (unfold getPixelLocation; by rewrite HW).
    rewrite (pixel_at_chan _ _ _ c At1), (pixel_at_chan _ _ _ c At2).
    rewrite !out_pixel_design. unfold floored_average, weighted_sum, weight_sum.
    unfold neighbourhood, kernel_at. cbn [raw_kernel].
    destruct (mk_area_shape_two img1 img2 HW HH h x y) as [El Ec].
    assert (forall j i,
              match lookup2 (pixels (mk_area img1 h x y)) j i,
                    lookup2 (pixels (mk_area img2 h x y)) j i with
              | Some p1, Some p2 => chan c p1 = chan c p2
              | None, None => True
              | _, _ => False
              end) as Hcells.
    { intros j i. pose proof (mk_area_cells_two img1 img2 HW HH h x y j i) as H.
      destruct (lookup2 (pixels (mk_area img1 h x y)) j i),
               (lookup2 (pixels (mk_area img2 h x y)) j i); try done.
      destruct H as (ax & ay & -> & -> & Hax & Hay & Hdx & Hdy).
      apply Hsame; [split|..]; done. }
    rewrite (visited_channel_ext c (fun v k => num_mul v (weight (chan c) k))
               _ _ _ El Ec Hcells).
    rewrite (visited_channel_ext c (fun v k => weight (chan c) k) _ _ _ El Ec Hcells).
    done.
Qed.

Lemma output_reads_window_colours_witness :
  exists out1 s1 out2 s2,
    convolution part_000 (SrcImageData sample_image) KArray (Some 3) sample_store
    = (Return out1, s1) /\
    convolution part_000 (SrcImageData sample_image_far) KArray (Some 3) sample_store
    = (Return out2, s2) /\
    typed_get (data out1) (getPixelLocation sample_image 0 0 + offset Red)
    = typed_get (data out2) (getPixelLocation sample_image 0 0 + offset Red).
Proof.
  destruct (output_reads_window_colours part_000 sample_image sample_image_far (Some 3)
              sample_store 0 0 ltac:(reflexivity) ltac:(reflexivity)
              ltac:(simpl; lia) ltac:(simpl; lia)
              ltac:(unfold in_image; simpl; lia)) as [_ Hsame].
  - intros ax ay c [Hx Hy] Hdx Hdy.
    change (choose_size part_000 sample_store KArray (Some 3) / 2) with 1 in Hdx, Hdy.
    simpl in Hx, Hy.
    assert (ax = 0 \/ ax = 1) as [-> | ->] by lia;
      assert (ay = 0 \/ ay = 1) as [-> | ->] by lia;
      destruct c; reflexivity.
  - destruct (convolution part_000 (SrcImageData sample_image) KArray (Some 3)
                sample_store) as [[out1|e1] s1] eqn:E1;
      [|vm_compute in E1; discriminate E1].
    destruct (convolution part_000 (SrcImageData sample_image_far) KArray (Some 3)
                sample_store) as [[out2|e2] s2] eqn:E2;
      [|vm_compute in E2; discriminate E2].
    exists out1, s1, out2, s2. split; [reflexivity|]. split; [reflexivity|].
    exact (Hsame out1 s1 out2 s2 eq_refl eq_refl Red).
Defined.

(** ** Kernel functions *)

Lemma same_shape_lookup {A B} (K : list (list A)) (P : list (list B)) j i :
  map length K = map length P ->
  (is_Some (lookup2 K j i) <-> is_Some (lookup2 P j i)).
Proof.
  intros Eshape. unfold lookup2.
  assert (map length K !! Z.to_nat j = map length P !! Z.to_nat j) as E
      by (by rewrite Eshape).
  rewrite !list_lookup_fmap in E.
  destruct (K !! Z.to_nat j) as [rk|], (P !! Z.to_nat j) as [rp|];
    cbn [fmap option_fmap option_map] in E; try done.
  injection E as E. rewrite !lookup_lt_is_Some. by rewrite E.
Qed.

Lemma normalize_shape rev kernel :
  map length (normalize rev kernel) = map length kernel.
Proof.
  destruct rev; simpl; [|done].
  destruct (first_cell_is_Number kernel) as [[|]|]; try done.
  rewrite map_map. apply map_ext. intros row. apply length_map.
Qed.

(** X15.  A kernel function that returns, for every area, a grid of the
    shape of the area's pixel grid (as many rows, each as long as the
    pixel row) fits every neighbourhood, also the ones clipped at the
    edges: for a half-size [h >= 0] the call on an image of positive
    dimensions returns a buffer, whatever the cells hold. *)
Theorem shape_matching_function_fits rev imgData f size s :
  0 < width imgData -> 0 < height imgData ->
  0 <= choose_size rev s (KFunction f) size / 2 ->
  (forall area, map length (f area) = map length (pixels area)) ->
  exists out,
    convolution rev (SrcImageData imgData) (KFunction f) size s
    = (Return out, store_after rev imgData (KFunction f) s).
Proof.
  intros Hw Hh Hh0 Hshape.
  set (h := choose_size rev s (KFunction f) size / 2) in *.
  assert (kernel_fits rev imgData (KFunction f) (kernel_array s) h = true) as Hfits.
  { apply kernel_fits_spec. intros x y [Hx Hy]. unfold pixel_ok. cbn [raw_kernel].
    set (area := mk_area imgData h x y).
    pose proof (span_bounds (height imgData) h y Hy Hh0) as Hrows.
    pose proof (span_bounds (width imgData) h x Hx Hh0) as Hcols.
    assert (length (pixels area) = Z.to_nat (span (height imgData) h y)) as Er
        by apply mk_area_rows.
    assert (columns (pixels area) = Z.to_nat (span (width imgData) h x)) as Ec
        by (apply mk_area_columns; fold area; lia).
    apply andb_true_iff. split.
    - destruct rev; [|done]. unfold first_cell_ok.
      pose proof (Hshape area) as E. unfold columns in Ec.
      destruct (pixels area) as [|prow prows]; [simpl in Er; lia|].
      destruct (f area) as [|krow krows]; [done|].
      cbn [map nth] in E, Ec. injection E as E _.
      destruct krow as [|[n|p] krow]; [simpl in E; lia|done|done].
    - apply covers_intro. intros j i Hj Hi.
      assert (is_Some (lookup2 (pixels area) j i)) as Hp
          by (apply mk_area_cell; lia).
      split; [done|].
      apply (same_shape_lookup _ (pixels area)); [|done].
      by rewrite normalize_shape. }
  destruct (convolution_output rev imgData (KFunction f) size s Hw Hh Hfits)
    as (out & E & _).
  by exists out.
Qed.

Lemma shape_matching_function_fits_witness :
  exists out,
    fst (convolution part_000 (SrcImageData sample_image)
           (KFunction (fun area => map (map (fun _ => CNum (Fin 1))) (pixels area)))
           None sample_store) = Return out.
Proof.
  destruct (shape_matching_function_fits part_000 sample_image
              (fun area => map (map (fun _ => CNum (Fin 1))) (pixels area))
              None sample_store ltac:(simpl; lia) ltac:(simpl; lia)
              ltac:(vm_compute; discriminate)) as [out E].
  - intros area. rewrite map_map. apply map_ext. intros row. apply length_map.
  - exists out. by rewrite E.
Defined.

(** ** Scaling the weights *)

Lemma first_cell_scale k kernel :
  first_cell_is_Number (scale k kernel) = first_cell_is_Number kernel.
Proof. by destruct kernel as [|[|[n|p] row] rows]. Qed.

Lemma promote_scale k c :
  promote_cell (scale_cell k c) = scale_cell k (promote_cell c).
Proof. by destruct c. Qed.

Lemma normalize_scale rev k kernel :
  normalize rev (scale k kernel) = scale k (normalize rev kernel).
Proof.
  destruct rev; simpl; [|done]. rewrite first_cell_scale.
  destruct (first_cell_is_Number kernel) as [[|]|]; try done.
  unfold scale. rewrite !map_map. apply map_ext. intros row.
  rewrite !map_map. apply map_ext. intros c. apply promote_scale.
Qed.

Lemma lookup2_scale k kernel j i :
  lookup2 (scale k kernel) j i = scale_cell k <$> lookup2 kernel j i.
Proof.
  unfold lookup2, scale, grid in *. rewrite list_lookup_fmap.
  destruct (kernel !! Z.to_nat j) as [row|]; cbn [fmap option_fmap option_map];
    [|reflexivity].
  by rewrite list_lookup_fmap.
Qed.

Lemma weight_scale k c kpixel :
  weight (chan c) (scale_cell k kpixel) = num_mul (Fin k) (weight (chan c) kpixel).
Proof. destruct kpixel as [n|p]; [reflexivity|]. destruct c; reflexivity. Qed.

Lemma covers_scale k pixels kernel :
  covers pixels (scale k kernel) = covers pixels kernel.
Proof.
  unfold covers. apply all_for_pointwise. intros j _.
  apply all_for_pointwise. intros i _. rewrite lookup2_scale.
  by destruct (lookup2 pixels j i), (lookup2 kernel j i).
Qed.

Lemma visited_scale k pixels kernel :
  visited pixels (scale k kernel)
  = map (fun pk => (fst pk, scale_cell k (snd pk))) (visited pixels kernel).
Proof.
  unfold visited. rewrite map_flat_map. apply flat_map_pointwise. intros j _.
  rewrite map_flat_map. apply flat_map_pointwise. intros i _.
  rewrite lookup2_scale.
  by destruct (lookup2 pixels j i), (lookup2 kernel j i).
Qed.

(** Scaled weights, while they stay below 2^53: the sums in Z are scaled. *)
Lemma scaled_exact k c : forall cells,
  0 < k -> finite_weight c cells = true -> k * weight_mass c cells < 2 ^ 53 ->
  let cells' := map (fun pk => (fst pk, scale_cell k (snd pk))) cells in
  finite_weight c cells' = true /\
  exact_weighted_sum c cells' = k * exact_weighted_sum c cells /\
  exact_weight_sum c cells' = k * exact_weight_sum c cells /\
  weight_mass c cells' = k * weight_mass c cells.
Proof.
  unfold exact_weighted_sum, exact_weight_sum, weight_mass, channel_value, weight_value.
  induction cells as [|[p kp] cells IH]; intros Hk Hfin Hb.
  - cbn. repeat split; lia.
  - cbn [finite_weight forallb snd] in Hfin. apply andb_true_iff in Hfin as [Hw Hfin].
    destruct (weight (chan c) kp) as [w|fm fe| | |] eqn:Ew; try done.
    pose proof (weight_mass_nonneg c cells) as Hm.
    unfold weight_mass, weight_value in Hm.
    cbn [map fst snd] in Hb |- *. rewrite !zsum_cons in Hb |- *.
    rewrite Ew in Hb |- *. cbn [byte_value] in Hb |- *.
    assert (Z.abs (k * w) = k * Z.abs w) as Hkw
        by (rewrite Z.abs_mul, (Z.abs_eq k) by lia; done).
    destruct (IH Hk Hfin ltac:(nia)) as (Hf & E1 & E2 & E3).
    cbn [finite_weight forallb snd]. rewrite weight_scale, Ew, num_mul_exact by nia.
    cbn [byte_value]. rewrite !zsum_cons, E1, E2, E3, Hkw.
    split; [exact Hf|]. repeat split; lia.
Qed.

Lemma floored_average_scale k c cells :
  0 < k ->
  (forall pk, In pk cells -> exists v, chan c (fst pk) = Fin v /\ 0 <= v <= 255) ->
  finite_weight c cells = true ->
  255 * k * weight_mass c cells < 2 ^ 53 ->
  floored_average c (map (fun pk => (fst pk, scale_cell k (snd pk))) cells)
  = floored_average c cells.
Proof.
  intros Hk Hpix Hfin Hb. pose proof (weight_mass_nonneg c cells) as Hm.
  destruct (scaled_exact k c cells Hk Hfin ltac:(nia)) as (Hfin' & E1 & E2 & E3).
  destruct (exact_sums c cells Hpix Hfin ltac:(nia)) as (HS & HN & HSb & HNb).
  assert (forall pk, In pk (map (fun pk => (fst pk, scale_cell k (snd pk))) cells) ->
            exists v, chan c (fst pk) = Fin v /\ 0 <= v <= 255) as Hpix'.
  { intros pk Hin. apply in_map_iff in Hin as (pk0 & <- & Hin). cbn [fst].
    by apply Hpix. }
  destruct (exact_sums c _ Hpix' Hfin' ltac:(rewrite E3; lia))
    as (HS' & HN' & HSb' & HNb').
  unfold floored_average. rewrite HS, HN, HS', HN'. rewrite E1, E2 in *.
  set (S := exact_weighted_sum c cells) in *. set (N := exact_weight_sum c cells) in *.
  destruct (Z.eq_dec N 0) as [-> | HN0].
  - rewrite Z.mul_0_r, !num_div_zero.
    destruct (Z.eqb_spec S 0) as [-> | HS0]; [by rewrite Z.mul_0_r|].
    destruct (Z.eqb_spec (k * S) 0); [nia|].
    destruct (Z.ltb_spec 0 S), (Z.ltb_spec 0 (k * S)); try done; nia.
  - rewrite !floor_div_exact by (done || nia). f_equal.
    apply Z.div_mul_cancel_l; lia.
Qed.

Lemma Pixel_ext (p q : Pixel) :
  (forall c, chan c p = chan c q) -> a p = a q -> p = q.
Proof.
  intros Hc Ha. destruct p, q.
  pose proof (Hc Red). pose proof (Hc Green). pose proof (Hc Blue).
  simpl in *. congruence.
Qed.

(** X16.  The normalization makes the engine indifferent to the scale of
    integer weights: on a valid image, multiplying every weight of the
    kernel (the caller's array, or every grid a kernel function returns) by
    one positive integer [k] leaves the outcome of the call as it was, the
    same buffer or the same exception, as long as 255 [k] times the mass of
    the weights applied at each coordinate stays below 2^53. *)
Theorem scaled_kernel_same_outcome rev imgData ks size s k :
  valid_ImageData imgData ->
  0 < k ->
  let h := choose_size rev s ks size / 2 in
  (forall x y c, in_image imgData x y ->
     let cells := neighbourhood rev imgData ks (kernel_array s) h x y in
     finite_weight c cells = true /\ 255 * k * weight_mass c cells < 2 ^ 53) ->
  fst (convolution rev (SrcImageData imgData) (scale_source k ks) size
         (set_kernel_array s (scale k (kernel_array s))))
  = fst (convolution rev (SrcImageData imgData) ks size s).
Proof.
  intros Hv Hk h Hsmall. pose proof Hv as (Hw & Hh & _).
  apply convolution_outcome_ext; [done|done|].
  intros x y Hxy.
  assert (choose_size rev (set_kernel_array s (scale k (kernel_array s)))
            (scale_source k ks) size = choose_size rev s ks size) as ->.
  { unfold choose_size, default_size, scale.
    destruct ks, rev; simpl; by rewrite ?length_map. }
  fold h.
  assert (raw_kernel (scale_source k ks) (scale k (kernel_array s)) (mk_area imgData h x y)
          = scale k (raw_kernel ks (kernel_array s) (mk_area imgData h x y))) as Eraw
      by (by destruct ks).
  assert (pixel_ok rev imgData (scale_source k ks)
            (kernel_array (set_kernel_array s (scale k (kernel_array s)))) h x y
          = pixel_ok rev imgData ks (kernel_array s) h x y) as Eok.
  { unfold pixel_ok. cbn [kernel_array set_kernel_array]. rewrite Eraw.
    rewrite normalize_scale, covers_scale. f_equal.
    destruct rev; [|done]. unfold first_cell_ok. by rewrite first_cell_scale. }
  split; [exact Eok|].
  rewrite Eok. intros Hok. apply Pixel_ext; [|by rewrite !out_pixel_alpha].
  intros c. rewrite !out_pixel_design.
  destruct (Hsmall x y c Hxy) as [Hfin Hb].
  unfold neighbourhood, kernel_at in Hfin, Hb |- *.
  cbn [kernel_array set_kernel_array]. rewrite Eraw, normalize_scale, visited_scale.
  apply floored_average_scale; try done.
  by apply (neighbourhood_channels rev imgData ks (kernel_array s) h x y c).
Qed.

Lemma scaled_kernel_same_outcome_witness :
  fst (convolution part_000 (SrcImageData dot_image) KArray (Some 1)
         (mkStore None 5 [[CNum (Fin 4)]] []))
  = fst (convolution part_000 (SrcImageData dot_image) KArray (Some 1)
           (mkStore None 5 [[CNum (Fin 1)]] [])).
Proof.
  assert (valid_ImageData dot_image) as Hv.
  { unfold valid_ImageData, dot_image; simpl.
    repeat split; try lia. repeat constructor; lia. }
  apply (scaled_kernel_same_outcome part_000 dot_image KArray (Some 1)
           (mkStore None 5 [[CNum (Fin 1)]] []) 4 Hv ltac:(lia)).
  intros x y c [Hx Hy]. simpl in Hx, Hy.
  assert (x = 0) as -> by lia. assert (y = 0) as -> by lia.
  destruct c; split; vm_compute; reflexivity.
Defined.

(** ** The console *)

Lemma accumulate_cell_console rev area kernel j i sums s :
  match accumulate_cell rev area kernel j i sums s with
  | (Return _, s') => s' = s
  | (Throw _, s') => logs_at_most_one rev (console s) (console s')
  end.
Proof.
  unfold accumulate_cell, logs_at_most_one.
  destruct (index2 (pixels area) j i) as [[ap|]|ea], (index2 kernel j i) as [[kp|]|ek];
    unfold ret, throw, bind; simpl; auto;
    destruct rev; simpl; auto; right; eauto.
Qed.

Lemma accumulate_console rev area kernel s :
  match accumulate rev area kernel s with
  | (Return _, s') => s' = s
  | (Throw _, s') => logs_at_most_one rev (console s) (console s')
  end.
Proof.
  unfold accumulate.
  apply (for_inv (fun _ _ s' => s' = s)
                 (fun _ s' => logs_at_most_one rev (console s) (console s'))); [done|].
  intros j sums s0 _ ->.
  apply (for_inv (fun _ _ s' => s' = s)
                 (fun _ s' => logs_at_most_one rev (console s) (console s'))); [done|].
  intros i sums' s0 _ ->. apply accumulate_cell_console.
Qed.

Lemma convolve_pixel_console rev imgData ks h x y d s :
  match convolve_pixel rev imgData ks h x y d s with
  | (Return _, _) => True
  | (Throw _, s') => logs_at_most_one rev (console s) (console s')
  end.
Proof.
  unfold convolve_pixel, bind.
  pose proof (resolve_kernel_spec rev ks (mk_area imgData h x y) s) as Hr.
  cbv zeta in Hr.
  destruct (resolve_kernel rev ks (mk_area imgData h x y) s) as [[kernel|e] s1].
  - destruct Hr as (_ & _ & ->).
    pose proof (accumulate_console rev (mk_area imgData h x y) kernel
                  (set_kernel_array s (kernel_after rev ks (kernel_array s)))) as Ha.
    destruct (accumulate rev (mk_area imgData h x y) kernel _) as [[sums|e] s2].
    + by destruct sums.
    + exact Ha.
  - destruct Hr as (_ & _ & ->). by left.
Qed.

(** X17.  A call on an image of positive dimensions prints at most one line
    on the console, and only in part_000, whose catch block prints the
    position and the operands before throwing the TypeError again;
    src/convolution.js never prints, and a call that returns a buffer has
    printed nothing. *)
Theorem console_after_call rev imgData ks size s :
  0 < width imgData -> 0 < height imgData ->
  match convolution rev (SrcImageData imgData) ks size s with
  | (Return _, s') => console s' = console s
  | (Throw _, s') =>
      logs_at_most_one rev (console s) (console s') /\
      (rev = convolution_js -> console s' = console s)
  end.
Proof.
  intros Hw Hh.
  unfold convolution, bind, ret, get_store, put_store, new_ImageData.
  destruct (Z.leb_spec (width imgData) 0); [lia|].
  destruct (Z.leb_spec (height imgData) 0); [lia|].
  cbn [orb ret width height data]. rewrite choose_size_store.
  set (h := choose_size rev s ks size / 2).
  set (Log := fun (e : exn) (s' : store) => logs_at_most_one rev (console s) (console s')).
  pose proof (for_inv
    (fun y d s' => loop_inv rev imgData ks (Some imgData) (kernel_size s) (kernel_array s)
                     (console s) h (y * width imgData) d s')
    Log
    (fun y d => for_ (Z.to_nat (width imgData)) 0
       (fun x d => convolve_pixel rev imgData ks h x y d) d)
    (Z.to_nat (height imgData)) 0
    (repeat 0 (Z.to_nat (width imgData * height imgData * 4)))
    (mkStore (Some imgData) (kernel_size s) (kernel_array s) (console s))) as Hloop.
  cbv beta in Hloop.
  match type of Hloop with ?A -> ?B -> ?C => assert C as Hres end.
  { apply Hloop.
    - split; [apply repeat_length|]. split; [left; split; [done|lia]|].
      intros x y Hx Hy Hlt. lia.
    - intros y d s0 Hy Hinv.
      pose proof (for_inv
        (fun x d s' => loop_inv rev imgData ks (Some imgData) (kernel_size s)
                         (kernel_array s) (console s) h (y * width imgData + x) d s')
        Log
        (fun x d => convolve_pixel rev imgData ks h x y d)
        (Z.to_nat (width imgData)) 0 d s0) as Hrow.
      cbv beta in Hrow.
      replace (y * width imgData + (0 + Z.of_nat (Z.to_nat (width imgData))))
        with ((y + 1) * width imgData) in Hrow by lia.
      apply Hrow; [by rewrite Z.add_0_r|].
      intros x d' s1 Hx Hinv'.
      pose proof (pixel_turn rev imgData ks (Some imgData) (kernel_size s)
                    (kernel_array s) (console s) h Hw Hh x y d' s1
                    ltac:(unfold in_image; lia) Hinv') as Hturn.
      pose proof (convolve_pixel_console rev imgData ks h x y d' s1) as Hcon.
      destruct (convolve_pixel rev imgData ks h x y d' s1) as [[d2|e] s2].
      + by rewrite Z.add_assoc.
      + subst Log. cbv beta.
        destruct Hinv' as (_ & [[-> _]| ->] & _); exact Hcon. }
  destruct (for_ _ _ _ _ _) as [[d|e] s'].
  - destruct Hres as (_ & [[-> _]| ->] & _); reflexivity.
  - subst Log. cbv beta in Hres. split; [exact Hres|].
    intros ->. destruct Hres as [E|[Hrev _]]; [done|discriminate].
Qed.

Lemma console_after_call_witness :
  exists e s',
    convolution part_000 (SrcImageData edge_image) KArray (Some 3)
                (mkStore None 5 [[CNum (Fin 1)]] []) = (Throw e, s') /\
    logs_at_most_one part_000 [] (console s') /\ length (console s') = 1%nat.
Proof.
  pose proof (console_after_call part_000 edge_image KArray (Some 3)
                (mkStore None 5 [[CNum (Fin 1)]] [])
                ltac:(simpl; lia) ltac:(simpl; lia)) as H.
  destruct (convolution part_000 (SrcImageData edge_image) KArray (Some 3)
              (mkStore None 5 [[CNum (Fin 1)]] [])) as [[out|e] s'] eqn:E.
  - vm_compute in E. discriminate E.
  - exists e, s'. split; [reflexivity|]. destruct H as [H _]. split; [exact H|].
    vm_compute in E. injection E as _ <-. reflexivity.
Defined.

(** ** What a call leaves alone *)

(** X18.  src/convolution.js never writes into the caller's kernel array,
    and part_000 leaves it as it was when it is the kernel source and its
    cell [0][0] is a Pixel: the promotion is the only write, and it is
    decided by that cell.  No call changes [imgproc.defaults.kernel_size]. *)
Theorem kernel_array_left_alone rev source ks size s :
  let s' := snd (convolution rev source ks size s) in
  kernel_size s' = kernel_size s /\
  (rev = convolution_js \/
   (ks = KArray /\ first_cell_is_Number (kernel_array s) = Return false) ->
   kernel_array s' = kernel_array s).
Proof.
  intros s'. subst s'.
  assert (rev = convolution_js \/
          (ks = KArray /\ first_cell_is_Number (kernel_array s) = Return false) ->
          kernel_after rev ks (kernel_array s) = kernel_array s) as Hafter.
  { intros [-> | [-> Hpix]]; [by destruct ks|].
    destruct rev; simpl; try done. by rewrite Hpix. }
  destruct source as [|d|name|]; [done| |done|done].
  destruct (Z_lt_dec 0 (width d)) as [Hw|Hw], (Z_lt_dec 0 (height d)) as [Hh|Hh].
  1: { destruct (convolution_store rev d ks size s Hw Hh) as (_ & -> & -> & _).
       split; [done|]. exact Hafter. }
  all: unfold convolution, bind, ret, get_store, put_store, new_ImageData;
    destruct (Z.leb_spec (width d) 0); [done|];
    destruct (Z.leb_spec (height d) 0); [done|lia].
Qed.

Lemma kernel_array_left_alone_witness :
  kernel_array (snd (convolution part_000 (SrcImageData sample_image) KArray
                       (Some 3) (mkStore None 5 (explicit ones_kernel) [])))
  = explicit ones_kernel.
Proof.
  destruct (kernel_array_left_alone part_000 (SrcImageData sample_image) KArray
              (Some 3) (mkStore None 5 (explicit ones_kernel) [])) as [_ H].
  apply H. right. split; reflexivity.
Defined.

(** ** Non-negative weights *)

Lemma nonneg_exact c lo hi : forall cells,
  (forall pk, In pk cells -> lo <= channel_value c pk <= hi) ->
  nonneg_weight c cells = true ->
  finite_weight c cells = true /\
  weight_mass c cells = exact_weight_sum c cells /\
  0 <= exact_weight_sum c cells /\
  lo * exact_weight_sum c cells <= exact_weighted_sum c cells
  <= hi * exact_weight_sum c cells.
Proof.
  unfold exact_weighted_sum, exact_weight_sum, weight_mass.
  induction cells as [|pk cells IH]; intros Hpix Hw.
  - cbn. repeat split; lia.
  - cbn [nonneg_weight forallb] in Hw. apply andb_true_iff in Hw as [Hk Hw].
    pose proof (Hpix pk ltac:(by left)) as Hv.
    destruct (IH ltac:(intros; apply Hpix; by right) Hw) as (Hf & EM & HN & HS).
    destruct (weight (chan c) (snd pk)) as [w|fm fe| | |] eqn:Ew; try done.
    apply Z.leb_le in Hk.
    assert (weight_value c pk = w) as Ewv by (unfold weight_value; by rewrite Ew).
    cbn [finite_weight forallb map]. rewrite !zsum_cons, EM, Ew, Ewv.
    split; [exact Hf|]. repeat split; nia.
Qed.

(** X19.  With non-negative integer weights whose sum is positive and, times
    255, below 2^53, the engine does not overshoot: on a valid image, when
    every value of a channel in the window of [(x, y)] lies between [lo]
    and [hi], the byte stored for that channel at [(x, y)] lies between
    [lo] and [hi] too. *)
Theorem nonnegative_weights_stay_in_range rev imgData ks size s x y c lo hi :
  valid_ImageData imgData ->
  let h := choose_size rev s ks size / 2 in
  let cells := neighbourhood rev imgData ks (kernel_array s) h x y in
  kernel_fits rev imgData ks (kernel_array s) h = true ->
  in_image imgData x y ->
  nonneg_weight c cells = true ->
  weight_sum c cells <> Fin 0 ->
  255 * weight_mass c cells < 2 ^ 53 ->
  Forall (fun p => lo <= byte_value (chan c p) <= hi) (window imgData h x y) ->
  exists out s' v,
    convolution rev (SrcImageData imgData) ks size s = (Return out, s') /\
    typed_get (data out) (getPixelLocation imgData x y + offset c) = Fin v /\
    lo <= v <= hi.
Proof.
  intros Hv h cells Hfits Hxy Hnn Hsum Hmass Hwin.
  pose proof Hv as (Hwd & Hht & _).
  destruct (convolution_output rev imgData ks size s Hwd Hht Hfits)
    as (out & E & _ & _ & _ & Hpix).
  assert (pixel_ok rev imgData ks (kernel_array s) h x y = true) as Hok
      by (by apply kernel_fits_spec).
  assert (map fst cells = window imgData h x y) as Ewin
      by (by apply neighbourhood_window).
  pose proof (neighbourhood_channels rev imgData ks (kernel_array s) h x y c Hv Hxy Hok)
    as Hbytes. fold cells in Hbytes.
  assert (forall pk, In pk cells ->
            Z.max lo 0 <= channel_value c pk <= Z.min hi 255) as Hrange.
  { intros pk Hin. unfold channel_value.
    assert (In (fst pk) (window imgData h x y)) as Hp
        by (rewrite <- Ewin; by apply in_map).
    destruct (Hbytes pk Hin) as (v & Ev & Hb).
    rewrite Forall_forall in Hwin. specialize (Hwin (fst pk)).
    rewrite list_elem_of_In in Hwin. specialize (Hwin Hp).
    rewrite Ev in Hwin |- *. simpl in Hwin |- *. lia. }
  destruct (nonneg_exact c (Z.max lo 0) (Z.min hi 255) cells Hrange Hnn)
    as (Hfin & EM & HN & Hb).
  destruct (exact_sums c cells Hbytes Hfin Hmass) as (ES & EN & HSb & HNb).
  set (S := exact_weighted_sum c cells) in *. set (N := exact_weight_sum c cells) in *.
  assert (N <> 0) as HN0.
  { intros E0. apply Hsum. by rewrite EN, E0. }
  exists out, (store_after rev imgData ks s), (S / N).
  split; [exact E|].
  assert (Z.max lo 0 <= S / N <= Z.min hi 255) as Hq.
  { split; [apply Z.div_le_lower_bound; lia|]. apply Z.div_le_upper_bound; [lia|]. nia. }
  split; [|lia].
  destruct (Hpix x y Hxy) as [_ Hc]. rewrite (Hc c). fold h cells.
  unfold floored_average. rewrite ES, EN, floor_div_exact by done.
  cbn [ToUint8Clamp]. f_equal. lia.
Qed.

Lemma nonnegative_weights_stay_in_range_witness :
  exists out s' v,
    convolution part_000 (SrcImageData sample_image) KArray (Some 3) sample_store
    = (Return out, s') /\
    typed_get (data out) (getPixelLocation sample_image 0 0 + offset Red) = Fin v /\
    10 <= v <= 50.
Proof.
  apply (nonnegative_weights_stay_in_range part_000 sample_image KArray (Some 3)
           sample_store 0 0 Red 10 50 sample_image_valid
           ltac:(vm_compute; reflexivity) ltac:(unfold in_image; simpl; lia)
           ltac:(vm_compute; reflexivity) ltac:(vm_compute; discriminate)
           ltac:(vm_compute; reflexivity)).
  vm_compute. repeat constructor; discriminate.
Defined.
